(** * Bidding scheduler of the Electron main process (main.js)

    A shallow embedding of the bidding logic of [main.js]: the session
    registry [browserMap], the list [bidTimeouts], [ensureLoggedIn],
    [placeBid], [handleUserBids] and the IPC handlers
    [fetch-auctions-data], [stop-update], [close-all-windows],
    [save-auctions] and [save-credentials].

    An [async] function is a tree of synchronous state accesses and
    [await] points; the event loop runs one synchronous segment at a
    time, settles awaited driver operations, fires timers and advances
    the wall clock. *)

From Stdlib Require Import ZArith Floats.PrimFloat.
From Stdlib Require Ascii String.
From stdpp Require Import gmap strings list fin_maps.

Local Open Scope Z_scope.

(** ** JavaScript built-ins the code relies on *)

(** [parseFloat], [Number.prototype.toFixed(2)], [new Date(s)] (the time
    value in milliseconds, [None] for an invalid date) and
    [Date.prototype.toLocaleString] are taken as given. *)
Class Builtins := {
  parseFloat : string -> float;
  toFixed2 : float -> string;
  parseDate : string -> option Z;
  toLocaleString : Z -> string;
}.

(** [x > 0] on JavaScript numbers; false for NaN. *)
Definition gt0 (x : float) : bool := PrimFloat.ltb 0%float x.

(** [x || 0] on JavaScript numbers: NaN and the zeros are falsy. *)
Definition or_zero (x : float) : float :=
  if PrimFloat.ltb x 0%float || PrimFloat.ltb 0%float x then x else 0%float.

(** [s.toUpperCase()] on ASCII letters and [s.replace(/\//g, '')]. *)
Definition upper_ascii (c : Ascii.ascii) : Ascii.ascii :=
  let n := Ascii.nat_of_ascii c in
  if (Nat.leb 97 n && Nat.leb n 122)%bool then Ascii.ascii_of_nat (n - 32) else c.

Fixpoint toUpperCase (s : string) : string :=
  match s with
  | EmptyString => EmptyString
  | String c r => String (upper_ascii c) (toUpperCase r)
  end.

Fixpoint remove_slashes (s : string) : string :=
  match s with
  | EmptyString => EmptyString
  | String c r =>
      if Ascii.eqb c (Ascii.ascii_of_nat 47) then remove_slashes r else String c (remove_slashes r)
  end.

(** ** Records of credentials.json *)

Module Cred.
Record t := mk { id : Z; username : string; password : string }.
End Cred.

Module Auction.
Record t := mk {
  id : Z;
  timeToBid : string;
  idAuction : string;
  bidProxy : string;
  address : string;
  account : string;
  bidPlaced : string;
}.

Definition with_bidPlaced (s : string) (a : t) : t :=
  mk (id a) (timeToBid a) (idAuction a) (bidProxy a) (address a) (account a) s.

#[global] Instance inhabited : Inhabited t := populate (mk 0 "" "" "" "" "" "").
End Auction.

(** The file: missing, unreadable as JSON, or holding both collections;
    [writable] says whether [fs.writeFileSync] succeeds. *)
Inductive FileContent :=
| Absent
| Garbage
| Json (credentials : list Cred.t) (auctions : list Auction.t).

Record Disk := { content : FileContent; writable : bool }.

(** ** The main process state *)

(** An entry of [browserMap]. *)
Record Session := { browser : nat; page : nat; isLoggedIn : bool }.

Definition logged_in (s : Session) : Session :=
  {| browser := browser s; page := page s; isLoggedIn := true |}.

(** An entry of [bidTimeouts]. *)
Module BidTimeout.
Record t := mk { timeoutId : nat; auctionId : Z; username : string }.
End BidTimeout.

(** A timer of the runtime: the delay handed to [setTimeout] ([None] is
    NaN), the time it was armed, and what the callback
    [async () => { await placeBid(auction, page); }] closes over. *)
Record Timer := {
  delay : option Z;
  armedAt : Z;
  cb_auction : nat;
  cb_page : nat;
}.

(** One constructor per [console.log] / [console.error] call. *)
Inductive Log :=
| LIoLoad
| LIoLoadError
| LIoSave
| LIoSaveError
| LAlreadyLoggedIn (username : string)
| LLoggingIn (username : string)
| LLoginSuccessful (username : string)
| LLoginError (username err : string)
| LPlaceBid (idAuction : string)
| LTyping (amount selector : string)
| LClickedFirst
| LClickedSecond
| LPlaceBidError (err : string)
| LSkipping (username : string)
| LNoTime (idAuction : string)
| LScheduling (idAuction : string) (diff : option Z)
| LIpc (channel : string)
| LNoCredsOrAuctions.

Record World := {
  browserMap : gmap string Session;
  bidTimeouts : list BidTimeout.t;
  timers : gmap nat Timer;
  nextTimeoutId : nat;
  heap : gmap nat Auction.t;
  nextLoc : nat;
  disk : Disk;
  clock : Z;
  console : list Log;
}.

Definition set_browserMap (f : gmap string Session -> gmap string Session) (w : World) : World :=
  {| browserMap := f (browserMap w); bidTimeouts := bidTimeouts w; timers := timers w;
     nextTimeoutId := nextTimeoutId w; heap := heap w; nextLoc := nextLoc w;
     disk := disk w; clock := clock w; console := console w |}.

Definition set_timing (bt : list BidTimeout.t) (tm : gmap nat Timer) (n : nat) (w : World) : World :=
  {| browserMap := browserMap w; bidTimeouts := bt; timers := tm;
     nextTimeoutId := n; heap := heap w; nextLoc := nextLoc w;
     disk := disk w; clock := clock w; console := console w |}.

Definition set_heap (h : gmap nat Auction.t) (n : nat) (w : World) : World :=
  {| browserMap := browserMap w; bidTimeouts := bidTimeouts w; timers := timers w;
     nextTimeoutId := nextTimeoutId w; heap := h; nextLoc := n;
     disk := disk w; clock := clock w; console := console w |}.

Definition set_content (c : FileContent) (w : World) : World :=
  {| browserMap := browserMap w; bidTimeouts := bidTimeouts w; timers := timers w;
     nextTimeoutId := nextTimeoutId w; heap := heap w; nextLoc := nextLoc w;
     disk := {| content := c; writable := writable (disk w) |};
     clock := clock w; console := console w |}.

Definition set_clock (t : Z) (w : World) : World :=
  {| browserMap := browserMap w; bidTimeouts := bidTimeouts w; timers := timers w;
     nextTimeoutId := nextTimeoutId w; heap := heap w; nextLoc := nextLoc w;
     disk := disk w; clock := t; console := console w |}.

Definition console_log (l : Log) (w : World) : World :=
  {| browserMap := browserMap w; bidTimeouts := bidTimeouts w; timers := timers w;
     nextTimeoutId := nextTimeoutId w; heap := heap w; nextLoc := nextLoc w;
     disk := disk w; clock := clock w; console := console w ++ [l] |}.

(** [loadData()]: never throws; an error is logged and both collections
    come back empty. A missing file is created with the default data. *)
Definition loadData (w : World) : (list Cred.t * list Auction.t) * World :=
  let w := console_log LIoLoad w in
  match content (disk w) with
  | Absent =>
      if writable (disk w) then (([], []), set_content (Json [] []) w)
      else (([], []), console_log LIoLoadError w)
  | Garbage => (([], []), console_log LIoLoadError w)
  | Json credentials auctions => ((credentials, auctions), w)
  end.

(** [saveData({ credentials, auctions })]: never throws; returns whether
    the file was written. *)
Definition saveData (credentials : list Cred.t) (auctions : list Auction.t)
    (w : World) : bool * World :=
  let w := console_log LIoSave w in
  if writable (disk w) then (true, set_content (Json credentials auctions) w)
  else (false, console_log LIoSaveError w).

(** [setTimeout(callback, diff)] for the bid callback. *)
Definition setTimeout (diff : option Z) (auction page : nat) (w : World) : nat * World :=
  let timeoutId := nextTimeoutId w in
  (timeoutId,
   set_timing (bidTimeouts w)
     (<[timeoutId := {| delay := diff; armedAt := clock w;
                        cb_auction := auction; cb_page := page |}]> (timers w))
     (S timeoutId) w).

(** [clearTimeout(id)]; clearing a timer that is gone does nothing. *)
Definition clearTimeout (timeoutId : nat) (w : World) : World :=
  set_timing (bidTimeouts w) (delete timeoutId (timers w)) (nextTimeoutId w) w.

(** [bidTimeouts.push(entry)]. *)
Definition push_bidTimeout (entry : BidTimeout.t) (w : World) : World :=
  set_timing (bidTimeouts w ++ [entry]) (timers w) (nextTimeoutId w) w.

(** [for (const t of bidTimeouts) clearTimeout(t.timeoutId); bidTimeouts.length = 0]. *)
Definition clear_bidTimeouts (w : World) : World :=
  let w := foldl (fun w t => clearTimeout (BidTimeout.timeoutId t) w) w (bidTimeouts w) in
  set_timing [] (timers w) (nextTimeoutId w) w.

(** [auction.bidPlaced = nowStr] on the object behind a reference. *)
Definition write_bidPlaced (auction : nat) (nowStr : string) (w : World) : World :=
  set_heap (<[auction := Auction.with_bidPlaced nowStr (heap w !!! auction)]> (heap w))
           (nextLoc w) w.

(** The objects [JSON.parse] creates for the auctions array. *)
Fixpoint alloc_auctions (auctions : list Auction.t) (w : World) : list nat * World :=
  match auctions with
  | [] => ([], w)
  | a :: rest =>
      let l := nextLoc w in
      let '(ls, w') := alloc_auctions rest (set_heap (<[l := a]> (heap w)) (S l) w) in
      (l :: ls, w')
  end.

(** ** Asynchronous functions *)

(** What the code awaits. A selector is written without the quotation
    marks around its attribute values: [button[type=submit]] stands for
    the source's selector with [submit] quoted. [Promise.all] of a click
    and [waitForNavigation] is one operation. *)
Inductive Action :=
| Launch (headless : bool)
| NewPage (browser : nat)
| SetDefaultNavigationTimeout (page : nat) (ms : Z)
| SetDefaultTimeout (page : nat) (ms : Z)
| Goto (page : nat) (url : string)
| WaitForSelector (page : nat) (selector : string) (timeout : Z)
| TypeText (page : nat) (selector text : string)
| Click (page : nat) (selector : string) (clickCount : nat)
| ClickAndWaitForNavigation (page : nat) (selector : string)
| Sleep (ms : Z)
| CloseBrowser (browser : nat)
| Completed.

(** [Completed] is the promise of an [async] call whose body has already
    run to its end: [await f()] still yields to the event loop once. *)

Inductive Outcome :=
| Resolved (v : nat)
| Rejected (err : string).

Inductive Prog :=
| Ret
| Throw (err : string)
| Get (k : World -> Prog)
| Put (w : World) (k : Prog)
| Await (a : Action) (k : Outcome -> Prog).

(** [p; q] *)
Fixpoint and_then (p q : Prog) : Prog :=
  match p with
  | Ret => q
  | Throw err => Throw err
  | Get k => Get (fun w => and_then (k w) q)
  | Put w k => Put w (and_then k q)
  | Await a k => Await a (fun o => and_then (k o) q)
  end.

(** [try { p } catch (err) { h err }] *)
Fixpoint try_catch (p : Prog) (h : string -> Prog) : Prog :=
  match p with
  | Ret => Ret
  | Throw err => h err
  | Get k => Get (fun w => try_catch (k w) h)
  | Put w k => Put w (try_catch k h)
  | Await a k => Await a (fun o => try_catch (k o) h)
  end.

Definition modify (f : World -> World) (k : Prog) : Prog :=
  Get (fun w => Put (f w) k).

Definition log (l : Log) (k : Prog) : Prog := modify (console_log l) k.

(** [await a]: a rejected promise throws at the await. *)
Definition await (a : Action) (k : nat -> Prog) : Prog :=
  Await a (fun o => match o with Resolved v => k v | Rejected err => Throw err end).

(** The rest of the caller after [await f(...)]. *)
Definition resume (k : Prog) : Prog := Await Completed (fun _ => k).

Notation "x <-- 'await!' a ;; k" := (await a (fun x => k))
  (at level 20, a at level 99, k at level 200, only parsing).
Notation "'await!' a ;; k" := (await a (fun _ => k))
  (at level 20, a at level 99, k at level 200, only parsing).
Notation "'log!' l ;; k" := (log l k)
  (at level 20, l at level 99, k at level 200, only parsing).
Notation "'get!' w ;; k" := (Get (fun w => k))
  (at level 20, w name, k at level 200, only parsing).

Definition HEADLESS_BIDDING : bool := false.

Section Bidding.
Context `{Builtins}.

(** The [try { ... } catch (err) { ... }] block of [ensureLoggedIn]. *)
Definition login_steps (username password : string) (page : nat) : Prog :=
  try_catch
    (log! LLoggingIn username ;;
     await! SetDefaultNavigationTimeout page 60000 ;;
     await! SetDefaultTimeout page 60000 ;;
     await! Goto page "https://www.civicsource.com/login/" ;;
     await! WaitForSelector page "input[name=username]" 20000 ;;
     await! TypeText page "input[name=username]" username ;;
     await! WaitForSelector page "input[name=password]" 20000 ;;
     await! TypeText page "input[name=password]" password ;;
     await! ClickAndWaitForNavigation page "button[type=submit]" ;;
     log! LLoginSuccessful username ;;
     get! w ;;
     match browserMap w !! username with
     | None => Throw "TypeError"
     | Some session =>
         Put (set_browserMap (insert username (logged_in session)) w) Ret
     end)
    (fun err => log! LLoginError username err ;; Ret).

Definition ensureLoggedIn (username password : string) (page : nat) : Prog :=
  get! w ;;
  match browserMap w !! username with
  | None => Throw "TypeError"
  | Some session =>
      if isLoggedIn session then
        log! LAlreadyLoggedIn username ;; Ret
      else login_steps username password page
  end.

(** The tail of [placeBid] after the second click: "Mark bidPlaced in JSON". *)
Definition mark_bidPlaced (auction : nat) (w : World) : World :=
  let '((credentials, auctions), w) := loadData w in
  let nowStr := toLocaleString (clock w) in
  let w := write_bidPlaced auction nowStr w in
  let auction_id := Auction.id (heap w !!! auction) in
  match list_find (fun a => Auction.id a = auction_id) auctions with
  | Some (idx, a) =>
      snd (saveData credentials (<[idx := Auction.with_bidPlaced nowStr a]> auctions) w)
  | None => w
  end.

Definition placeBid (auction page : nat) : Prog :=
  get! w ;;
  log! LPlaceBid (Auction.idAuction (heap w !!! auction)) ;;
  try_catch
    (await! SetDefaultTimeout page 60000 ;;
     await! SetDefaultNavigationTimeout page 60000 ;;
     get! w ;;
     let url := "https://www.civicsource.com/auctions/"
                  +:+ Auction.idAuction (heap w !!! auction) in
     await! Goto page url ;;
     get! w ;;
     let inputId := remove_slashes (toUpperCase (Auction.idAuction (heap w !!! auction)))
                      +:+ "-place-bid-input" in
     let placeBidSelector := "#" +:+ inputId in
     let newBid := or_zero (parseFloat (Auction.bidProxy (heap w !!! auction))) in
     log! LTyping (toFixed2 newBid) placeBidSelector ;;
     await! WaitForSelector page placeBidSelector 20000 ;;
     await! Click page placeBidSelector 3 ;;
     await! TypeText page placeBidSelector (toFixed2 newBid) ;;
     let firstBtnSel := "button[type=submit] span[title=Place Bid]" in
     await! WaitForSelector page firstBtnSel 15000 ;;
     await! Click page firstBtnSel 1 ;;
     log! LClickedFirst ;;
     await! Sleep 3000 ;;
     let secondBtnSel := "div.text-center button[type=submit]" in
     await! WaitForSelector page secondBtnSel 15000 ;;
     await! Click page secondBtnSel 1 ;;
     log! LClickedSecond ;;
     modify (mark_bidPlaced auction) Ret)
    (fun err => log! LPlaceBidError err ;; Ret).

(** [auction.timeToBid] is falsy. *)
Definition no_time (a : Auction.t) : bool := String.eqb (Auction.timeToBid a) "".

(** [targetTime - now]; [None] is NaN. *)
Definition time_diff (a : Auction.t) (now : Z) : option Z :=
  (fun targetTime => targetTime - now) <$> parseDate (Auction.timeToBid a).

(** [diff <= 0]; false for NaN. *)
Definition le0 (diff : option Z) : bool :=
  match diff with Some d => d <=? 0 | None => false end.

(** The [else] branch of the loop body: arm a timer and record it. *)
Definition schedule (auction page : nat) (username : string) (diff : option Z)
    (w : World) : World :=
  let w := console_log (LScheduling (Auction.idAuction (heap w !!! auction)) diff) w in
  let '(timeoutId, w) := setTimeout diff auction page w in
  push_bidTimeout
    (BidTimeout.mk timeoutId (Auction.id (heap w !!! auction)) username) w.

(** [for (const auction of auctionsToBid) { ... }] *)
Fixpoint bid_loop (page : nat) (username : string) (auctionsToBid : list nat) : Prog :=
  match auctionsToBid with
  | [] => Ret
  | auction :: rest =>
      get! w ;;
      let a := heap w !!! auction in
      if no_time a then
        log! LNoTime (Auction.idAuction a) ;; bid_loop page username rest
      else
        let diff := time_diff a (clock w) in
        if le0 diff then
          and_then (placeBid auction page) (resume (bid_loop page username rest))
        else
          modify (schedule auction page username diff) (bid_loop page username rest)
  end.

(** [a => parseFloat(a.bidProxy) > 0] on a reference. *)
Definition eligible (w : World) (auction : nat) : bool :=
  gt0 (parseFloat (Auction.bidProxy (heap w !!! auction))).

(** [handleUserBids] from [const { page } = browserMap[username]] on. *)
Definition bid_with_session (username password : string) (auctionsToBid : list nat) : Prog :=
  get! w ;;
  match browserMap w !! username with
  | None => Throw "TypeError"
  | Some session =>
      let page := page session in
      and_then (ensureLoggedIn username password page)
          (resume (bid_loop page username auctionsToBid))
  end.

Definition handleUserBids (cred : Cred.t) (userAuctions : list nat) : Prog :=
  get! w ;;
  let auctionsToBid := List.filter (eligible w) userAuctions in
  match auctionsToBid with
  | [] => log! LSkipping (Cred.username cred) ;; Ret
  | _ :: _ =>
      let username := Cred.username cred in
      let password := Cred.password cred in
      match browserMap w !! username with
      | None =>
          br <-- await! Launch HEADLESS_BIDDING ;;
          pg <-- await! NewPage br ;;
          modify (set_browserMap
                    (insert username {| browser := br; page := pg; isLoggedIn := false |}))
                 (bid_with_session username password auctionsToBid)
      | Some _ => bid_with_session username password auctionsToBid
      end
  end.

(** The timer callback [async () => { await placeBid(auction, page); }]. *)
Definition timer_callback (t : Timer) : Prog :=
  and_then (placeBid (cb_auction t) (cb_page t)) (resume Ret).

(** [close-all-windows]: close every browser, then empty [browserMap]. *)
Fixpoint close_loop (usernames : list string) : Prog :=
  match usernames with
  | [] => modify (set_browserMap (fun _ => ∅)) Ret
  | username :: rest =>
      get! w ;;
      match browserMap w !! username with
      | None => Throw "TypeError"
      | Some session => await! CloseBrowser (browser session) ;; close_loop rest
      end
  end.

Definition close_all_windows : Prog :=
  get! w ;; close_loop (fst <$> map_to_list (browserMap w)).

End Bidding.

(** ** The event loop *)

(** Run a task up to its next [await] (or to its end). *)
Fixpoint run_sync (p : Prog) (w : World) : World * Prog :=
  match p with
  | Get k => run_sync (k w) w
  | Put w' k => run_sync k w'
  | _ => (w, p)
  end.

(** The promise behind [Completed] and the settle delay never reject. *)
Definition valid_outcome (a : Action) (o : Outcome) : bool :=
  match a, o with
  | Completed, Rejected _ => false
  | Sleep _, Rejected _ => false
  | _, _ => true
  end.

(** Node's timers: a delay that is NaN, below 1 or above 2^31-1 counts as 1. *)
Definition effective_delay (d : option Z) : Z :=
  match d with
  | Some d => if (1 <=? d) && (d <=? 2147483647) then d else 1
  | None => 1
  end.

Definition due (t : Timer) : Z := armedAt t + effective_delay (delay t).

Inductive Handler :=
| FetchAuctionsData
| StopUpdate
| CloseAllWindows
| SaveAuctions (updatedAuctions : list Auction.t)
| SaveCredentials (updatedCreds : list Cred.t).

Inductive Event :=
| Invoke (h : Handler)
| Settle (task : nat) (o : Outcome)
| Fire (timeoutId : nat)
| Tick (ms : Z).

(** A [fetch-auctions-data] invocation: the promises it passed to
    [Promise.all], the array it will return, and how it ended. *)
Inductive Status :=
| Pending
| Returned (auctions : list Auction.t)
| Failed (err : string).

Record Call := { children : list nat; result : list nat; status : Status }.

Record Sys := {
  world : World;
  pool : list Prog;
  calls : list Call;
  history : list (nat * Action * Outcome);
}.

Definition set_world (w : World) (s : Sys) : Sys :=
  {| world := w; pool := pool s; calls := calls s; history := history s |}.

(** Calling an [async] function: its body runs up to the first [await]. *)
Definition spawn (p : Prog) (s : Sys) : nat * Sys :=
  let '(w, p') := run_sync p (world s) in
  (length (pool s),
   {| world := w; pool := pool s ++ [p']; calls := calls s; history := history s |}).

Definition thrown (p : Prog) : option string :=
  match p with Throw err => Some err | _ => None end.

Definition finished (p : Prog) : bool :=
  match p with Ret => true | _ => false end.

(** [await Promise.all(tasks); return auctions;] *)
Definition settle_call (s : Sys) (c : Call) : Call :=
  match status c with
  | Pending =>
      let ps := omap (fun i => pool s !! i) (children c) in
      match omap thrown ps with
      | err :: _ => {| children := children c; result := result c; status := Failed err |}
      | [] =>
          if forallb finished ps then
            {| children := children c; result := result c;
               status := Returned ((fun l => heap (world s) !!! l) <$> result c) |}
          else c
      end
  | _ => c
  end.

Definition settle_calls (s : Sys) : Sys :=
  {| world := world s; pool := pool s; calls := settle_call s <$> calls s;
     history := history s |}.

(** [auctionsByAccount] is a plain object: a key it does not hold itself
    is looked up in [Object.prototype]. These are the members found
    there; a function has a [length] (its number of parameters), the
    object under [__proto__] has none. *)
Definition inherited (key : string) : option (option nat) :=
  if String.eqb key "constructor" then Some (Some 1%nat)
  else if String.eqb key "hasOwnProperty" then Some (Some 1%nat)
  else if String.eqb key "isPrototypeOf" then Some (Some 1%nat)
  else if String.eqb key "propertyIsEnumerable" then Some (Some 1%nat)
  else if String.eqb key "toString" then Some (Some 0%nat)
  else if String.eqb key "toLocaleString" then Some (Some 0%nat)
  else if String.eqb key "valueOf" then Some (Some 0%nat)
  else if String.eqb key "__defineGetter__" then Some (Some 2%nat)
  else if String.eqb key "__defineSetter__" then Some (Some 2%nat)
  else if String.eqb key "__lookupGetter__" then Some (Some 1%nat)
  else if String.eqb key "__lookupSetter__" then Some (Some 1%nat)
  else if String.eqb key "__proto__" then Some None
  else None.

(** What [auctionsByAccount[key]] evaluates to. *)
Inductive Slot :=
| Own (userAuctions : list nat)
| Inherited (len : option nat).

Definition slot (auctionsByAccount : gmap string (list nat)) (key : string) : option Slot :=
  match auctionsByAccount !! key with
  | Some userAuctions => Some (Own userAuctions)
  | None => Inherited <$> inherited key
  end.

Definition push_error : string := "auctionsByAccount[auc.account].push is not a function".
Definition filter_error : string := "userAuctions.filter is not a function".

(** One turn of [for (const auc of auctions) { ... }]: an auction without
    an account is passed over; an inherited member is truthy and has no
    [push], so the loop throws ([None]). *)
Definition group_auction (w : World) (auctionsByAccount : option (gmap string (list nat)))
    (auc : nat) : option (gmap string (list nat)) :=
  match auctionsByAccount with
  | None => None
  | Some m =>
      let account := Auction.account (heap w !!! auc) in
      if String.eqb account "" then Some m
      else match slot m account with
           | None => Some (<[account := [auc]]> m)
           | Some (Own userAuctions) => Some (<[account := userAuctions ++ [auc]]> m)
           | Some (Inherited _) => None
           end
  end.

Definition group_by_account (w : World) (auctions : list nat) : option (gmap string (list nat)) :=
  foldl (group_auction w) (Some ∅) auctions.

Section Loop.
Context `{Builtins}.

(** [for (const cred of credentials) { ... tasks.push(handleUserBids(cred, userAuctions)); }]
    Called with an inherited function in place of the array,
    [handleUserBids] throws at [userAuctions.filter]. *)
Fixpoint push_tasks (auctionsByAccount : gmap string (list nat))
    (credentials : list Cred.t) (tasks : list nat) (s : Sys) : list nat * Sys :=
  match credentials with
  | [] => (tasks, s)
  | cred :: rest =>
      match slot auctionsByAccount (Cred.username cred) with
      | Some (Own ((_ :: _) as userAuctions)) =>
          let '(task, s) := spawn (handleUserBids cred userAuctions) s in
          push_tasks auctionsByAccount rest (tasks ++ [task]) s
      | Some (Inherited (Some (S _))) =>
          let '(task, s) := spawn (Throw filter_error) s in
          push_tasks auctionsByAccount rest (tasks ++ [task]) s
      | _ => push_tasks auctionsByAccount rest tasks s
      end
  end.

Definition fetch_auctions_data (s : Sys) : Sys :=
  let w := console_log (LIpc "fetch-auctions-data") (world s) in
  let w := clear_bidTimeouts w in
  let '((credentials, auctions), w) := loadData w in
  let '(locs, w) := alloc_auctions auctions w in
  match credentials, auctions with
  | _ :: _, _ :: _ =>
      match group_by_account w locs with
      | Some auctionsByAccount =>
          let '(tasks, s) := push_tasks auctionsByAccount credentials [] (set_world w s) in
          {| world := world s; pool := pool s;
             calls := calls s ++ [{| children := tasks; result := locs; status := Pending |}];
             history := history s |}
      | None =>
          {| world := w; pool := pool s;
             calls := calls s ++ [{| children := []; result := locs;
                                     status := Failed push_error |}];
             history := history s |}
      end
  | _, _ =>
      let w := console_log LNoCredsOrAuctions w in
      {| world := w; pool := pool s;
         calls := calls s ++ [{| children := []; result := locs; status := Pending |}];
         history := history s |}
  end.

Definition stop_update (s : Sys) : Sys :=
  set_world (clear_bidTimeouts (world s)) s.

Definition save_auctions (updatedAuctions : list Auction.t) (s : Sys) : Sys :=
  let w := console_log (LIpc "save-auctions") (world s) in
  let '((credentials, _), w) := loadData w in
  set_world (snd (saveData credentials updatedAuctions w)) s.

Definition save_credentials (updatedCreds : list Cred.t) (s : Sys) : Sys :=
  let w := console_log (LIpc "save-credentials") (world s) in
  let '((_, auctions), w) := loadData w in
  set_world (snd (saveData updatedCreds auctions w)) s.

Definition invoke (h : Handler) (s : Sys) : Sys :=
  match h with
  | FetchAuctionsData => fetch_auctions_data s
  | StopUpdate => stop_update s
  | CloseAllWindows => snd (spawn close_all_windows s)
  | SaveAuctions updatedAuctions => save_auctions updatedAuctions s
  | SaveCredentials updatedCreds => save_credentials updatedCreds s
  end.

Definition step (e : Event) (s : Sys) : option Sys :=
  match e with
  | Invoke h => Some (settle_calls (invoke h s))
  | Settle task o =>
      match pool s !! task with
      | Some (Await a k) =>
          if valid_outcome a o then
            let '(w, p) := run_sync (k o) (world s) in
            Some (settle_calls
                    {| world := w; pool := <[task := p]> (pool s); calls := calls s;
                       history := history s ++ [(task, a, o)] |})
          else None
      | _ => None
      end
  | Fire timeoutId =>
      match timers (world s) !! timeoutId with
      | Some t =>
          if due t <=? clock (world s) then
            let w := clearTimeout timeoutId (world s) in
            Some (settle_calls (snd (spawn (timer_callback t) (set_world w s))))
          else None
      | None => None
      end
  | Tick ms =>
      if 0 <=? ms then Some (set_world (set_clock (clock (world s) + ms) (world s)) s)
      else None
  end.

Fixpoint run (es : list Event) (s : Sys) : option Sys :=
  match es with
  | [] => Some s
  | e :: rest =>
      match step e s with
      | Some s' => run rest s'
      | None => None
      end
  end.

End Loop.

(** The process at start-up: no session, no timer, nothing allocated. *)
Definition boot (d : Disk) (now : Z) : Sys :=
  {| world := {| browserMap := ∅; bidTimeouts := []; timers := ∅; nextTimeoutId := 0;
                 heap := ∅; nextLoc := 0; disk := d; clock := now; console := [] |};
     pool := []; calls := []; history := [] |}.

(** ** Sample inputs *)

(** The built-ins on the few strings and numbers the examples use. *)
Definition sample_parseFloat (s : string) : float :=
  if String.eqb s "5" then 5%float
  else if String.eqb s "0" then 0%float
  else PrimFloat.nan.

Definition sample_parseDate (s : string) : option Z :=
  if String.eqb s "2030-01-01T10:00:01Z" then Some 1893492001000
  else if String.eqb s "2030-01-01T10:00:05Z" then Some 1893492005000
  else if String.eqb s "2030-01-01T09:00:00Z" then Some 1893488400000
  else if String.eqb s "2030-02-01T10:00:00Z" then Some 1896170400000
  else None.

Definition sample_js : Builtins := {|
  parseFloat := sample_parseFloat;
  toFixed2 := fun x => if gt0 x then "5.00" else "0.00";
  parseDate := sample_parseDate;
  toLocaleString := fun t =>
    if t =? 1893492005000 then "1/1/2030, 10:00:05 AM" else "1/1/2030, 10:00:00 AM";
|}.

(** ** One task under an arbitrary environment *)

(** [feed sched p w] runs the task [p] from [w]; each entry of [sched]
    settles the operation the task is waiting for and gives the state
    the rest of the process has left behind by then. *)
Fixpoint feed (sched : list (Outcome * World)) (p : Prog) (w : World) : World * Prog :=
  match sched with
  | [] => run_sync p w
  | (o, w') :: rest =>
      match run_sync p w with
      | (_, Await a k) => feed rest (k o) w'
      | r => r
      end
  end.

(** The operations a task has awaited along a schedule, in order. *)
Fixpoint awaited (sched : list (Outcome * World)) (p : Prog) (w : World) : list Action :=
  match run_sync p w with
  | (_, Await a k) =>
      a :: match sched with
           | [] => []
           | (o, w') :: rest => awaited rest (k o) w'
           end
  | _ => []
  end.

(** Three auctions of account alice at 2030-01-01T10:00:00Z: one without
    a time, one an hour overdue, one due in five seconds. *)
Definition sample_world : World :=
  {| browserMap := {[ "alice" := {| browser := 7; page := 8; isLoggedIn := true |} ]};
     bidTimeouts := []; timers := ∅; nextTimeoutId := 0;
     heap := list_to_map
       [(0%nat, Auction.mk 1 "" "stg/0001" "5" "1 Main St" "alice" "");
        (1%nat, Auction.mk 2 "2030-01-01T09:00:00Z" "stg/0002" "5" "2 Main St" "alice" "");
        (2%nat, Auction.mk 3 "2030-01-01T10:00:05Z" "stg/0003" "5" "3 Main St" "alice" "")];
     nextLoc := 3;
     disk := {| content := Json [Cred.mk 1 "alice" "pw"]
                  [Auction.mk 1 "" "stg/0001" "5" "1 Main St" "alice" "";
                   Auction.mk 2 "2030-01-01T09:00:00Z" "stg/0002" "5" "2 Main St" "alice" "";
                   Auction.mk 3 "2030-01-01T10:00:05Z" "stg/0003" "5" "3 Main St" "alice" ""];
                writable := true |};
     clock := 1893492000000; console := [] |}.

(** [w'] is [w] with more lines on the console and nothing else changed. *)
Definition logs_only (w w' : World) : Prop :=
  exists ls : list Log, w' = foldl (fun w l => console_log l w) w ls.

(** The state the environment handed over last. *)
Definition last_world (sched : list (Outcome * World)) (w0 : World) : World :=
  default w0 (last (snd <$> sched)).

Definition resolved (o : Outcome) : Prop := exists v, o = Resolved v.


(** ** Sample runs *)

(** 2030-01-01T10:00:00Z in milliseconds. *)
Definition ten_o_clock : Z := 1893492000000.

(** One account with two auctions, the first due in five seconds, the
    second in one. *)
Definition sample_disk : Disk :=
  {| content := Json [Cred.mk 1 "alice" "pw"]
       [Auction.mk 1 "2030-01-01T10:00:05Z" "stg/1234" "5" "1 Main St" "alice" "";
        Auction.mk 2 "2030-01-01T10:00:01Z" "stg/5678" "5" "2 Main St" "alice" ""];
     writable := true |}.

(** The same username entered twice, and one auction due in five seconds. *)
Definition twin_disk : Disk :=
  {| content := Json [Cred.mk 1 "alice" "pw"; Cred.mk 2 "alice" "pw"]
       [Auction.mk 1 "2030-01-01T10:00:05Z" "stg/1234" "5" "1 Main St" "alice" ""];
     writable := true |}.

(** One account and one auction due in five seconds. *)
Definition single_disk : Disk :=
  {| content := Json [Cred.mk 1 "alice" "pw"]
       [Auction.mk 1 "2030-01-01T10:00:05Z" "stg/1234" "5" "1 Main St" "alice" ""];
     writable := true |}.


(** A credential named like a function of [Object.prototype], and an
    auction of another account. *)
Definition constructor_disk : Disk :=
  {| content := Json [Cred.mk 1 "constructor" "pw"]
       [Auction.mk 1 "2030-01-01T10:00:05Z" "stg/1234" "5" "1 Main St" "alice" ""];
     writable := true |}.

(** An auction whose account is named like a member of [Object.prototype]. *)
Definition toString_disk : Disk :=
  {| content := Json [Cred.mk 1 "alice" "pw"]
       [Auction.mk 1 "2030-01-01T10:00:05Z" "stg/1234" "5" "1 Main St" "toString" ""];
     writable := true |}.

(** A task opens browser [br] and page [pg], logs in and gets to its loop. *)
Definition opens_and_logs_in (task br pg : nat) : list Event :=
  [Settle task (Resolved br); Settle task (Resolved pg)]
  ++ replicate 9 (Settle task (Resolved 0)).

(** A scheduling call whose only task arms its timers. *)
Definition schedule_once : list Event :=
  Invoke FetchAuctionsData :: opens_and_logs_in 0 7 8.

(** The state a run ends in ([s] itself if the run is refused). *)
Definition state_after `{Builtins} (es : list Event) (s : Sys) : Sys :=
  default s (run es s).

(** ** What a task may do, whatever the environment does *)

(** A synchronous write that leaves the timers, the allocation of
    auction objects and every [bidProxy] alone. *)
Definition keeps (w w' : World) : Prop :=
  timers w' = timers w
  /\ bidTimeouts w' = bidTimeouts w
  /\ nextTimeoutId w' = nextTimeoutId w
  /\ nextLoc w' = nextLoc w
  /\ forall l, Auction.bidProxy (heap w' !!! l) = Auction.bidProxy (heap w !!! l).

(** The same record, whatever is written in [bidPlaced]. *)
Definition same_auction (a a' : Auction.t) : Prop :=
  Auction.with_bidPlaced "" a' = Auction.with_bidPlaced "" a.

(** A synchronous write during which no time passes and which changes
    nothing of an auction object but [bidPlaced]. *)
Definition steady (w w' : World) : Prop :=
  clock w' = clock w
  /\ forall l, same_auction (heap w !!! l) (heap w' !!! l).

(** A synchronous write that arms one bid timer for [auction] under the
    next free id and records it in [bidTimeouts]. *)
Definition arms (auction : nat) (w w' : World) : Prop :=
  exists t entry,
    cb_auction t = auction
    /\ BidTimeout.timeoutId entry = nextTimeoutId w
    /\ timers w' = <[nextTimeoutId w := t]> (timers w)
    /\ bidTimeouts w' = bidTimeouts w ++ [entry]
    /\ nextTimeoutId w' = S (nextTimeoutId w)
    /\ nextLoc w' = nextLoc w
    /\ heap w' = heap w.

(** Opening the session is the one awaited operation outside any [try]. *)
Definition open_failed (a : Action) (o : Outcome) : bool :=
  match a, o with
  | Launch _, Rejected _ => true
  | NewPage _, Rejected _ => true
  | _, _ => false
  end.

Section Logic.
Context `{Builtins}.

(** The loop passes over [l] without arming a timer: it has no time, or
    its time has come. *)
Definition not_armable (w : World) (l : nat) : Prop :=
  no_time (heap w !!! l) = true
  \/ le0 (time_diff (heap w !!! l) (clock w)) = true.

(** The timer armed by the write from [w] to [w'] waits for the time left
    until the auction's [timeToBid]. *)
Definition timed (auction : nat) (w w' : World) : Prop :=
  clock w' = clock w
  /\ no_time (heap w !!! auction) = false
  /\ exists t, timers w' !! nextTimeoutId w = Some t
               /\ armedAt t = clock w
               /\ delay t = time_diff (heap w !!! auction) (clock w)
               /\ le0 (delay t) = false.

(** [wp p Q E w budget failed]: running [p] from [w], with any valid
    outcome at each await and any state handed back there in which the
    auctions of [budget] still have a positive bid, every write either
    [keeps] the timers, and takes from the front of [budget] only
    auctions it passes over, or [arms] the next auction of [budget]
    after such auctions; [Q] holds when [p] returns, [E] when it throws.
    [failed] records whether opening the session was rejected. *)
Fixpoint wp (p : Prog)
    (Q : World -> list nat -> bool -> Prop)
    (E : string -> World -> list nat -> bool -> Prop)
    (w : World) (budget : list nat) (failed : bool) : Prop :=
  match p with
  | Ret => Q w budget failed
  | Throw err => E err w budget failed
  | Get k => wp (k w) Q E w budget failed
  | Put w' k =>
      (exists dropped rest,
         budget = dropped ++ rest
         /\ Forall (not_armable w) dropped
         /\ keeps w w' /\ steady w w'
         /\ wp k Q E w' rest failed)
      \/ (exists skipped auction rest,
            budget = skipped ++ auction :: rest
            /\ Forall (not_armable w) skipped
            /\ eligible w auction = true
            /\ arms auction w w' /\ timed auction w w'
            /\ wp k Q E w' rest failed)
  | Await a k =>
      forall o w',
        valid_outcome a o = true ->
        Forall (fun l => eligible w' l = true) budget ->
        wp (k o) Q E w' budget (failed || open_failed a o)
  end.

(** A task returns only with nothing left in its budget, and may throw
    only after a session failed to open. *)
Definition task_ok (p : Prog) (w : World) (budget : list nat) (failed : bool) : Prop :=
  wp p (fun _ budget _ => budget = []) (fun _ _ _ failed => failed = true) w budget failed.

(** The effect of one synchronous segment on the state and the budget. *)
Inductive segment : World -> list nat -> World -> list nat -> Prop :=
| segment_done w budget : segment w budget w budget
| segment_keeps w w1 w' dropped rest budget' :
    Forall (not_armable w) dropped ->
    keeps w w1 -> steady w w1 ->
    segment w1 rest w' budget' ->
    segment w (dropped ++ rest) w' budget'
| segment_arms w w1 w' skipped auction rest budget' :
    Forall (not_armable w) skipped ->
    eligible w auction = true ->
    arms auction w w1 -> timed auction w w1 ->
    segment w1 rest w' budget' ->
    segment w (skipped ++ auction :: rest) w' budget'.

(** What is known of a task while it sits in the pool. *)
Record Ghost := { budget : list nat; failed : bool }.

Definition pooled (p : Prog) (g : Ghost) : Prop :=
  forall w, Forall (fun l => eligible w l = true) (budget g) ->
            task_ok p w (budget g) (failed g).

End Logic.

(** ** Invariants of the process *)

(** A task in the pool is at an [await] or has ended. *)
Definition suspended (p : Prog) : Prop :=
  match p with Get _ | Put _ _ => False | _ => True end.

Definition ended (p : Prog) : Prop :=
  match p with Ret | Throw _ => True | _ => False end.

(** Every live timer is listed in [bidTimeouts] under an id already handed out. *)
Definition timers_recorded (w : World) : Prop :=
  forall id t,
    timers w !! id = Some t ->
    id ∈ (BidTimeout.timeoutId <$> bidTimeouts w) /\ (id < nextTimeoutId w)%nat.

(** How the state may change from one moment to a later one. *)
Definition evolves (w w' : World) : Prop :=
  (nextTimeoutId w <= nextTimeoutId w')%nat
  /\ (nextLoc w <= nextLoc w')%nat
  /\ (forall id t, timers w' !! id = Some t ->
                   timers w !! id = Some t \/ (nextTimeoutId w <= id)%nat)
  /\ (forall l, (l < nextLoc w)%nat ->
                Auction.bidProxy (heap w' !!! l) = Auction.bidProxy (heap w !!! l)).

(** No auction object has two live timers. *)
Definition one_timer_per_auction (w : World) : Prop :=
  forall id1 id2 t1 t2,
    timers w !! id1 = Some t1 -> timers w !! id2 = Some t2 ->
    cb_auction t1 = cb_auction t2 -> id1 = id2.

(** The budgets are duplicate-free, pairwise disjoint and disjoint from
    the auctions that have a live timer. *)
Definition budgets_apart (w : World) (bs : list (list nat)) : Prop :=
  (forall i b, bs !! i = Some b -> NoDup b)
  /\ (forall i j b1 b2 l, bs !! i = Some b1 -> bs !! j = Some b2 ->
                          l ∈ b1 -> l ∈ b2 -> i = j)
  /\ (forall id t i b, timers w !! id = Some t -> bs !! i = Some b -> cb_auction t ∉ b).

(** Timers and budgets refer to auction objects that satisfy [P] only,
    and timer ids start at [n]. *)
Definition within (n : nat) (P : nat -> Prop) (w : World) (bs : list (list nat)) : Prop :=
  (forall id t, timers w !! id = Some t -> (n <= id)%nat /\ P (cb_auction t))
  /\ (forall i b l, bs !! i = Some b -> l ∈ b -> P l).

(** A key that [Object.prototype] does not hold. *)
Definition plain (key : string) : bool :=
  match inherited key with None => true | Some _ => false end.

(** One turn of the grouping loop when the key is plain. *)
Definition add_to_group (w : World) (m : gmap string (list nat)) (auc : nat) :
    gmap string (list nat) :=
  let account := Auction.account (heap w !!! auc) in
  if String.eqb account "" then m
  else <[account := default [] (m !! account) ++ [auc]]> m.

(** [userAuctions && userAuctions.length] for a credential. *)
Definition starts (auctionsByAccount : gmap string (list nat)) (cred : Cred.t) : bool :=
  match slot auctionsByAccount (Cred.username cred) with
  | Some (Own (_ :: _)) => true
  | Some (Inherited (Some (S _))) => true
  | _ => false
  end.

(** Every earlier scheduling call is over: its tasks have all ended. *)
Definition idle (s : Sys) : Prop :=
  forall c i, c ∈ calls s -> i ∈ children c ->
              exists p, pool s !! i = Some p /\ ended p.

Section Invariant.
Context `{Builtins}.

(** The part of the invariant that holds at every point of a handler. *)
Record core (s : Sys) (gs : list Ghost) : Prop := {
  core_pool : Forall2 (fun p g => suspended p /\ pooled p g) (pool s) gs;
  core_recorded : timers_recorded (world s);
  core_timers : forall id t,
      timers (world s) !! id = Some t ->
      eligible (world s) (cb_auction t) = true /\ (cb_auction t < nextLoc (world s))%nat;
  core_budgets : forall i g l,
      gs !! i = Some g -> l ∈ budget g ->
      eligible (world s) l = true /\ (l < nextLoc (world s))%nat;
  core_children : forall c i,
      c ∈ calls s -> i ∈ children c ->
      exists g, gs !! i = Some g
                /\ (failed g = true ->
                    (pool s !! i = Some (Throw filter_error)
                     /\ forall a o, (i, a, o) ∉ history s)
                    \/ exists a err, (i, a, Rejected err) ∈ history s
                                     /\ open_failed a (Rejected err) = true);
  core_failed : forall c err,
      c ∈ calls s -> status c = Failed err ->
      (children c = [] /\ err = push_error)
      \/ exists i g, i ∈ children c /\ gs !! i = Some g /\ failed g = true;
  core_returned : forall c auctions,
      c ∈ calls s -> status c = Returned auctions ->
      length auctions = length (result c)
      /\ forall i, i ∈ children c -> pool s !! i = Some Ret;
  core_history : forall i a o,
      (i, a, o) ∈ history s -> (i < length (pool s))%nat;
}.

(** What is known of the task started for [cred] when it is started. *)
Definition started_with (m : gmap string (list nat)) (w : World) (cred : Cred.t)
    (g : Ghost) : Prop :=
  match slot m (Cred.username cred) with
  | Some (Own userAuctions) =>
      failed g = false
      /\ (forall l, l ∈ budget g -> l ∈ userAuctions /\ eligible w l = true)
      /\ (NoDup userAuctions -> NoDup (budget g))
      /\ (forall l, l ∈ userAuctions -> eligible w l = true ->
                    l ∈ budget g \/ not_armable w l)
  | _ => failed g = true /\ budget g = []
  end.

(** What a scheduling call leaves behind when it reaches
    [await Promise.all(tasks)], or throws before: [new] are the tasks it
    has started. *)
Record scheduled (s s' : Sys) (gs new : list Ghost) : Prop := {
  sch_bidTimeouts : bidTimeouts (world s') = [];
  sch_clock : clock (world s') = clock (world s);
  sch_heap : forall l, (l < nextLoc (world s))%nat ->
      same_auction (heap (world s) !!! l) (heap (world s') !!! l);
  sch_nextLoc :
      nextLoc (world s') = (nextLoc (world s) + length (loadData (world s)).1.2)%nat;
  sch_loaded : forall k a,
      (loadData (world s)).1.2 !! k = Some a ->
      same_auction a (heap (world s') !!! (nextLoc (world s) + k)%nat);
  sch_length : length (calls s') = S (length (calls s));
  sch_call : exists c,
      calls s' !! length (calls s) = Some c
      /\ children c = seq (length gs) (length new)
      /\ result c = seq (nextLoc (world s)) (length (loadData (world s)).1.2);
  sch_grouping : forall c err,
      calls s' !! length (calls s) = Some c ->
      children c = [] -> status c = Failed err ->
      exists a, a ∈ (loadData (world s)).1.2 /\ plain (Auction.account a) = false;
  sch_prototype :
      (loadData (world s)).1.1 <> [] ->
      (exists a, a ∈ (loadData (world s)).1.2 /\ plain (Auction.account a) = false) ->
      exists c, calls s' !! length (calls s) = Some c /\ status c = Failed push_error;
  sch_returned : forall c auctions,
      calls s' !! length (calls s) = Some c ->
      status c = Returned auctions ->
      auctions = (fun l => heap (world s') !!! l) <$> result c;
  sch_thrown : forall j g,
      new !! j = Some g -> failed g = true ->
      exists cred n, cred ∈ (loadData (world s)).1.1
                     /\ inherited (Cred.username cred) = Some (Some (S n));
  sch_served : forall j g l,
      new !! j = Some g -> l ∈ budget g ->
      exists cred, cred ∈ (loadData (world s)).1.1
                   /\ Cred.username cred = Auction.account (heap (world s') !!! l);
  sch_covered : forall l cred,
      (nextLoc (world s) <= l < nextLoc (world s'))%nat ->
      eligible (world s') l = true ->
      cred ∈ (loadData (world s)).1.1 ->
      Cred.username cred = Auction.account (heap (world s') !!! l) ->
      Auction.account (heap (world s') !!! l) <> EmptyString ->
      (exists j g, new !! j = Some g /\ l ∈ budget g)
      \/ not_armable (world s') l
      \/ (exists c, calls s' !! length (calls s) = Some c
                    /\ status c = Failed push_error);
}.

(** Only the tasks of a scheduling call have auctions left to arm. *)
Definition budgets_owned (s : Sys) (gs : list Ghost) : Prop :=
  forall i g, gs !! i = Some g -> budget g <> [] ->
              exists c, c ∈ calls s /\ i ∈ children c.

(** A pending call has a task at an await. *)
Definition pending_waits (s : Sys) : Prop :=
  forall c, c ∈ calls s -> status c = Pending ->
            exists i a k, i ∈ children c /\ pool s !! i = Some (Await a k).

Definition inv (s : Sys) (gs : list Ghost) : Prop :=
  core s gs /\ budgets_owned s gs /\ pending_waits s.

(** What every event other than a scheduling call preserves. *)
Definition stable (s s' : Sys) (gs gs' : list Ghost) : Prop :=
  (budgets_apart (world s) (budget <$> gs) -> one_timer_per_auction (world s) ->
   budgets_apart (world s') (budget <$> gs') /\ one_timer_per_auction (world s'))
  /\ (forall n P,
        within n P (world s) (budget <$> gs) -> (n <= nextTimeoutId (world s))%nat ->
        within n P (world s') (budget <$> gs')
        /\ (n <= nextTimeoutId (world s'))%nat).

(** The same ghost with nothing left to arm. *)
Definition quiet (g : Ghost) : Ghost := {| budget := []; failed := failed g |}.

(** What one event does to the state and to what is known of the tasks. *)
Definition moves (e : Event) (s s' : Sys) (gs gs' : list Ghost) : Prop :=
  match e with
  | Invoke FetchAuctionsData =>
      exists new, gs' = gs ++ new
                  /\ scheduled s s' gs new
                  /\ timers (world s') = ∅
  | Invoke StopUpdate =>
      world s' = clear_bidTimeouts (world s) /\ gs' = gs
  | Invoke CloseAllWindows =>
      gs' = gs ++ [{| budget := []; failed := true |}]
      /\ segment (world s) [] (world s') []
  | Invoke (SaveAuctions _) | Invoke (SaveCredentials _) =>
      keeps (world s) (world s') /\ steady (world s) (world s') /\ gs' = gs
  | Settle task o =>
      exists g b' f,
        gs !! task = Some g
        /\ gs' = <[task := {| budget := b'; failed := f |}]> gs
        /\ segment (world s) (budget g) (world s') b'
  | Fire timeoutId =>
      exists t,
        timers (world s) !! timeoutId = Some t
        /\ due t <= clock (world s)
        /\ gs' = gs ++ [{| budget := []; failed := false |}]
        /\ segment (clearTimeout timeoutId (world s)) [] (world s') []
  | Tick ms =>
      0 <= ms /\ world s' = set_clock (clock (world s) + ms) (world s) /\ gs' = gs
  end.

(** Time does not run backwards, and an auction object, once loaded,
    changes in [bidPlaced] only. *)
Definition lasting (w w' : World) : Prop :=
  clock w <= clock w'
  /\ (nextLoc w <= nextLoc w')%nat
  /\ forall l, (l < nextLoc w)%nat -> same_auction (heap w !!! l) (heap w' !!! l).

(** Every live timer was armed in the past, for an auction that has a
    time, and waits for the time that was left then. *)
Definition timers_timed (w : World) : Prop :=
  forall id t,
    timers w !! id = Some t ->
    armedAt t <= clock w
    /\ no_time (heap w !!! cb_auction t) = false
    /\ delay t = time_diff (heap w !!! cb_auction t) (armedAt t)
    /\ le0 (delay t) = false.

(** The deadline of [l] is known and still ahead, and a timer armed for
    it at [c0] or later waits no longer than the runtime allows. *)
Definition punctual (c0 : Z) (w : World) (l : nat) : Prop :=
  no_time (heap w !!! l) = false
  /\ exists deadline,
       parseDate (Auction.timeToBid (heap w !!! l)) = Some deadline
       /\ clock w < deadline
       /\ deadline - c0 <= 2147483647.

(** Since [c0], no auction of [L] whose deadline is still ahead got
    lost: a task of [kids] still has it to arm, or it has a live timer. *)
Definition complete (c0 : Z) (L : nat -> Prop) (kids : list nat) (w : World)
    (gs : list Ghost) : Prop :=
  c0 <= clock w
  /\ (forall id t, timers w !! id = Some t -> c0 <= armedAt t)
  /\ forall l, L l -> punctual c0 w l ->
       (exists i g, i ∈ kids /\ gs !! i = Some g /\ l ∈ budget g)
       \/ (exists id t, timers w !! id = Some t /\ cb_auction t = l).

(** The array of every call holds auction objects that exist, and what
    a call has returned is what these objects held then. *)
Definition results_ok (s : Sys) : Prop :=
  forall c,
    c ∈ calls s ->
    (forall l, l ∈ result c -> (l < nextLoc (world s))%nat)
    /\ forall auctions,
         status c = Returned auctions ->
         Forall2 (fun l a => same_auction a (heap (world s) !!! l)) (result c) auctions.

(** What a run establishes, beside the invariant. *)
Record tracks (es : list Event) (s s' : Sys) (gs gs' : list Ghost) : Prop := {
  tr_evolves : evolves (world s) (world s');
  tr_lasting : lasting (world s) (world s');
  tr_timed : timers_timed (world s) -> timers_timed (world s');
  tr_stable : Invoke FetchAuctionsData ∉ es -> stable s s' gs gs';
  tr_results : results_ok s -> results_ok s';
  tr_complete : forall c0 L kids,
      Invoke FetchAuctionsData ∉ es ->
      (Invoke StopUpdate ∈ es -> forall l, ~ L l) ->
      timers_timed (world s) ->
      complete c0 L kids (world s) gs -> complete c0 L kids (world s') gs';
}.

End Invariant.

(** A call keeps its tasks, its array and, once it is over, its outcome. *)
Definition calls_kept (s s' : Sys) : Prop :=
  (length (calls s) <= length (calls s'))%nat
  /\ forall i c,
       calls s !! i = Some c ->
       exists c', calls s' !! i = Some c'
                  /\ children c' = children c /\ result c' = result c
                  /\ (status c <> Pending -> status c' = status c).

(** A task that has not moved has settled nothing since. *)
Definition pool_kept (s s' : Sys) : Prop :=
  (forall x, x ∈ history s -> x ∈ history s')
  /\ forall i p,
       pool s !! i = Some p ->
       pool s' !! i = Some p \/ exists a o, (i, a, o) ∈ history s'.

(** ** Bids one at a time *)

(** The operation a task is waiting for, if any. *)
Definition waiting_on (p : Prog) : option Action :=
  match p with Await a _ => Some a | _ => None end.

Definition bid_started (l : Log) : option string :=
  match l with LPlaceBid idAuction => Some idAuction | _ => None end.

(** The operations of one [placeBid] call, for an auction with the given
    [idAuction] and [bidProxy]. *)
Definition bid_steps `{Builtins} (page : nat) (idAuction bidProxy : string) : list Action :=
  let placeBidSelector :=
    "#" +:+ (remove_slashes (toUpperCase idAuction) +:+ "-place-bid-input") in
  let amount := toFixed2 (or_zero (parseFloat bidProxy)) in
  [ SetDefaultTimeout page 60000;
    SetDefaultNavigationTimeout page 60000;
    Goto page ("https://www.civicsource.com/auctions/" +:+ idAuction);
    WaitForSelector page placeBidSelector 20000;
    Click page placeBidSelector 3;
    TypeText page placeBidSelector amount;
    WaitForSelector page "button[type=submit] span[title=Place Bid]" 15000;
    Click page "button[type=submit] span[title=Place Bid]" 1;
    Sleep 3000;
    WaitForSelector page "div.text-center button[type=submit]" 15000;
    Click page "div.text-center button[type=submit]" 1 ].

(** A sequence of awaited operations in which the auctions of a list are
    bid on in the order of the list and one at a time: for each auction
    bid on, the first operations of its [placeBid] call (all of them,
    or up to the one that failed) and then the completion of that call,
    before anything of a later auction; the sequence may stop anywhere. *)
Inductive one_at_a_time (steps : nat -> list Action) : list nat -> list Action -> Prop :=
| oat_stop (ls : list nat) : one_at_a_time steps ls []
| oat_skip (l : nat) (ls : list nat) (acts : list Action) :
    one_at_a_time steps ls acts -> one_at_a_time steps (l :: ls) acts
| oat_inside (l : nat) (ls : list nat) (n : nat) :
    one_at_a_time steps (l :: ls) (take n (steps l))
| oat_bid (l : nat) (ls : list nat) (n : nat) (acts : list Action) :
    (1 <= n)%nat ->
    one_at_a_time steps ls acts ->
    one_at_a_time steps (l :: ls) (take n (steps l) ++ Completed :: acts).

(** In [w] the auction objects carry the given [idAuction] and [bidProxy]. *)
Definition agrees (ids bids : nat -> string) (w : World) : Prop :=
  forall l, Auction.idAuction (heap w !!! l) = ids l
            /\ Auction.bidProxy (heap w !!! l) = bids l.

(** ** The rest of main.js: helpers, the store handlers, the CSV import *)

(** *** Strings

    A [string] is a sequence of bytes; on text made of ASCII characters
    the functions below are JavaScript's [toLowerCase], [trim],
    [startsWith], [substring] and [length]. *)

Definition ascii_only (s : string) : Prop :=
  Forall (fun c => (Ascii.nat_of_ascii c < 128)%nat) (String.list_ascii_of_string s).

Definition lower_ascii (c : Ascii.ascii) : Ascii.ascii :=
  let n := Ascii.nat_of_ascii c in
  if (Nat.leb 65 n && Nat.leb n 90)%bool then Ascii.ascii_of_nat (n + 32) else c.

Fixpoint toLowerCase (s : string) : string :=
  match s with
  | EmptyString => EmptyString
  | String c r => String (lower_ascii c) (toLowerCase r)
  end.

(** White space and line terminators below 128: TAB, LF, VT, FF, CR, SP. *)
Definition is_space (c : Ascii.ascii) : bool :=
  let n := Ascii.nat_of_ascii c in
  (Nat.leb 9 n && Nat.leb n 13)%bool || Nat.eqb n 32.

Fixpoint trimStart (s : string) : string :=
  match s with
  | EmptyString => EmptyString
  | String c r => if is_space c then trimStart r else s
  end.

Fixpoint trimEnd (s : string) : string :=
  match s with
  | EmptyString => EmptyString
  | String c r =>
      match trimEnd r with
      | EmptyString => if is_space c then EmptyString else String c EmptyString
      | r' => String c r'
      end
  end.

Definition trim (s : string) : string := trimEnd (trimStart s).

(** [s.substring(0, n)] and [s.substring(n)]. *)
Fixpoint take_str (n : nat) (s : string) : string :=
  match n, s with
  | S n', String c r => String c (take_str n' r)
  | _, _ => EmptyString
  end.

Fixpoint drop_str (n : nat) (s : string) : string :=
  match n, s with
  | S n', String _ r => drop_str n' r
  | _, _ => s
  end.

Fixpoint startsWith (s prefix : string) {struct prefix} : bool :=
  match prefix, s with
  | EmptyString, _ => true
  | String p ps, String c r => Ascii.eqb c p && startsWith r ps
  | String _ _, EmptyString => false
  end.

Definition civicsource : string := "https://www.civicsource.com/".

(** [convertCivicSourceUrlToIdAuction(fullUrl)]. The URL starts with the
    site's address, so [replace] removes it from the front. *)
Definition convertCivicSourceUrlToIdAuction (fullUrl : string) : string :=
  if negb (startsWith fullUrl civicsource) then ""
  else
    let remainder := trim (drop_str (String.length civicsource) fullUrl) in
    if Nat.ltb (String.length remainder) 4 then toLowerCase remainder
    else
      let prefix := toLowerCase (take_str 3 remainder) in
      let suffix := drop_str 3 remainder in
      prefix +:+ ("/" +:+ suffix).

(** The id of the bid input on the auction page, as [placeBid] computes it. *)
Definition inputId (idAuction : string) : string :=
  remove_slashes (toUpperCase idAuction) +:+ "-place-bid-input".

(** *** The CSV import of [extract-properties] *)

(** A record of the parsed CSV: one string per column name. *)
Definition Row := gmap string string.

(** [val.startsWith('=') ? val.slice(1) : val] *)
Definition strip_formula (val : string) : string :=
  match val with
  | String c r => if Ascii.eqb c (Ascii.ascii_of_nat 61) then r else val
  | EmptyString => val
  end.

Definition clean_row (row : Row) : Row := strip_formula <$> row.

(** [row[key] || ''] *)
Definition field (row : Row) (key : string) : string := default "" (row !! key).

(** [auctions.reduce((acc, a) => Math.max(acc, a.id || 0), 0)] *)
Definition max_id (auctions : list Auction.t) : Z :=
  foldl (fun acc a => Z.max acc (Auction.id a)) 0 auctions.

(** [maxId++] on an integer that binary64 holds: exact below 2^53; from
    there on the sum lies halfway between two neighbours and is rounded
    to the one with the even significand, and from 2^54 on nothing
    changes. *)
Definition incr (n : Z) : Z :=
  if (Z.abs n <? 9007199254740992) || (n =? -9007199254740992) then n + 1
  else if Z.abs n <? 18014398509481984 then
    if Z.even (Z.abs n / 2) then n else n + 2
  else n.

(** The state of the import loop: the auctions array, [maxId],
    [addedCount], and the ids logged as duplicates. *)
Record Import := {
  imp_auctions : list Auction.t;
  imp_maxId : Z;
  imp_addedCount : nat;
  imp_skipped : list string;
}.

Section Extract.
(** [convertAuctionDate] reformats the start date; its result is only
    stored, so any function will do here. *)
Variable convertAuctionDate : string -> string.

(** One turn of [for (const row of records) { ... }]. *)
Definition add_row (st : Import) (row : Row) : Import :=
  let startDate := field row "AUCTION START DATE" in
  let address := field row "PROPERTY ADDRESS" in
  let link := field row "URL" in
  if String.eqb startDate "" || String.eqb link "" then st
  else
    let maxId := incr (imp_maxId st) in
    let timeToBid := convertAuctionDate startDate in
    let shortId := convertCivicSourceUrlToIdAuction link in
    if existsb (fun a => String.eqb (Auction.idAuction a) shortId) (imp_auctions st) then
      {| imp_auctions := imp_auctions st; imp_maxId := maxId;
         imp_addedCount := imp_addedCount st;
         imp_skipped := imp_skipped st ++ [shortId] |}
    else
      let newAuction := Auction.mk maxId timeToBid shortId "0" address "" "" in
      {| imp_auctions := imp_auctions st ++ [newAuction]; imp_maxId := maxId;
         imp_addedCount := S (imp_addedCount st);
         imp_skipped := imp_skipped st |}.

Definition add_rows (records : list Row) (auctions : list Auction.t) : Import :=
  foldl add_row
    {| imp_auctions := auctions; imp_maxId := max_id auctions;
       imp_addedCount := 0; imp_skipped := [] |}
    records.

(** From the clean-up of the rows to [saveData]: the count the handler
    reports and the state it leaves. The lines logged for duplicates
    are in [imp_skipped], not on [console]. *)
Definition import_records (records : list Row) (w : World) : nat * World :=
  let records := clean_row <$> records in
  let '((credentials, auctions), w) := loadData w in
  let st := add_rows records auctions in
  (imp_addedCount st, snd (saveData credentials (imp_auctions st) w)).

End Extract.

(** *** The store handlers *)

(** What [save-auctions] and [save-credentials] return: whether the file
    was written. *)
Definition save_auctions_result (updatedAuctions : list Auction.t) (s : Sys) : bool :=
  let w := console_log (LIpc "save-auctions") (world s) in
  let '((credentials, _), w) := loadData w in
  fst (saveData credentials updatedAuctions w).

Definition save_credentials_result (updatedCreds : list Cred.t) (s : Sys) : bool :=
  let w := console_log (LIpc "save-credentials") (world s) in
  let '((_, auctions), w) := loadData w in
  fst (saveData updatedCreds auctions w).

(** [get-credentials] and [get-auctions]. *)
Definition get_credentials (s : Sys) : list Cred.t * Sys :=
  let w := console_log (LIpc "get-credentials") (world s) in
  let '((credentials, _), w) := loadData w in
  (credentials, set_world w s).

Definition get_auctions (s : Sys) : list Auction.t * Sys :=
  let w := console_log (LIpc "get-auctions") (world s) in
  let '((_, auctions), w) := loadData w in
  (auctions, set_world w s).

(** *** What a task awaits *)

(** Every operation [p] can ever await satisfies [P]. *)
Fixpoint only_awaits (P : Action -> bool) (p : Prog) : Prop :=
  match p with
  | Ret | Throw _ => True
  | Get k => forall w, only_awaits P (k w)
  | Put _ k => only_awaits P k
  | Await a k => P a = true /\ forall o, only_awaits P (k o)
  end.

(** An operation on [page], a pause, or the end of an inner call: not a
    launch, a new page, a close, or anything on another page. *)
Definition on_page (page : nat) (a : Action) : bool :=
  match a with
  | SetDefaultNavigationTimeout p _ | SetDefaultTimeout p _ | Goto p _
  | WaitForSelector p _ _ | TypeText p _ _ | Click p _ _
  | ClickAndWaitForNavigation p _ => Nat.eqb p page
  | Sleep _ | Completed => true
  | Launch _ | NewPage _ | CloseBrowser _ => false
  end.

(** *** renderer.js: [combineDateTime] *)

(** [s.split(sep)] for a separator of one character. *)
Fixpoint split (sep : Ascii.ascii) (s : string) : list string :=
  match s with
  | EmptyString => [EmptyString]
  | String c r =>
      if Ascii.eqb c sep then EmptyString :: split sep r
      else match split sep r with
           | p :: ps => String c p :: ps
           | [] => [String c EmptyString]
           end
  end.

(** An array element in a template literal; a missing one prints as
    [undefined]. *)
Definition element (parts : list string) (i : nat) : string :=
  default "undefined" (parts !! i).

Definition combineDateTime (dateVal timeVal : string) : string :=
  let date := split (Ascii.ascii_of_nat 45) dateVal in
  let time := split (Ascii.ascii_of_nat 58) timeVal in
  let year := element date 0 in
  let month := element date 1 in
  let day := element date 2 in
  let hour := element time 0 in
  let minute := element time 1 in
  month +:+ ("/" +:+ (day +:+ ("/" +:+ (year +:+ (" " +:+ (hour +:+ (":" +:+ minute))))))).

(** [parts.join(sep)] *)
Fixpoint join (sep : Ascii.ascii) (parts : list string) : string :=
  match parts with
  | [] => EmptyString
  | [p] => p
  | p :: ps => p +:+ String sep (join sep ps)
  end.

(** [s.includes(c)] for one character. *)
Fixpoint has_char (c : Ascii.ascii) (s : string) : bool :=
  match s with
  | EmptyString => false
  | String c' r => Ascii.eqb c' c || has_char c r
  end.

(** What is on file, as [loadData] reads it. *)
Definition stored_credentials (d : Disk) : list Cred.t :=
  match content d with Json credentials _ => credentials | _ => [] end.

Definition stored_auctions (d : Disk) : list Auction.t :=
  match content d with Json _ auctions => auctions | _ => [] end.

(** [new] are the auctions an import in state [st] has appended to
    [auctions]. *)
Record imported (auctions : list Auction.t) (st : Import) (new : list Auction.t) : Prop := {
  imported_app : imp_auctions st = auctions ++ new;
  imported_count : length new = imp_addedCount st;
  imported_fields :
    Forall (fun a => Auction.bidProxy a = "0" /\ Auction.account a = ""
                     /\ Auction.bidPlaced a = "") new;
  imported_NoDup : NoDup (Auction.idAuction <$> new);
  imported_new : forall a, a ∈ new ->
                           Auction.idAuction a ∉ (Auction.idAuction <$> auctions);
  imported_skipped : forall x, x ∈ imp_skipped st ->
                               x ∈ (Auction.idAuction <$> imp_auctions st);
}.

(** *** Sample inputs for the import *)

(** Three rows: a new listing, the same listing again, and a row
    without a URL. *)
Definition sample_rows : list Row :=
  [ {[ "AUCTION START DATE" := "1/2/2030 10:00"; "PROPERTY ADDRESS" := "4 Main St";
       "URL" := "https://www.civicsource.com/STG1234" ]};
    {[ "AUCTION START DATE" := "1/2/2030 11:00"; "PROPERTY ADDRESS" := "4 Main St";
       "URL" := "https://www.civicsource.com/stg1234" ]};
    {[ "AUCTION START DATE" := "1/2/2030 12:00"; "PROPERTY ADDRESS" := "5 Main St" ]} ].

Definition sample_auctions : list Auction.t :=
  [ Auction.mk 4 "2030-01-01T10:00:05Z" "stg/0003" "5" "3 Main St" "alice" "" ].

(** A session that is not logged in. *)
Definition logged_out_world : World :=
  set_browserMap
    (fun _ => {[ "alice" := {| browser := 7; page := 8; isLoggedIn := false |} ]})
    sample_world.

(** In [w] the auction at [l] has a time, and it is still to come. *)
Definition due_later `{Builtins} (w : World) (l : nat) (deadline : Z) : Prop :=
  Auction.timeToBid (heap w !!! l) <> ""
  /\ parseDate (Auction.timeToBid (heap w !!! l)) = Some deadline
  /\ clock w < deadline.

(** [auctionsByAccount[username]] found in [Object.prototype]: a function
    that takes arguments is truthy and has a [length] that is not zero. *)
Definition method_name (cred : Cred.t) : bool :=
  match inherited (Cred.username cred) with
  | Some (Some (S _)) => true
  | _ => false
  end.

(** The auctions of [account] among [locs], in the order of [locs]. *)
Definition of_account (w : World) (locs : list nat) (account : string) : list nat :=
  List.filter (fun l => String.eqb (Auction.account (heap w !!! l)) account) locs.

(** Some auction of the file names this credential's account. *)
Definition served (auctions : list Auction.t) (cred : Cred.t) : bool :=
  negb (String.eqb (Cred.username cred) "")
  && existsb (fun a => String.eqb (Auction.account a) (Cred.username cred)) auctions.

(** ** The loop body and the login check *)


Lemma no_time_false (a : Auction.t) : no_time a = false <-> Auction.timeToBid a <> "".
Proof. unfold no_time. apply String.eqb_neq. Qed.



Lemma feed_finished (sched : list (Outcome * World)) (p : Prog) (w w' : World) :
  run_sync p w = (w', Ret) -> feed sched p w = (w', Ret).
Proof. intros Hrun. destruct sched as [|[o w1] sched]; cbn [feed]; rewrite Hrun; reflexivity. Qed.

Lemma awaited_finished (sched : list (Outcome * World)) (p : Prog) (w w' : World) :
  run_sync p w = (w', Ret) -> awaited sched p w = [].
Proof. intros Hrun. destruct sched as [|[o w1] sched]; cbn [awaited]; rewrite Hrun; reflexivity. Qed.

(** C9. On a session whose [isLoggedIn] flag is set, [ensureLoggedIn]
    ends in the synchronous segment it starts in, whatever the
    environment does: it awaits nothing (no navigation, no typing, no
    click) and changes nothing but the console; a second call right
    after the first does the same. *)
Theorem ensureLoggedIn_skips_login (username password : string) (page : nat)
    (session : Session) (sched : list (Outcome * World)) (w : World) :
  browserMap w !! username = Some session ->
  isLoggedIn session = true ->
  let once := ensureLoggedIn username password page in
  let w1 := console_log (LAlreadyLoggedIn username) w in
  feed sched once w = (w1, Ret)
  /\ awaited sched once w = []
  /\ feed sched (and_then once once) w = (console_log (LAlreadyLoggedIn username) w1, Ret)
  /\ awaited sched (and_then once once) w = [].
Proof.
  intros Hsession Hflag once w1.
  assert (H1 : run_sync once w = (w1, Ret)).
  { unfold once, ensureLoggedIn. cbn [run_sync]. rewrite Hsession, Hflag. reflexivity. }
  assert (H2 : run_sync (and_then once once) w
               = (console_log (LAlreadyLoggedIn username) w1, Ret)).
  { unfold once, ensureLoggedIn. cbn [run_sync and_then]. rewrite Hsession, Hflag.
    cbn [log modify run_sync and_then]. cbn [console_log browserMap].
    rewrite Hsession, Hflag. reflexivity. }
  repeat split; eauto using feed_finished, awaited_finished.
Qed.

Lemma ensureLoggedIn_skips_login_witness :
  feed [(Rejected "timeout", sample_world)]
    (ensureLoggedIn "alice" "pw" 8) sample_world
  = (console_log (LAlreadyLoggedIn "alice") sample_world, Ret).
Proof.
  apply (ensureLoggedIn_skips_login "alice" "pw" 8
           {| browser := 7; page := 8; isLoggedIn := true |}
           [(Rejected "timeout", sample_world)] sample_world);
    reflexivity.
Defined.

(** ** The bid-submission sequence *)

Lemma logs_only_refl (w : World) : logs_only w w.
Proof. exists []. reflexivity. Qed.

Lemma logs_only_one (l : Log) (w : World) : logs_only w (console_log l w).
Proof. exists [l]. reflexivity. Qed.

(** Take the next settled operation off a schedule of successes. *)
Ltac peel sched Hok :=
  destruct sched as [|[? ?] sched];
  [ | let Hr := fresh "Hr" in
      apply Forall_cons in Hok; destruct Hok as [[? Hr] Hok]; cbn [fst] in Hr; subst ].

(** C4. Let the first operations of [placeBid] succeed (fewer than all
    eleven) and the next one be rejected. Up to that point the call has
    only written to the console; at the rejection it logs the error and
    returns normally to its caller in the same segment, awaiting nothing
    more (no retry), and the state it leaves is the one it found plus the
    error line: neither the auction object nor the file is touched. *)
Theorem placeBid_failure `{Builtins} (auction page : nat)
    (sched : list (Outcome * World)) (w0 w : World) (err : string) :
  Forall (fun ow => resolved ow.1) sched ->
  (length sched < 11)%nat ->
  (exists w1 a k,
      feed sched (placeBid auction page) w0 = (w1, Await a k)
      /\ logs_only (last_world sched w0) w1)
  /\ feed (sched ++ [(Rejected err, w)]) (placeBid auction page) w0
     = (console_log (LPlaceBidError err) w, Ret).
Proof.
  intros Hok Hlen.
  do 11 (peel sched Hok;
    [ split;
      [ do 3 eexists; split;
        [ reflexivity | first [apply logs_only_one | apply logs_only_refl] ]
      | reflexivity ]
    | ]).
  cbn [length] in Hlen. lia.
Qed.

Lemma placeBid_failure_witness :
  feed [(Resolved 0, sample_world); (Resolved 0, sample_world);
        (Rejected "net::ERR_CONNECTION_RESET", sample_world)]
    (@placeBid sample_js 1 8) sample_world
  = (console_log (LPlaceBidError "net::ERR_CONNECTION_RESET") sample_world, Ret).
Proof.
  apply (proj2 (@placeBid_failure sample_js 1 8
                  [(Resolved 0, sample_world); (Resolved 0, sample_world)]
                  sample_world sample_world "net::ERR_CONNECTION_RESET"
                  ltac:(repeat constructor; eexists; reflexivity)
                  ltac:(cbn; lia))).
Defined.

Lemma mark_bidPlaced_heap `{Builtins} (auction : nat) (w : World) :
  heap (mark_bidPlaced auction w)
  = <[auction := Auction.with_bidPlaced (toLocaleString (clock w)) (heap w !!! auction)]>
      (heap w).
Proof.
  unfold mark_bidPlaced, loadData, saveData, write_bidPlaced. cbn.
  destruct (content (disk w)) as [| |credentials auctions];
    destruct (writable (disk w)) eqn:Hw; cbn; try reflexivity.
  all: destruct (list_find _ auctions) as [[idx a]|]; cbn; rewrite ?Hw; reflexivity.
Qed.

Lemma mark_bidPlaced_content `{Builtins} (auction : nat) (w : World) :
  let nowStr := toLocaleString (clock w) in
  let auction_id := Auction.id (heap w !!! auction) in
  match content (disk w) with
  | Json credentials auctions =>
      match list_find (fun a => Auction.id a = auction_id) auctions with
      | Some (idx, a) =>
          content (disk (mark_bidPlaced auction w))
          = if writable (disk w)
            then Json credentials (<[idx := Auction.with_bidPlaced nowStr a]> auctions)
            else Json credentials auctions
      | None => content (disk (mark_bidPlaced auction w)) = Json credentials auctions
      end
  | Garbage => content (disk (mark_bidPlaced auction w)) = Garbage
  | Absent =>
      content (disk (mark_bidPlaced auction w))
      = if writable (disk w) then Json [] [] else Absent
  end.
Proof.
  intros nowStr auction_id.
  unfold mark_bidPlaced, loadData, saveData, write_bidPlaced. cbn.
  destruct (content (disk w)) as [| |credentials auctions] eqn:Hc;
    destruct (writable (disk w)) eqn:Hw; cbn; rewrite ?Hc; try reflexivity.
  all: rewrite lookup_total_insert_eq; cbn; fold auction_id;
    destruct (list_find _ auctions) as [[idx a]|]; cbn; rewrite ?Hw; cbn; rewrite ?Hc;
    reflexivity.
Qed.

(** C5 (amended). When all eleven operations of [placeBid] succeed, the
    call ends in the segment of the last one: the auction object is
    stamped with [toLocaleString] of the clock at that moment. The file
    is stamped only when, re-read at that moment, it holds a record with
    the auction's id and can be written: then the first such record
    carries the stamp and nothing else in the file changes. When no
    record has the id, or the file cannot be written or parsed, its
    content stays as it was; a missing file is created empty. *)
Theorem placeBid_success `{Builtins} (auction page : nat)
    (sched : list (Outcome * World)) (w0 w : World) (v : nat) :
  Forall (fun ow => resolved ow.1) sched ->
  length sched = 10%nat ->
  let nowStr := toLocaleString (clock w) in
  let auction_id := Auction.id (heap w !!! auction) in
  exists w',
    feed (sched ++ [(Resolved v, w)]) (placeBid auction page) w0 = (w', Ret)
    /\ heap w' = <[auction := Auction.with_bidPlaced nowStr (heap w !!! auction)]> (heap w)
    /\ match content (disk w) with
       | Json credentials auctions =>
           match list_find (fun a => Auction.id a = auction_id) auctions with
           | Some (idx, a) =>
               content (disk w')
               = if writable (disk w)
                 then Json credentials (<[idx := Auction.with_bidPlaced nowStr a]> auctions)
                 else Json credentials auctions
           | None => content (disk w') = Json credentials auctions
           end
       | Garbage => content (disk w') = Garbage
       | Absent => content (disk w') = if writable (disk w) then Json [] [] else Absent
       end.
Proof.
  intros Hok Hlen nowStr auction_id.
  do 10 (peel sched Hok; [cbn [length] in Hlen; lia|]).
  destruct sched; [|cbn [length] in Hlen; lia].
  exists (mark_bidPlaced auction (console_log LClickedSecond w)).
  split; [reflexivity|]. split.
  - apply (mark_bidPlaced_heap auction (console_log LClickedSecond w)).
  - apply (mark_bidPlaced_content auction (console_log LClickedSecond w)).
Qed.

(** ** Login failure *)

Lemma feed_ext (sched : list (Outcome * World)) (p q : Prog) (w w' : World) :
  run_sync p w = run_sync q w' -> feed sched p w = feed sched q w'.
Proof. intros Heq. destruct sched as [|[o w1] sched]; cbn [feed]; rewrite Heq; reflexivity. Qed.





Section Pipeline.
Context `{Builtins}.

Lemma bid_loop_later (page : nat) (username : string) (l : nat) (rest : list nat)
    (w : World) (deadline : Z) :
  due_later w l deadline ->
  run_sync (bid_loop page username (l :: rest)) w
  = run_sync (bid_loop page username rest)
      (schedule l page username (Some (deadline - clock w)) w).
Proof.
  intros (Htime & Hdate & Hlt). cbn [bid_loop run_sync].
  apply no_time_false in Htime. rewrite Htime.
  unfold time_diff. rewrite Hdate. cbn [fmap option_fmap option_map le0].
  destruct (Z.leb_spec (deadline - clock w) 0); [lia|]. reflexivity.
Qed.

Lemma bid_loop_all_later (page : nat) (username : string) (auctionsToBid : list nat) :
  forall (w : World) (deadlines : list Z),
    Forall2 (due_later w) auctionsToBid deadlines ->
    exists w',
      run_sync (bid_loop page username auctionsToBid) w = (w', Ret)
      /\ bidTimeouts w'
         = bidTimeouts w
           ++ imap (fun i l => BidTimeout.mk (nextTimeoutId w + i)
                                 (Auction.id (heap w !!! l)) username) auctionsToBid
      /\ (forall i l deadline,
            auctionsToBid !! i = Some l -> deadlines !! i = Some deadline ->
            timers w' !! (nextTimeoutId w + i)%nat
            = Some {| delay := Some (deadline - clock w); armedAt := clock w;
                      cb_auction := l; cb_page := page |})
      /\ (forall id, (id < nextTimeoutId w)%nat -> timers w' !! id = timers w !! id)
      /\ nextTimeoutId w' = (nextTimeoutId w + length auctionsToBid)%nat
      /\ heap w' = heap w /\ clock w' = clock w
      /\ browserMap w' = browserMap w /\ disk w' = disk w.
Proof.
  induction auctionsToBid as [|l rest IH]; intros w deadlines Hall.
  - exists w. cbn [bid_loop run_sync imap length]. rewrite app_nil_r, Nat.add_0_r.
    repeat split; auto. intros i l deadline Hi. rewrite lookup_nil in Hi. discriminate.
  - inversion Hall as [|? deadline ? ds Hl Hrest]; subst.
    set (w1 := schedule l page username (Some (deadline - clock w)) w).
    assert (Hw1 : heap w1 = heap w /\ clock w1 = clock w
                  /\ nextTimeoutId w1 = S (nextTimeoutId w)
                  /\ timers w1 = <[nextTimeoutId w :=
                                     {| delay := Some (deadline - clock w); armedAt := clock w;
                                        cb_auction := l; cb_page := page |}]> (timers w)
                  /\ bidTimeouts w1
                     = bidTimeouts w ++ [BidTimeout.mk (nextTimeoutId w)
                                           (Auction.id (heap w !!! l)) username]
                  /\ browserMap w1 = browserMap w /\ disk w1 = disk w).
    { repeat split. }
    destruct Hw1 as (Hheap & Hclock & Hnext & Htimers & Hbt & Hbm & Hdisk).
    assert (Hrest1 : Forall2 (due_later w1) rest ds).
    { eapply Forall2_impl; [exact Hrest|]. intros l' d' Hd. unfold due_later in *.
      rewrite Hheap, Hclock. exact Hd. }
    destruct (IH w1 ds Hrest1) as (w' & Hrun & Hbt' & Ht' & Hold' & Hn' & Hh' & Hc' & Hb' & Hd').
    exists w'. rewrite (bid_loop_later _ _ _ _ _ _ Hl). fold w1.
    split; [exact Hrun|]. split; [|split; [|split; [|split]]].
    + rewrite Hbt', Hbt, <- app_assoc. f_equal. cbn [imap app]. rewrite Nat.add_0_r.
      f_equal. apply imap_ext. intros i x _. rewrite Hnext, Hheap.
      unfold compose. f_equal. lia.
    + intros i l' deadline' Hi Hdi. destruct i as [|i].
      * cbn in Hi, Hdi. injection Hi as <-. injection Hdi as <-.
        rewrite Nat.add_0_r, Hold' by lia. rewrite Htimers. apply lookup_insert_eq.
      * cbn in Hi, Hdi. specialize (Ht' i l' deadline' Hi Hdi).
        rewrite Hnext, Hclock in Ht'.
        replace (nextTimeoutId w + S i)%nat with (S (nextTimeoutId w) + i)%nat by lia.
        exact Ht'.
    + intros id Hid. rewrite Hold' by lia. rewrite Htimers.
      apply lookup_insert_ne. lia.
    + rewrite Hn', Hnext. cbn [length]. lia.
    + repeat split; congruence.
Qed.



End Pipeline.


(** ** Rules for the task judgement *)

Section Rules.
Context `{Builtins}.

Lemma wp_mono (p : Prog) (Q Q' : World -> list nat -> bool -> Prop)
    (E E' : string -> World -> list nat -> bool -> Prop) :
  (forall w b f, Q w b f -> Q' w b f) ->
  (forall e w b f, E e w b f -> E' e w b f) ->
  forall w b f, wp p Q E w b f -> wp p Q' E' w b f.
Proof.
  intros HQ HE. induction p as [|err|k IH|w1 k IH|a k IH]; intros w b f; cbn [wp]; eauto.
  intros [(dropped & rest & -> & Hd & Hk & Hs & Hp)
         | (skipped & auction & rest & -> & Hsk & He & Ha & Ht & Hp)];
    [left; exists dropped, rest | right; exists skipped, auction, rest]; split_and!; eauto.
Qed.

Lemma wp_seq (p q : Prog) Q E w b f :
  wp p (fun w b f => wp q Q E w b f) E w b f -> wp (and_then p q) Q E w b f.
Proof.
  revert w b f. induction p as [|err|k IH|w1 k IH|a k IH]; intros w b f; cbn [wp and_then]; eauto.
  intros [(dropped & rest & -> & Hd & Hk & Hs & Hp)
         | (skipped & auction & rest & -> & Hsk & He & Ha & Ht & Hp)];
    [left; exists dropped, rest | right; exists skipped, auction, rest]; split_and!; eauto.
Qed.

Lemma wp_try_catch (p : Prog) (h : string -> Prog) Q E w b f :
  wp p Q (fun err w b f => wp (h err) Q E w b f) w b f -> wp (try_catch p h) Q E w b f.
Proof.
  revert w b f. induction p as [|err|k IH|w1 k IH|a k IH];
    intros w b f; cbn [wp try_catch]; eauto.
  intros [(dropped & rest & -> & Hd & Hk & Hs & Hp)
         | (skipped & auction & rest & -> & Hsk & He & Ha & Ht & Hp)];
    [left; exists dropped, rest | right; exists skipped, auction, rest]; split_and!; eauto.
Qed.

Lemma keeps_console_log (l : Log) (w : World) : keeps w (console_log l w).
Proof. repeat split. Qed.

Lemma steady_console_log (l : Log) (w : World) : steady w (console_log l w).
Proof. repeat split. Qed.

Lemma wp_log_drop (l : Log) (k : Prog) Q E w dropped b f :
  Forall (not_armable w) dropped ->
  wp k Q E (console_log l w) b f -> wp (log l k) Q E w (dropped ++ b) f.
Proof.
  intros Hd Hk. cbn. left. exists dropped, b.
  split_and!; auto using keeps_console_log, steady_console_log.
Qed.

Lemma wp_log (l : Log) (k : Prog) Q E w b f :
  wp k Q E (console_log l w) b f -> wp (log l k) Q E w b f.
Proof. apply (wp_log_drop l k Q E w [] b f). constructor. Qed.

Lemma wp_modify (g : World -> World) (k : Prog) Q E w b f :
  keeps w (g w) -> steady w (g w) -> wp k Q E (g w) b f -> wp (modify g k) Q E w b f.
Proof. intros Hk Hs Hp. cbn. left. exists [], b. split_and!; auto. Qed.

Lemma wp_await (a : Action) (k : nat -> Prog) Q E w b f :
  (forall v w', Forall (fun l => eligible w' l = true) b -> wp (k v) Q E w' b f) ->
  (forall err w', E err w' b (f || open_failed a (Rejected err))) ->
  wp (await a k) Q E w b f.
Proof.
  intros Hv He. cbn. intros [v|err] w' _ Helig.
  - replace (f || open_failed a (Resolved v)) with f; [eauto|].
    destruct a, f; reflexivity.
  - apply He.
Qed.

Lemma wp_await_caught (a : Action) (k : nat -> Prog) Q E w b f :
  (forall o, open_failed a o = false) ->
  (forall v w', Forall (fun l => eligible w' l = true) b -> wp (k v) Q E w' b f) ->
  (forall err w', E err w' b f) ->
  wp (await a k) Q E w b f.
Proof.
  intros Ha Hv He. cbn. intros o w' _ Helig. rewrite Ha, orb_false_r.
  destruct o as [v|err]; [apply Hv; exact Helig | apply He].
Qed.

Lemma wp_resume (k : Prog) Q E w b f :
  (forall w', Forall (fun l => eligible w' l = true) b -> wp k Q E w' b f) ->
  wp (resume k) Q E w b f.
Proof. intros Hk. cbn. intros o w' _ Helig. rewrite orb_false_r. eauto. Qed.

Lemma keeps_mark_bidPlaced (auction : nat) (w : World) :
  keeps w (mark_bidPlaced auction w).
Proof.
  assert (Hheap := mark_bidPlaced_heap auction w).
  unfold keeps. repeat split.
  5: { intros l. rewrite Hheap. destruct (decide (auction = l)) as [->|Hne].
       - rewrite lookup_total_insert_eq. reflexivity.
       - rewrite lookup_total_insert_ne by done. reflexivity. }
  all: unfold mark_bidPlaced, loadData, saveData, write_bidPlaced; cbn;
    destruct (content (disk w)) as [| |credentials auctions];
    destruct (writable (disk w)) eqn:Hw; cbn; try reflexivity;
    destruct (list_find _ auctions) as [[idx a]|]; cbn; rewrite ?Hw; reflexivity.
Qed.

Lemma same_auction_refl (a : Auction.t) : same_auction a a.
Proof. reflexivity. Qed.

Lemma same_auction_trans (a b c : Auction.t) :
  same_auction a b -> same_auction b c -> same_auction a c.
Proof. unfold same_auction. congruence. Qed.

Lemma same_auction_sym (a b : Auction.t) : same_auction a b -> same_auction b a.
Proof. unfold same_auction. congruence. Qed.

Lemma same_auction_fields (a b : Auction.t) :
  same_auction a b ->
  Auction.id b = Auction.id a /\ Auction.timeToBid b = Auction.timeToBid a
  /\ Auction.idAuction b = Auction.idAuction a /\ Auction.bidProxy b = Auction.bidProxy a
  /\ Auction.address b = Auction.address a /\ Auction.account b = Auction.account a.
Proof.
  destruct a, b. unfold same_auction, Auction.with_bidPlaced. cbn.
  intros [= -> -> -> -> -> ->]. repeat split.
Qed.

Lemma steady_refl (w : World) : steady w w.
Proof. split; [reflexivity | intros l; apply same_auction_refl]. Qed.

Lemma steady_trans (w1 w2 w3 : World) : steady w1 w2 -> steady w2 w3 -> steady w1 w3.
Proof.
  intros [Hc1 Hh1] [Hc2 Hh2]. split; [congruence|].
  intros l. eapply same_auction_trans; eauto.
Qed.

Lemma steady_mark_bidPlaced (auction : nat) (w : World) :
  steady w (mark_bidPlaced auction w).
Proof.
  assert (Hheap := mark_bidPlaced_heap auction w). split.
  - unfold mark_bidPlaced, loadData, saveData, write_bidPlaced; cbn;
      destruct (content (disk w)) as [| |credentials auctions];
      destruct (writable (disk w)) eqn:Hw; cbn; try reflexivity;
      destruct (list_find _ auctions) as [[idx a]|]; cbn; rewrite ?Hw; reflexivity.
  - intros l. rewrite Hheap. destruct (decide (auction = l)) as [->|Hne].
    + rewrite lookup_total_insert_eq. reflexivity.
    + rewrite lookup_total_insert_ne by done. reflexivity.
Qed.

Lemma not_armable_steady (w w' : World) (l : nat) :
  steady w w' -> not_armable w l -> not_armable w' l.
Proof.
  intros [Hc Hh] Hna. destruct (same_auction_fields _ _ (Hh l)) as (_ & Ht & _).
  unfold not_armable, no_time, time_diff in *. rewrite Ht, Hc. exact Hna.
Qed.

(** Under the judgement a rejected or failing step of a [try] block goes
    to its handler. *)
Ltac caught :=
  apply wp_await_caught; [intros []; reflexivity | intros ? ? ? | intros ? ?].

(** [placeBid] never throws and never touches the timers. *)
Lemma wp_placeBid (auction page : nat) Q E w dropped b f :
  Forall (not_armable w) dropped ->
  (forall w', Q w' b f) -> wp (placeBid auction page) Q E w (dropped ++ b) f.
Proof.
  intros Hd HQ. unfold placeBid. cbn [wp]. apply wp_log_drop; [exact Hd|].
  apply wp_try_catch.
  assert (Hcatch : forall err w', wp (log (LPlaceBidError err) Ret) Q E w' b f).
  { intros err w'. apply wp_log. apply HQ. }
  caught; [|apply Hcatch].
  caught; [|apply Hcatch].
  cbn [wp]. caught; [|apply Hcatch].
  cbn [wp]. apply wp_log.
  do 5 (caught; [|apply Hcatch]).
  apply wp_log.
  do 3 (caught; [|apply Hcatch]).
  apply wp_log. apply wp_modify;
    [apply keeps_mark_bidPlaced | apply steady_mark_bidPlaced | apply HQ].
Qed.

(** The login block never throws and never touches the timers. *)
Lemma wp_login_steps (username password : string) (page : nat) Q E w b f :
  (forall w', Q w' b f) -> wp (login_steps username password page) Q E w b f.
Proof.
  intros HQ. unfold login_steps. apply wp_try_catch.
  assert (Hcatch : forall err w', wp (log (LLoginError username err) Ret) Q E w' b f).
  { intros err w'. apply wp_log. apply HQ. }
  apply wp_log.
  do 8 (caught; [|apply Hcatch]).
  apply wp_log. cbn [wp].
  destruct (browserMap _ !! username) as [session|]; [|apply Hcatch].
  apply wp_modify; [repeat split | repeat split | apply HQ].
Qed.

Lemma wp_ensureLoggedIn (username password : string) (page : nat) Q E w b f :
  is_Some (browserMap w !! username) ->
  (forall w', Q w' b f) ->
  wp (ensureLoggedIn username password page) Q E w b f.
Proof.
  intros [session Hsession] HQ. unfold ensureLoggedIn. cbn [wp]. rewrite Hsession.
  destruct (isLoggedIn session).
  - apply wp_log. apply HQ.
  - apply wp_login_steps. exact HQ.
Qed.

Lemma eligible_heap (w w' : World) (l : nat) :
  Auction.bidProxy (heap w' !!! l) = Auction.bidProxy (heap w !!! l) ->
  eligible w' l = eligible w l.
Proof. unfold eligible. intros ->. reflexivity. Qed.

Lemma arms_schedule (auction page : nat) (username : string) (diff : option Z) (w : World) :
  arms auction w (schedule auction page username diff w).
Proof.
  exists {| delay := diff; armedAt := clock w; cb_auction := auction; cb_page := page |},
         (BidTimeout.mk (nextTimeoutId w) (Auction.id (heap w !!! auction)) username).
  repeat split.
Qed.

Lemma timed_schedule (auction page : nat) (username : string) (w : World) :
  no_time (heap w !!! auction) = false ->
  le0 (time_diff (heap w !!! auction) (clock w)) = false ->
  timed auction w
    (schedule auction page username (time_diff (heap w !!! auction) (clock w)) w).
Proof.
  intros Hn Hl. split; [reflexivity|]. split; [exact Hn|].
  exists {| delay := time_diff (heap w !!! auction) (clock w); armedAt := clock w;
            cb_auction := auction; cb_page := page |}.
  split; [|auto].
  unfold schedule, setTimeout, push_bidTimeout. cbn. apply lookup_insert_eq.
Qed.

(** The loop goes through its list in order: it arms the auction at the
    front or passes over it. *)
Lemma wp_bid_loop (page : nat) (username : string) (auctionsToBid : list nat) Q E :
  (forall w f, Q w [] f) ->
  forall w f,
    Forall (fun l => eligible w l = true) auctionsToBid ->
    wp (bid_loop page username auctionsToBid) Q E w auctionsToBid f.
Proof.
  intros HQ. induction auctionsToBid as [|auction rest IH]; intros w f Helig.
  - apply HQ.
  - apply Forall_cons in Helig as [Ha Hrest]. cbn [bid_loop wp].
    destruct (no_time (heap w !!! auction)) eqn:Hnt.
    { apply (wp_log_drop _ _ Q E w [auction] rest); [|apply IH; exact Hrest].
      constructor; [left; exact Hnt | constructor]. }
    destruct (le0 (time_diff (heap w !!! auction) (clock w))) eqn:Hle.
    + apply wp_seq. apply (wp_placeBid _ _ _ E w [auction] rest).
      { constructor; [right; exact Hle | constructor]. }
      intros w'. apply wp_resume. intros w'' Helig'. apply IH. exact Helig'.
    + cbn [modify wp]. right. exists [], auction, rest.
      split; [reflexivity|]. split; [constructor|]. split; [exact Ha|].
      split; [apply arms_schedule|]. split; [apply timed_schedule; assumption|].
      apply IH. exact Hrest.
Qed.

Lemma wp_bid_with_session (username password : string) (auctionsToBid : list nat) Q E w f :
  is_Some (browserMap w !! username) ->
  (forall w f, Q w [] f) ->
  wp (bid_with_session username password auctionsToBid) Q E w auctionsToBid f.
Proof.
  intros Hsome HQ. unfold bid_with_session. cbn [wp].
  destruct Hsome as [session Hsession]. rewrite Hsession.
  apply wp_seq. apply wp_ensureLoggedIn; [rewrite Hsession; eauto|].
  intros w'. apply wp_resume. intros w'' Helig.
  apply (wp_bid_loop _ _ _ Q E HQ). exact Helig.
Qed.

Lemma filter_eligible (w : World) (userAuctions : list nat) :
  Forall (fun l => eligible w l = true) (List.filter (eligible w) userAuctions).
Proof. apply Forall_forall. intros l Hl. apply list_elem_of_In, filter_In in Hl. tauto. Qed.

(** [handleUserBids] throws only when its session fails to open, and
    arms timers only for auctions that passed its filter. *)
Lemma task_ok_handleUserBids (cred : Cred.t) (userAuctions : list nat) (w : World) :
  task_ok (handleUserBids cred userAuctions) w (List.filter (eligible w) userAuctions) false.
Proof.
  unfold task_ok, handleUserBids. cbn [wp].
  assert (Helig := filter_eligible w userAuctions).
  destruct (List.filter (eligible w) userAuctions) as [|l toBid] eqn:Hfilter.
  { apply wp_log. reflexivity. }
  destruct (browserMap w !! Cred.username cred) as [session|] eqn:Hsession.
  - apply wp_bid_with_session; [rewrite Hsession; eauto | done].
  - apply wp_await; [|intros; reflexivity]. intros br w1 _.
    apply wp_await; [|intros; reflexivity]. intros pg w2 Helig2.
    apply wp_modify; [repeat split | repeat split |].
    apply wp_bid_with_session; [|done].
    cbn [set_browserMap browserMap]. rewrite lookup_insert_eq. eauto.
Qed.

Lemma task_ok_timer_callback (t : Timer) (w : World) :
  task_ok (timer_callback t) w [] false.
Proof.
  unfold task_ok, timer_callback. apply wp_seq.
  apply (wp_placeBid _ _ _ _ w [] []); [constructor|].
  intros w'. apply wp_resume. intros w'' _. reflexivity.
Qed.

Lemma task_ok_close_loop (usernames : list string) (w : World) :
  task_ok (close_loop usernames) w [] true.
Proof.
  unfold task_ok. revert w. induction usernames as [|username rest IH]; intros w.
  - apply wp_modify; [repeat split | repeat split | reflexivity].
  - cbn [close_loop wp]. destruct (browserMap w !! username) as [session|]; [|reflexivity].
    apply wp_await; [|intros; reflexivity]. intros v w' _. apply IH.
Qed.

Lemma task_ok_close_all_windows (w : World) : task_ok close_all_windows w [] true.
Proof. unfold close_all_windows. cbn [task_ok wp]. apply task_ok_close_loop. Qed.

End Rules.

(** ** Synchronous segments *)

Section Segments.
Context `{Builtins}.

Lemma evolves_refl (w : World) : evolves w w.
Proof. repeat split; auto. Qed.

Lemma evolves_trans (w1 w2 w3 : World) : evolves w1 w2 -> evolves w2 w3 -> evolves w1 w3.
Proof.
  intros (Hn1 & Hl1 & Ht1 & Hb1) (Hn2 & Hl2 & Ht2 & Hb2). repeat split; [lia | lia | |].
  - intros id t Hid. destruct (Ht2 id t Hid) as [Hold | Hnew]; [|right; lia].
    destruct (Ht1 id t Hold); [left | right]; auto.
  - intros l Hl. rewrite Hb2 by lia. auto.
Qed.

Lemma keeps_evolves (w w' : World) : keeps w w' -> evolves w w'.
Proof.
  intros (Ht & Hb & Hn & Hl & Hp). repeat split; [lia | lia | |].
  - intros id t. rewrite Ht. auto.
  - intros l _. apply Hp.
Qed.

(** One segment of a task under the judgement: what it does to the
    state, and what is known of the task afterwards. *)
Lemma run_sync_wp (p : Prog) Q E (w : World) (b : list nat) (f : bool) :
  wp p Q E w b f ->
  exists b',
    segment w b (run_sync p w).1 b'
    /\ suspended (run_sync p w).2
    /\ wp (run_sync p w).2 Q E (run_sync p w).1 b' f.
Proof.
  revert w b. induction p as [|err|k IH|w1 k IH|a k IH]; intros w b Hwp; cbn [run_sync].
  - exists b. split; [constructor | split; [exact I | exact Hwp]].
  - exists b. split; [constructor | split; [exact I | exact Hwp]].
  - cbn [wp] in Hwp. apply IH. exact Hwp.
  - cbn [wp] in Hwp.
    destruct Hwp as [(dropped & rest & -> & Hd & Hk & Hs & Hp)
                    | (skipped & auction & rest & -> & Hsk & He & Ha & Ht & Hp)].
    + destruct (IH _ _ Hp) as (b' & Hseg & Hsusp & Hwp'). exists b'.
      split; [eapply segment_keeps; eauto | auto].
    + destruct (IH _ _ Hp) as (b' & Hseg & Hsusp & Hwp'). exists b'.
      split; [eapply segment_arms; eauto | auto].
  - exists b. split; [constructor | split; [exact I | exact Hwp]].
Qed.

Lemma run_sync_task_ok (p : Prog) (w : World) (b : list nat) (f : bool) :
  task_ok p w b f ->
  exists b',
    segment w b (run_sync p w).1 b'
    /\ suspended (run_sync p w).2
    /\ pooled (run_sync p w).2 {| budget := b'; failed := f |}.
Proof.
  intros Hok. destruct (run_sync_wp _ _ _ _ _ _ Hok) as (b' & Hseg & Hsusp & Hwp).
  exists b'. split; [exact Hseg | split; [exact Hsusp |]].
  intros w' _. unfold task_ok. cbn [budget failed].
  destruct (run_sync p w).2; cbn [wp suspended] in *; try done.
Qed.

(** A segment neither allocates nor changes a [bidProxy]. *)
Lemma segment_frozen w b w' b' :
  segment w b w' b' ->
  nextLoc w' = nextLoc w
  /\ forall l, Auction.bidProxy (heap w' !!! l) = Auction.bidProxy (heap w !!! l).
Proof.
  induction 1 as [w b | w w1 w' dropped rest b' Hd Hk Hs _ [IHl IHp]
                 | w w1 w' skipped auction rest b' Hsk He Ha Ht _ [IHl IHp]].
  - auto.
  - destruct Hk as (_ & _ & _ & Hl & Hp). split; [congruence|].
    intros l. rewrite IHp. apply Hp.
  - destruct Ha as (t & entry & _ & _ & _ & _ & _ & Hl & Hh). split; [congruence|].
    intros l. rewrite IHp, Hh. reflexivity.
Qed.

Lemma segment_eligible w b w' b' (l : nat) :
  segment w b w' b' -> eligible w' l = eligible w l.
Proof. intros Hseg. apply eligible_heap. apply (segment_frozen _ _ _ _ Hseg). Qed.

(** What is left of the budget is part of what there was. *)
Lemma segment_budget w b w' b' (l : nat) :
  segment w b w' b' -> l ∈ b' -> l ∈ b.
Proof.
  induction 1 as [|w w1 w' dropped rest b' Hd Hk Hs _ IH
                 |w w1 w' skipped auction rest b' Hsk He Ha Htd _ IH]; auto.
  - intros Hl. apply elem_of_app. right. auto.
  - intros Hl. apply elem_of_app. right. apply elem_of_cons. right. auto.
Qed.

Lemma segment_recorded w b w' b' :
  segment w b w' b' -> timers_recorded w -> timers_recorded w'.
Proof.
  induction 1 as [w b | w w1 w' dropped rest b' Hd Hk Hs _ IH
                 | w w1 w' skipped auction rest b' Hsk He Ha Htd _ IH]; intros Hrec.
  - exact Hrec.
  - apply IH. destruct Hk as (Ht & Hb & Hn & _). intros id t.
    rewrite Ht, Hb, Hn. apply Hrec.
  - apply IH. destruct Ha as (t0 & entry & _ & Hid & Ht & Hb & Hn & _).
    intros id t. rewrite Ht, Hb, Hn, fmap_app, elem_of_app. cbn.
    destruct (decide (nextTimeoutId w = id)) as [<-|Hne].
    + intros _. split; [right; rewrite Hid; apply list_elem_of_singleton; done | lia].
    + rewrite lookup_insert_ne by done. intros Hold.
      destruct (Hrec _ _ Hold). split; [left; done | lia].
Qed.

Lemma segment_evolves w b w' b' :
  segment w b w' b' -> evolves w w'.
Proof.
  induction 1 as [w b | w w1 w' dropped rest b' Hd Hk Hs _ IH
                 | w w1 w' skipped auction rest b' Hsk He Ha Htd _ IH].
  - apply evolves_refl.
  - eapply evolves_trans; [apply keeps_evolves|]; eauto.
  - eapply evolves_trans; [|exact IH].
    destruct Ha as (t0 & entry & _ & Hid & Ht & Hb & Hn & Hl & Hh).
    repeat split; [lia | lia | |].
    + intros id t. rewrite Ht.
      destruct (decide (nextTimeoutId w = id)) as [<-|Hne]; [right; lia|].
      rewrite lookup_insert_ne by done. auto.
    + intros l _. rewrite Hh. reflexivity.
Qed.

Lemma segment_timers_eligible w b w' b' :
  segment w b w' b' ->
  (forall l, l ∈ b -> (l < nextLoc w)%nat) ->
  (forall id t, timers w !! id = Some t ->
                eligible w (cb_auction t) = true /\ (cb_auction t < nextLoc w)%nat) ->
  forall id t, timers w' !! id = Some t ->
               eligible w' (cb_auction t) = true /\ (cb_auction t < nextLoc w')%nat.
Proof.
  induction 1 as [w b | w w1 w' dropped rest b' Hd Hk Hs _ IH
                 | w w1 w' skipped auction rest b' Hsk He Ha Htd _ IH]; intros Hb Ht.
  - exact Ht.
  - apply IH.
    + destruct Hk as (_ & _ & _ & Hl & _). rewrite Hl.
      intros l Hl'. apply Hb. apply elem_of_app. right. exact Hl'.
    + destruct Hk as (Htm & _ & _ & Hl & Hp). intros id t. rewrite Htm, Hl.
      intros Hid. rewrite (eligible_heap w w1) by apply Hp. exact (Ht id t Hid).
  - destruct Ha as (t0 & entry & Hcb & _ & Htm & _ & _ & Hl & Hh). apply IH.
    + rewrite Hl. intros l Hl'. apply Hb. apply elem_of_app. right.
      apply elem_of_cons. right. exact Hl'.
    + intros id t. rewrite Htm, Hl.
      assert (Helig : forall l, eligible w1 l = eligible w l)
        by (intros l; apply eligible_heap; rewrite Hh; reflexivity).
      rewrite Helig.
      destruct (decide (nextTimeoutId w = id)) as [<-|Hne].
      * rewrite lookup_insert_eq. intros [= <-]. rewrite Hcb. split; [exact He|].
        apply Hb. apply elem_of_app. right. apply elem_of_cons. left. reflexivity.
      * rewrite lookup_insert_ne by done. apply Ht.
Qed.

(** A segment keeps timers and budgets apart: it arms auctions of its
    own budget only, and takes each out of the budget as it does. *)
Lemma segment_apart (O : nat -> Prop) w b w' b' :
  segment w b w' b' ->
  timers_recorded w ->
  NoDup b ->
  (forall id t, timers w !! id = Some t -> (cb_auction t ∉ b) /\ ~ O (cb_auction t)) ->
  (forall l, l ∈ b -> ~ O l) ->
  one_timer_per_auction w ->
  NoDup b'
  /\ (forall id t, timers w' !! id = Some t -> (cb_auction t ∉ b') /\ ~ O (cb_auction t))
  /\ one_timer_per_auction w'.
Proof.
  induction 1 as [w b | w w1 w' dropped rest b' Hd Hk Hs Hseg IH
                 | w w1 w' skipped auction rest b' Hsk He Ha Htd Hseg IH];
    intros Hrec Hnd Htm HO Hone.
  - auto.
  - destruct Hk as (Ht & Hb & Hn & _). apply IH; unfold one_timer_per_auction.
    + intros id t. rewrite Ht, Hb, Hn. apply Hrec.
    + apply NoDup_app in Hnd as (_ & _ & Hnd). exact Hnd.
    + intros id t. rewrite Ht. intros Hid. destruct (Htm _ _ Hid) as [Hnb HnO].
      split; [|exact HnO]. intros Hr. apply Hnb. apply elem_of_app. right. exact Hr.
    + intros l Hl. apply HO. apply elem_of_app. right. exact Hl.
    + intros id1 id2 t1 t2. rewrite Ht. apply Hone.
  - assert (Hrec1 : timers_recorded w1).
    { apply (segment_recorded w (skipped ++ auction :: rest) w1 rest); [|exact Hrec].
      eapply segment_arms; [exact Hsk | exact He | exact Ha | exact Htd | constructor]. }
    destruct Ha as (t0 & entry & Hcb & Hid & Ht & Hb & Hn & _).
    apply NoDup_app in Hnd as (_ & _ & Hnd). apply NoDup_cons in Hnd as [Hnotin Hnd].
    assert (Hin : auction ∈ skipped ++ auction :: rest).
    { apply elem_of_app. right. apply elem_of_cons. left. reflexivity. }
    assert (Hfresh : timers w !! nextTimeoutId w = None).
    { destruct (timers w !! nextTimeoutId w) as [t|] eqn:Hl; [|reflexivity].
      destruct (Hrec _ _ Hl). lia. }
    apply IH; [exact Hrec1 | exact Hnd | | |].
    + intros id t. rewrite Ht.
      destruct (decide (nextTimeoutId w = id)) as [<-|Hne].
      * rewrite lookup_insert_eq. intros [= <-]. rewrite Hcb. split; [exact Hnotin | auto].
      * rewrite lookup_insert_ne by done. intros Hold.
        destruct (Htm _ _ Hold) as [Hnb HnO]. split; [|exact HnO].
        intros Hr. apply Hnb. apply elem_of_app. right. apply elem_of_cons. right. exact Hr.
    + intros l Hl. apply HO. apply elem_of_app. right. apply elem_of_cons. right. exact Hl.
    + intros id1 id2 t1 t2. rewrite Ht.
      destruct (decide (nextTimeoutId w = id1)) as [<-|Hne1];
        destruct (decide (nextTimeoutId w = id2)) as [<-|Hne2];
        rewrite ?lookup_insert_eq, ?lookup_insert_ne by done; auto.
      * intros [= <-] Hold Heq. rewrite Hcb in Heq. destruct (Htm _ _ Hold) as [Hnb _].
        rewrite <- Heq in Hnb. contradiction.
      * intros Hold [= <-] Heq. rewrite Hcb in Heq. destruct (Htm _ _ Hold) as [Hnb _].
        rewrite Heq in Hnb. contradiction.
      * apply Hone.
Qed.

Lemma segment_within (n : nat) (P : nat -> Prop) w b w' b' :
  segment w b w' b' ->
  (n <= nextTimeoutId w)%nat ->
  (forall l, l ∈ b -> P l) ->
  (forall id t, timers w !! id = Some t -> (n <= id)%nat /\ P (cb_auction t)) ->
  forall id t, timers w' !! id = Some t -> (n <= id)%nat /\ P (cb_auction t).
Proof.
  induction 1 as [w b | w w1 w' dropped rest b' Hd Hk Hs _ IH
                 | w w1 w' skipped auction rest b' Hsk He Ha Htd _ IH]; intros Hn Hb Ht.
  - exact Ht.
  - destruct Hk as (Htm & _ & Hnx & _). apply IH; [lia | |].
    + intros l Hl. apply Hb. apply elem_of_app. right. exact Hl.
    + intros id t. rewrite Htm. apply Ht.
  - destruct Ha as (t0 & entry & Hcb & _ & Htm & _ & Hnx & _). apply IH; [lia | |].
    + intros l Hl. apply Hb. apply elem_of_app. right. apply elem_of_cons. right. exact Hl.
    + intros id t. rewrite Htm.
      destruct (decide (nextTimeoutId w = id)) as [<-|Hne].
      * rewrite lookup_insert_eq. intros [= <-]. rewrite Hcb. split; [lia|].
        apply Hb. apply elem_of_app. right. apply elem_of_cons. left. reflexivity.
      * rewrite lookup_insert_ne by done. apply Ht.
Qed.

(** With nothing in the budget a segment arms nothing. *)
Lemma segment_nil w w' b' : segment w [] w' b' -> b' = [].
Proof.
  intros Hseg. remember [] as b eqn:Hb.
  induction Hseg as [|w w1 w' dropped rest b' Hd Hk Hs _ IH|w w1 w' skipped]; auto.
  - apply app_eq_nil in Hb as [-> ->]. apply IH. reflexivity.
  - destruct skipped; discriminate.
Qed.

Lemma steady_sym (w w' : World) : steady w w' -> steady w' w.
Proof.
  intros [Hc Hh]. split; [congruence|]. intros l. apply same_auction_sym. apply Hh.
Qed.

Lemma segment_steady w b w' b' : segment w b w' b' -> steady w w'.
Proof.
  induction 1 as [w b | w w1 w' dropped rest b' Hd Hk Hs Hseg IH
                 | w w1 w' skipped auction rest b' Hsk He Ha Htd Hseg IH].
  - apply steady_refl.
  - eapply steady_trans; eauto.
  - eapply steady_trans; [|exact IH].
    destruct Ha as (t0 & entry & _ & _ & _ & _ & _ & _ & Hh). destruct Htd as (Hc & _).
    split; [exact Hc|]. intros l. rewrite Hh. apply same_auction_refl.
Qed.

Lemma segment_sublist w b w' b' : segment w b w' b' -> sublist b' b.
Proof.
  induction 1 as [w b | w w1 w' dropped rest b' Hd Hk Hs Hseg IH
                 | w w1 w' skipped auction rest b' Hsk He Ha Htd Hseg IH].
  - reflexivity.
  - etransitivity; [exact IH|]. apply sublist_inserts_l. reflexivity.
  - etransitivity; [exact IH|]. apply sublist_inserts_l. apply sublist_cons. reflexivity.
Qed.

Lemma time_fields_steady (w w' : World) (l : nat) :
  steady w w' ->
  no_time (heap w' !!! l) = no_time (heap w !!! l)
  /\ time_diff (heap w' !!! l) (clock w') = time_diff (heap w !!! l) (clock w).
Proof.
  intros [Hc Hh]. destruct (same_auction_fields _ _ (Hh l)) as (_ & Ht & _).
  unfold no_time, time_diff. rewrite Ht, Hc. auto.
Qed.

(** What one segment does: it lets no time pass, keeps the timers there
    were, arms timers for auctions of its budget only, each waiting for
    the time left until the auction's deadline, and takes an auction
    out of the budget only when it arms it or passes over it. *)
Lemma segment_effect w b w' b' :
  segment w b w' b' ->
  (forall id t, timers w !! id = Some t -> (id < nextTimeoutId w)%nat) ->
  (nextTimeoutId w <= nextTimeoutId w')%nat
  /\ (forall id t, timers w !! id = Some t -> timers w' !! id = Some t)
  /\ (forall id t, timers w' !! id = Some t -> (id < nextTimeoutId w')%nat)
  /\ (forall id t, timers w' !! id = Some t -> (nextTimeoutId w <= id)%nat ->
        cb_auction t ∈ b /\ armedAt t = clock w
        /\ no_time (heap w !!! cb_auction t) = false
        /\ delay t = time_diff (heap w !!! cb_auction t) (clock w)
        /\ le0 (delay t) = false)
  /\ (forall l, l ∈ b ->
        l ∈ b' \/ not_armable w l
        \/ exists id t, timers w' !! id = Some t /\ cb_auction t = l
                        /\ (nextTimeoutId w <= id)%nat).
Proof.
  induction 1 as [w b | w w1 w' dropped rest b' Hd Hk Hs Hseg IH
                 | w w1 w' skipped auction rest b' Hsk He Ha Htd Hseg IH]; intros Hids.
  - split; [lia|]. split; [auto|]. split; [exact Hids|]. split; [|auto].
    intros id t Hid Hge. specialize (Hids _ _ Hid). lia.
  - destruct Hk as (Ht & _ & Hn & _).
    destruct IH as (I1 & I2 & I3 & I4 & I5).
    { intros id t. rewrite Ht, Hn. apply Hids. }
    split; [lia|]. split; [intros id t Hid; apply I2; rewrite Ht; exact Hid|].
    split; [exact I3|]. split.
    + intros id t Hid Hge. rewrite Hn in I4. destruct (I4 id t Hid Hge) as (J1 & J2 & J3 & J4 & J5).
      destruct (time_fields_steady w w1 (cb_auction t) Hs) as [Hnt Htd].
      destruct Hs as [Hc _].
      split; [apply elem_of_app; auto|]. split; [congruence|].
      split; [congruence|]. split; [congruence | exact J5].
    + intros l Hl. apply elem_of_app in Hl as [Hl|Hl].
      * right. left. rewrite Forall_forall in Hd. auto.
      * destruct (I5 l Hl) as [Hin | [Hna | (id & t & Hid & Hcb & Hge)]]; [auto | |].
        -- right. left. apply (not_armable_steady w1 w); [apply steady_sym|]; assumption.
        -- right. right. exists id, t. split; [exact Hid|]. split; [exact Hcb | lia].
  - destruct Ha as (t0 & entry & Hcb & _ & Ht & _ & Hn & _ & Hh).
    destruct Htd as (Hc & Hnt & t1 & Ht1 & Harm & Hdelay & Hle).
    assert (Ht0 : timers w1 !! nextTimeoutId w = Some t0) by (rewrite Ht; apply lookup_insert_eq).
    assert (t1 = t0) by congruence. subst t1.
    destruct IH as (I1 & I2 & I3 & I4 & I5).
    { intros id t. rewrite Ht, Hn. destruct (decide (nextTimeoutId w = id)) as [<-|Hne]; [lia|].
      rewrite lookup_insert_ne by done. intros Hid. specialize (Hids _ _ Hid). lia. }
    split; [lia|]. split.
    { intros id t Hid. apply I2. rewrite Ht. rewrite lookup_insert_ne; [exact Hid|].
      specialize (Hids _ _ Hid). lia. }
    split; [exact I3|]. split.
    + intros id t Hid Hge. destruct (decide (id = nextTimeoutId w)) as [->|Hne].
      * assert (t = t0) by (specialize (I2 _ _ Ht0); congruence). subst t.
        rewrite Hcb. split; [apply elem_of_app; right; apply elem_of_cons; auto|]. auto.
      * destruct (I4 id t Hid) as (J1 & J2 & J3 & J4 & J5); [lia|].
        rewrite Hh, Hc in *.
        split; [apply elem_of_app; right; apply elem_of_cons; auto | auto].
    + intros l Hl. apply elem_of_app in Hl as [Hl|Hl].
      { right. left. rewrite Forall_forall in Hsk. auto. }
      apply elem_of_cons in Hl as [->|Hl].
      { right. right. exists (nextTimeoutId w), t0. split; [apply I2; exact Ht0|].
        split; [exact Hcb | lia]. }
      destruct (I5 l Hl) as [Hin | [Hna | (id & t & Hid & Hcbt & Hge)]]; [auto | |].
      * right. left. unfold not_armable in *. rewrite Hh, Hc in Hna. exact Hna.
      * right. right. exists id, t. split; [exact Hid|]. split; [exact Hcbt | lia].
Qed.

End Segments.

(** ** Clearing the timers and allocating the auctions *)

Lemma foldl_clearTimeout (l : list BidTimeout.t) (w : World) :
  let w' := foldl (fun w t => clearTimeout (BidTimeout.timeoutId t) w) w l in
  (forall id, timers w' !! id
              = if decide (id ∈ BidTimeout.timeoutId <$> l) then None else timers w !! id)
  /\ nextTimeoutId w' = nextTimeoutId w
  /\ heap w' = heap w /\ nextLoc w' = nextLoc w /\ browserMap w' = browserMap w
  /\ disk w' = disk w /\ clock w' = clock w /\ console w' = console w.
Proof.
  revert w. induction l as [|t l IH]; intros w; cbn [foldl].
  - split; [|repeat split]. intros id. rewrite decide_False; [reflexivity|].
    cbn. apply not_elem_of_nil.
  - destruct (IH (clearTimeout (BidTimeout.timeoutId t) w)) as (Ht & Hrest).
    split; [|exact Hrest]. intros id. rewrite Ht. cbn [fmap list_fmap].
    destruct (decide (id = BidTimeout.timeoutId t)) as [->|Hne].
    + rewrite (decide_True (P := _ ∈ _ :: _)) by (apply elem_of_cons; auto).
      cbn. rewrite lookup_delete_eq. destruct (decide _); reflexivity.
    + cbn. rewrite lookup_delete_ne by done.
      destruct (decide (id ∈ BidTimeout.timeoutId <$> l)) as [Hin|Hnin].
      * rewrite decide_True by (apply elem_of_cons; auto). reflexivity.
      * rewrite decide_False; [reflexivity|]. rewrite elem_of_cons. tauto.
Qed.

(** Cancel-before-reschedule: with every live timer listed in
    [bidTimeouts], clearing leaves no timer at all. *)
Lemma clear_bidTimeouts_timers (w : World) :
  timers_recorded w -> timers (clear_bidTimeouts w) = ∅.
Proof.
  intros Hrec. unfold clear_bidTimeouts. cbn [set_timing timers].
  destruct (foldl_clearTimeout (bidTimeouts w) w) as (Ht & _).
  apply map_eq. intros id. rewrite Ht, lookup_empty.
  destruct (decide _) as [|Hnin]; [reflexivity|].
  destruct (timers w !! id) as [t|] eqn:Hid; [|reflexivity].
  destruct (Hrec _ _ Hid). contradiction.
Qed.

Lemma clear_bidTimeouts_rest (w : World) :
  let w' := clear_bidTimeouts w in
  bidTimeouts w' = [] /\ nextTimeoutId w' = nextTimeoutId w
  /\ heap w' = heap w /\ nextLoc w' = nextLoc w /\ browserMap w' = browserMap w
  /\ disk w' = disk w /\ clock w' = clock w /\ console w' = console w.
Proof.
  unfold clear_bidTimeouts. cbn.
  destruct (foldl_clearTimeout (bidTimeouts w) w) as (_ & Hrest). tauto.
Qed.

(** ** Every step keeps the invariants *)

Section Preservation.
Context `{Builtins}.

Lemma forallb_false {A : Type} (f : A -> bool) (l : list A) :
  forallb f l = false -> exists x, x ∈ l /\ f x = false.
Proof.
  induction l as [|x l IH]; cbn; [discriminate|].
  destruct (f x) eqn:Hx; cbn.
  - intros Hl. destruct (IH Hl) as (y & Hy & Hfy). exists y. split; [|exact Hfy].
    apply elem_of_cons. auto.
  - intros _. exists x. split; [apply elem_of_cons; auto | exact Hx].
Qed.

Lemma pool_ghost (s : Sys) (gs : list Ghost) (i : nat) (g : Ghost) :
  Forall2 (fun p g => suspended p /\ pooled p g) (pool s) gs ->
  gs !! i = Some g ->
  exists p, pool s !! i = Some p /\ suspended p /\ pooled p g.
Proof.
  intros Hpool Hg. destruct (Forall2_lookup_r _ _ _ _ _ Hpool Hg) as (p & Hp & Hsp).
  exists p. tauto.
Qed.

Lemma pooled_thrown (p : Prog) (g : Ghost) (w : World) (err : string) :
  pooled p g ->
  (forall l, l ∈ budget g -> eligible w l = true) ->
  thrown p = Some err -> failed g = true.
Proof.
  intros Hpooled Helig Hthrown. destruct p; try discriminate.
  apply (Hpooled w). apply Forall_forall. exact Helig.
Qed.

(** [await Promise.all(tasks)]: a call fails only with a task that has
    thrown, returns only when all its tasks have returned, and is
    pending only while one of them is at an await. *)
Lemma inv_settle_calls (s : Sys) (gs : list Ghost) :
  core s gs -> budgets_owned s gs -> inv (settle_calls s) gs.
Proof.
  intros [Hpool Hrec Htm Hbud Hchild Hfail Hret Hhis] Hoth.
  assert (Hcalls : forall c, c ∈ calls (settle_calls s) ->
            exists c0, c0 ∈ calls s /\ c = settle_call s c0
                       /\ children c = children c0 /\ result c = result c0).
  { intros c Hc. cbn in Hc. apply list_elem_of_fmap in Hc as (c0 & -> & Hc0).
    exists c0. split; [exact Hc0 | split; [reflexivity|]].
    unfold settle_call. destruct (status c0); auto.
    destruct (omap thrown _); auto. destruct (forallb finished _); auto. }
  split; [split; cbn [settle_calls world pool history]; auto | split].
  - intros c i Hc Hi. destruct (Hcalls c Hc) as (c0 & Hc0 & _ & Hch & _).
    rewrite Hch in Hi. eauto.
  - intros c err Hc Hst. destruct (Hcalls c Hc) as (c0 & Hc0 & -> & Hch & _).
    unfold settle_call in *. destruct (status c0) as [|auctions|err0] eqn:Hst0.
    + destruct (omap thrown _) as [|err1 errs] eqn:Hthrown.
      * destruct (forallb finished _); cbn in Hst; congruence.
      * assert (Hin : err1 ∈ omap thrown (omap (fun i => pool s !! i) (children c0)))
          by (rewrite Hthrown; apply elem_of_cons; auto).
        apply list_elem_of_omap in Hin as (p & Hp & Hperr).
        apply list_elem_of_omap in Hp as (i & Hi & Hpi).
        destruct (Hchild c0 i Hc0 Hi) as (g & Hg & _).
        destruct (pool_ghost s gs i g Hpool Hg) as (p' & Hp' & _ & Hpooled).
        assert (p' = p) by congruence. subst p'.
        right. exists i, g. split; [exact Hi | split; [exact Hg|]].
        eapply (pooled_thrown p g (world s)); eauto.
        intros l Hl. apply (Hbud i g l Hg Hl).
    + rewrite Hst0 in Hst. discriminate.
    + rewrite Hst0 in Hst. cbn. apply (Hfail c0 err Hc0). congruence.
  - intros c auctions Hc Hst. destruct (Hcalls c Hc) as (c0 & Hc0 & -> & Hch & Hres).
    unfold settle_call in *. destruct (status c0) as [|auctions0|err0] eqn:Hst0.
    + destruct (omap thrown _) as [|err1 errs] eqn:Hthrown; [|discriminate].
      destruct (forallb finished _) eqn:Hfin.
      * cbn in Hst. injection Hst as <-. cbn. split; [apply length_fmap|].
        intros i Hi. destruct (Hchild c0 i Hc0 Hi) as (g & Hg & _).
        destruct (pool_ghost s gs i g Hpool Hg) as (p & Hp & _).
        rewrite forallb_forall in Hfin.
        assert (Hf : finished p = true).
        { apply Hfin. apply list_elem_of_In, list_elem_of_omap. eauto. }
        destruct p; try discriminate. exact Hp.
      * rewrite Hst0 in Hst. discriminate.
    + cbn in Hst |- *. eapply Hret; eauto.
    + rewrite Hst0 in Hst. discriminate.
  - intros i g Hg Hne. destruct (Hoth i g Hg Hne) as (c0 & Hc0 & Hi).
    exists (settle_call s c0). split.
    + cbn. apply list_elem_of_fmap. eauto.
    + unfold settle_call. destruct (status c0); auto.
      destruct (omap thrown _); auto. destruct (forallb finished _); auto.
  - intros c Hc Hst. destruct (Hcalls c Hc) as (c0 & Hc0 & -> & Hch & _).
    unfold settle_call in *. destruct (status c0) as [|auctions|err0] eqn:Hst0.
    + destruct (omap thrown _) as [|err1 errs] eqn:Hthrown; [|discriminate].
      destruct (forallb finished _) eqn:Hfin; [discriminate|].
      apply forallb_false in Hfin as (p & Hp & Hnf).
      apply list_elem_of_omap in Hp as (i & Hi & Hpi).
      destruct (Hchild c0 i Hc0 Hi) as (g & Hg & _).
      destruct (pool_ghost s gs i g Hpool Hg) as (p' & Hp' & Hsusp & _).
      assert (p' = p) by congruence. subst p'.
      destruct p as [|err|k|w k|a k]; try done.
      * assert (Hin : err ∈ omap thrown (omap (fun i => pool s !! i) (children c0))).
        { apply list_elem_of_omap. exists (Throw err). split; [|reflexivity].
          apply list_elem_of_omap. eauto. }
        rewrite Hthrown in Hin. apply not_elem_of_nil in Hin. contradiction.
      * exists i, a, k. auto.
    + rewrite Hst0 in Hst. discriminate.
    + rewrite Hst0 in Hst. discriminate.
Qed.

Lemma core_ghost (s : Sys) (gs : list Ghost) (i : nat) (p : Prog) :
  core s gs -> pool s !! i = Some p -> exists g, gs !! i = Some g.
Proof.
  intros Hcore Hp.
  destruct (Forall2_lookup_l _ _ _ _ _ (core_pool _ _ Hcore) Hp) as (g & Hg & _). eauto.
Qed.

(** A handler changes the state without arming or allocating. *)
Lemma core_set_world (s : Sys) (gs : list Ghost) (w' : World) :
  core s gs ->
  timers_recorded w' ->
  (forall id t, timers w' !! id = Some t -> timers (world s) !! id = Some t) ->
  (nextLoc (world s) <= nextLoc w')%nat ->
  (forall l, (l < nextLoc (world s))%nat ->
             Auction.bidProxy (heap w' !!! l) = Auction.bidProxy (heap (world s) !!! l)) ->
  core (set_world w' s) gs.
Proof.
  intros [Hpool Hrec Htm Hbud Hchild Hfail Hret Hhis] Hrec' Hsub Hloc Hfrozen.
  split; cbn [set_world world pool calls history]; auto.
  - intros id t Hid. destruct (Htm id t (Hsub id t Hid)) as [He Hl].
    split; [|lia]. rewrite <- He. apply eligible_heap. auto.
  - intros i g l Hg Hl. destruct (Hbud i g l Hg Hl) as [He Hlt].
    split; [|lia]. rewrite <- He. apply eligible_heap. auto.
Qed.

(** A task runs its next segment. *)
Lemma core_settle (s : Sys) (gs : list Ghost) (i : nat) (a : Action)
    (k : Outcome -> Prog) (o : Outcome) (g : Ghost) :
  core s gs ->
  pool s !! i = Some (Await a k) ->
  gs !! i = Some g ->
  valid_outcome a o = true ->
  exists b',
    segment (world s) (budget g) (run_sync (k o) (world s)).1 b'
    /\ core {| world := (run_sync (k o) (world s)).1;
               pool := <[i := (run_sync (k o) (world s)).2]> (pool s);
               calls := calls s;
               history := history s ++ [(i, a, o)] |}
            (<[i := {| budget := b'; failed := failed g || open_failed a o |}]> gs).
Proof.
  intros [Hpool Hrec Htm Hbud Hchild Hfail Hret Hhis] Hp Hg Hvalid.
  destruct (pool_ghost s gs i g Hpool Hg) as (p & Hp' & _ & Hpooled).
  assert (p = Await a k) by congruence. subst p.
  assert (Helig : Forall (fun l => eligible (world s) l = true) (budget g)).
  { apply Forall_forall. intros l Hl. apply (Hbud i g l Hg Hl). }
  assert (Hok : task_ok (k o) (world s) (budget g) (failed g || open_failed a o)).
  { apply (Hpooled (world s) Helig); assumption. }
  destruct (run_sync_task_ok _ _ _ _ Hok) as (b' & Hseg & Hsusp & Hpooled').
  exists b'. split; [exact Hseg|].
  destruct (segment_frozen _ _ _ _ Hseg) as [Hloc Hfrozen].
  assert (Hel : forall l, eligible (run_sync (k o) (world s)).1 l = eligible (world s) l).
  { intros l. apply eligible_heap. apply Hfrozen. }
  split; cbn [world pool calls history].
  - apply Forall2_insert; auto.
  - eapply segment_recorded; eauto.
  - eapply segment_timers_eligible; eauto. intros l Hl. apply (Hbud i g l Hg Hl).
  - intros j g' l Hg' Hl. rewrite Hel, Hloc.
    destruct (decide (i = j)) as [<-|Hne].
    + rewrite list_lookup_insert_eq in Hg' by (eapply lookup_lt_Some; eauto).
      injection Hg' as <-. cbn in Hl. apply (Hbud i g l Hg).
      eapply segment_budget; eauto.
    + rewrite list_lookup_insert_ne in Hg' by done. eauto.
  - intros c j Hc Hj. destruct (Hchild c j Hc Hj) as (g' & Hg' & Hhist).
    destruct (decide (i = j)) as [<-|Hne].
    + rewrite list_lookup_insert_eq by (eapply lookup_lt_Some; eauto).
      eexists. split; [reflexivity|]. cbn [failed].
      assert (g' = g) by congruence. subst g'.
      intros Hf. right. apply orb_true_iff in Hf as [Hf|Hf].
      * destruct (Hhist Hf) as [[Hthrown _] | (a' & err & Hin & Ho)]; [congruence|].
        exists a', err. split; [apply elem_of_app; auto | exact Ho].
      * destruct o as [v|err]; [destruct a; discriminate|].
        exists a, err. split; [|exact Hf].
        apply elem_of_app. right. apply list_elem_of_singleton. reflexivity.
    + rewrite list_lookup_insert_ne by done. exists g'. split; [exact Hg'|].
      intros Hf. destruct (Hhist Hf) as [[Hthrown Hnone] | (a' & err & Hin & Ho)].
      * left. split; [rewrite list_lookup_insert_ne by done; exact Hthrown|].
        intros a' o' Hin.
        apply elem_of_app in Hin as [Hin|Hin]; [exact (Hnone _ _ Hin)|].
        apply list_elem_of_singleton in Hin. congruence.
      * right. exists a', err. split; [apply elem_of_app; auto | exact Ho].
  - intros c err Hc Hst.
    destruct (Hfail c err Hc Hst) as [Hnil | (j & g' & Hj & Hg' & Hf)]; [left; exact Hnil|].
    right. destruct (decide (i = j)) as [<-|Hne].
    + exists i. eexists. split; [exact Hj|].
      rewrite list_lookup_insert_eq by (eapply lookup_lt_Some; eauto).
      split; [reflexivity|]. cbn. assert (g' = g) by congruence. subst g'.
      rewrite Hf. reflexivity.
    + exists j, g'. rewrite list_lookup_insert_ne by done. auto.
  - intros c auctions Hc Hst. destruct (Hret c auctions Hc Hst) as [Hlen Hall].
    split; [exact Hlen|]. intros j Hj. specialize (Hall j Hj).
    destruct (decide (i = j)) as [<-|Hne]; [congruence|].
    rewrite list_lookup_insert_ne by done. exact Hall.
  - intros j a' o' Hin. rewrite length_insert.
    apply elem_of_app in Hin as [Hin|Hin]; [eauto|].
    apply list_elem_of_singleton in Hin. injection Hin as -> _ _.
    eapply lookup_lt_Some; eauto.
Qed.

(** An [async] function is called: a new task joins the pool. *)
Lemma core_spawn (s : Sys) (gs : list Ghost) (p : Prog) (b : list nat) (f : bool) :
  core s gs ->
  task_ok p (world s) b f ->
  (forall l, l ∈ b -> eligible (world s) l = true /\ (l < nextLoc (world s))%nat) ->
  (spawn p s).1 = length gs
  /\ calls (spawn p s).2 = calls s
  /\ history (spawn p s).2 = history s
  /\ exists b',
      segment (world s) b (world (spawn p s).2) b'
      /\ core (spawn p s).2 (gs ++ [{| budget := b'; failed := f |}]).
Proof.
  intros [Hpool Hrec Htm Hbud Hchild Hfail Hret Hhis] Hok Hb.
  destruct (run_sync_task_ok _ _ _ _ Hok) as (b' & Hseg & Hsusp & Hpooled').
  unfold spawn. destruct (run_sync p (world s)) as [w' p'] eqn:Hrun.
  cbn [fst snd world pool calls history] in *.
  split; [eapply Forall2_length; eauto|].
  split; [reflexivity|]. split; [reflexivity|].
  exists b'. split; [exact Hseg|].
  destruct (segment_frozen _ _ _ _ Hseg) as [Hloc Hfrozen].
  assert (Hel : forall l, eligible w' l = eligible (world s) l).
  { intros l. apply eligible_heap. apply Hfrozen. }
  assert (Hlen : length (pool s) = length gs) by (eapply Forall2_length; eauto).
  split; cbn [world pool calls history].
  - apply Forall2_app; [exact Hpool|]. constructor; [auto | constructor].
  - eapply segment_recorded; eauto.
  - eapply segment_timers_eligible; eauto. intros l Hl. apply (Hb l Hl).
  - intros j g' l Hg' Hl. rewrite Hel, Hloc.
    apply lookup_app_Some in Hg' as [Hg' | [_ Hg']]; [eauto|].
    apply list_lookup_singleton_Some in Hg' as [_ <-]. cbn in Hl.
    apply Hb. eapply segment_budget; eauto.
  - intros c j Hc Hj. destruct (Hchild c j Hc Hj) as (g' & Hg' & Hhist).
    exists g'. split; [apply lookup_app_l_Some; exact Hg'|].
    intros Hf. destruct (Hhist Hf) as [[Hthrown Hnone] | Hrej]; [left | right; exact Hrej].
    split; [apply lookup_app_l_Some; exact Hthrown | exact Hnone].
  - intros c err Hc Hst.
    destruct (Hfail c err Hc Hst) as [Hnil | (j & g' & Hj & Hg' & Hf)]; [left; exact Hnil|].
    right. exists j, g'. split; [exact Hj|]. split; [|exact Hf].
    apply lookup_app_l_Some. exact Hg'.
  - intros c auctions Hc Hst. destruct (Hret c auctions Hc Hst) as [Hl Hall].
    split; [exact Hl|]. intros j Hj. apply lookup_app_l_Some. auto.
  - intros j a' o' Hin. rewrite length_app. specialize (Hhis _ _ _ Hin). lia.
Qed.

End Preservation.

(** ** One timer per auction *)

Section Apart.
Context `{Builtins}.

Lemma budgets_apart_update (w w' : World) (bs : list (list nat)) (i : nat)
    (b b' : list nat) :
  budgets_apart w bs -> one_timer_per_auction w -> timers_recorded w ->
  bs !! i = Some b -> segment w b w' b' ->
  budgets_apart w' (<[i := b']> bs) /\ one_timer_per_auction w'.
Proof.
  intros (Hnd & Hdisj & Htm) Hone Hrec Hi Hseg.
  pose (O := fun l => exists j bj, j <> i /\ bs !! j = Some bj /\ l ∈ bj).
  destruct (segment_apart O _ _ _ _ Hseg Hrec) as (Hnd' & Htm' & Hone'); eauto.
  { intros id t Hid. split; [eapply Htm; eauto|].
    intros (j & bj & _ & Hj & Hl). eapply Htm; eauto. }
  { intros l Hl (j & bj & Hne & Hj & Hlj). apply Hne. eapply Hdisj; eauto. }
  assert (Hlt : (i < length bs)%nat) by (eapply lookup_lt_Some; eauto).
  split; [|exact Hone']. split; [|split].
  - intros j bj Hj. destruct (decide (i = j)) as [<-|Hne].
    + rewrite list_lookup_insert_eq in Hj by done. congruence.
    + rewrite list_lookup_insert_ne in Hj by done. eauto.
  - intros j1 j2 b1 b2 l Hj1 Hj2 Hl1 Hl2.
    destruct (decide (i = j1)) as [<-|Hne1]; destruct (decide (i = j2)) as [<-|Hne2].
    + reflexivity.
    + rewrite list_lookup_insert_eq in Hj1 by done.
      rewrite list_lookup_insert_ne in Hj2 by done.
      injection Hj1 as <-. eapply Hdisj; eauto. eapply segment_budget; eauto.
    + rewrite list_lookup_insert_ne in Hj1 by done.
      rewrite list_lookup_insert_eq in Hj2 by done.
      injection Hj2 as <-. eapply Hdisj; eauto. eapply segment_budget; eauto.
    + rewrite list_lookup_insert_ne in Hj1 by done.
      rewrite list_lookup_insert_ne in Hj2 by done. eauto.
  - intros id t j bj Hid Hj. destruct (Htm' id t Hid) as [Hnb HnO].
    destruct (decide (i = j)) as [<-|Hne].
    + rewrite list_lookup_insert_eq in Hj by done. congruence.
    + rewrite list_lookup_insert_ne in Hj by done. intros Hl. apply HnO.
      exists j, bj. auto.
Qed.

Lemma budgets_apart_snoc_nil (w : World) (bs : list (list nat)) :
  budgets_apart w bs -> budgets_apart w (bs ++ [[]]).
Proof.
  intros (Hnd & Hdisj & Htm). split; [|split].
  - intros i b Hi. apply lookup_app_Some in Hi as [Hi | [_ Hi]]; [eauto|].
    apply list_lookup_singleton_Some in Hi as [_ <-]. constructor.
  - intros i j b1 b2 l Hi Hj Hl1 Hl2.
    apply lookup_app_Some in Hi as [Hi | [_ Hi]];
      [|apply list_lookup_singleton_Some in Hi as [_ <-]; inversion Hl1].
    apply lookup_app_Some in Hj as [Hj | [_ Hj]];
      [|apply list_lookup_singleton_Some in Hj as [_ <-]; inversion Hl2].
    eauto.
  - intros id t i b Hid Hi. apply lookup_app_Some in Hi as [Hi | [_ Hi]]; [eauto|].
    apply list_lookup_singleton_Some in Hi as [_ <-]. apply not_elem_of_nil.
Qed.

Lemma budgets_apart_fewer (w w' : World) (bs : list (list nat)) :
  (forall id t, timers w' !! id = Some t -> timers w !! id = Some t) ->
  budgets_apart w bs -> one_timer_per_auction w ->
  budgets_apart w' bs /\ one_timer_per_auction w'.
Proof.
  intros Hsub (Hnd & Hdisj & Htm) Hone. split; [split; [|split]|]; eauto.
  intros id1 id2 t1 t2 H1 H2. eauto.
Qed.

Lemma within_update (n : nat) (P : nat -> Prop) (w w' : World) (bs : list (list nat)) (i : nat)
    (b b' : list nat) :
  within n P w bs -> (n <= nextTimeoutId w)%nat ->
  bs !! i = Some b -> segment w b w' b' ->
  within n P w' (<[i := b']> bs) /\ (n <= nextTimeoutId w')%nat.
Proof.
  intros (Htm & Hb) Hn Hi Hseg.
  assert (Hlt : (i < length bs)%nat) by (eapply lookup_lt_Some; eauto).
  split; [split|].
  - eapply segment_within; eauto.
  - intros j bj l Hj Hl. destruct (decide (i = j)) as [<-|Hne].
    + rewrite list_lookup_insert_eq in Hj by done. injection Hj as <-.
      eapply Hb; eauto. eapply segment_budget; eauto.
    + rewrite list_lookup_insert_ne in Hj by done. eauto.
  - destruct (segment_evolves _ _ _ _ Hseg) as (Hle & _). lia.
Qed.

Lemma within_snoc_nil (n : nat) (P : nat -> Prop) (w : World) (bs : list (list nat)) :
  within n P w bs -> within n P w (bs ++ [[]]).
Proof.
  intros (Htm & Hb). split; [exact Htm|].
  intros i b l Hi Hl. apply lookup_app_Some in Hi as [Hi | [_ Hi]]; [eauto|].
  apply list_lookup_singleton_Some in Hi as [_ <-]. inversion Hl.
Qed.

Lemma within_fewer (n : nat) (P : nat -> Prop) (w w' : World) (bs : list (list nat)) :
  (forall id t, timers w' !! id = Some t -> timers w !! id = Some t) ->
  within n P w bs -> within n P w' bs.
Proof. intros Hsub (Htm & Hb). split; eauto. Qed.

End Apart.

(** ** The scheduling call *)

Lemma alloc_auctions_spec (auctions : list Auction.t) (w : World) :
  (alloc_auctions auctions w).1 = seq (nextLoc w) (length auctions)
  /\ nextLoc (alloc_auctions auctions w).2 = (nextLoc w + length auctions)%nat
  /\ timers (alloc_auctions auctions w).2 = timers w
  /\ bidTimeouts (alloc_auctions auctions w).2 = bidTimeouts w
  /\ nextTimeoutId (alloc_auctions auctions w).2 = nextTimeoutId w
  /\ forall l, (l < nextLoc w)%nat ->
               heap (alloc_auctions auctions w).2 !! l = heap w !! l.
Proof.
  revert w. induction auctions as [|a rest IH]; intros w; cbn [alloc_auctions].
  - cbn. repeat split; auto; lia.
  - specialize (IH (set_heap (<[nextLoc w := a]> (heap w)) (S (nextLoc w)) w)).
    destruct (alloc_auctions rest _) as [ls w'].
    cbn [fst snd set_heap nextLoc timers bidTimeouts nextTimeoutId heap length seq] in *.
    destruct IH as (Hls & Hn & Ht & Hb & Hid & Hh).
    repeat split; [congruence | lia | done | done | done |].
    intros l Hl. rewrite Hh by lia. apply lookup_insert_ne. lia.
Qed.

Lemma alloc_auctions_lookup (auctions : list Auction.t) :
  forall (w : World) (i : nat) (a : Auction.t),
    auctions !! i = Some a ->
    heap (alloc_auctions auctions w).2 !! (nextLoc w + i)%nat = Some a.
Proof.
  induction auctions as [|a0 rest IH]; intros w i a Hi; [rewrite lookup_nil in Hi; discriminate|].
  cbn [alloc_auctions].
  pose proof (IH (set_heap (<[nextLoc w := a0]> (heap w)) (S (nextLoc w)) w)) as IH'.
  pose proof (alloc_auctions_spec rest (set_heap (<[nextLoc w := a0]> (heap w)) (S (nextLoc w)) w))
    as (_ & _ & _ & _ & _ & Hold).
  destruct (alloc_auctions rest _) as [ls w'] eqn:Hrest. cbn [snd] in *.
  destruct i as [|i].
  - cbn in Hi. injection Hi as ->. rewrite Nat.add_0_r.
    rewrite Hold by (cbn; lia). cbn. apply lookup_insert_eq.
  - cbn in Hi. specialize (IH' i a Hi). cbn [set_heap nextLoc] in IH'.
    replace (nextLoc w + S i)%nat with (S (nextLoc w) + i)%nat by lia. exact IH'.
Qed.

Lemma alloc_auctions_read (auctions : list Auction.t) (w : World) :
  (fun l => heap (alloc_auctions auctions w).2 !!! l) <$> (alloc_auctions auctions w).1
  = auctions.
Proof.
  destruct (alloc_auctions_spec auctions w) as (Hlocs & _).
  rewrite Hlocs. apply list_eq. intros i. rewrite list_lookup_fmap.
  destruct (auctions !! i) as [a|] eqn:Hi.
  - rewrite lookup_seq_lt by (apply lookup_lt_Some in Hi; exact Hi). cbn.
    f_equal. apply lookup_total_correct. apply alloc_auctions_lookup. exact Hi.
  - apply lookup_ge_None in Hi. rewrite lookup_seq_ge by lia. reflexivity.
Qed.

Lemma alloc_auctions_clock (auctions : list Auction.t) :
  forall w, clock (alloc_auctions auctions w).2 = clock w.
Proof.
  induction auctions as [|a l IH]; intros w; cbn [alloc_auctions]; [reflexivity|].
  specialize (IH (set_heap (<[nextLoc w := a]> (heap w)) (S (nextLoc w)) w)).
  destruct (alloc_auctions l _) as [ls w']. exact IH.
Qed.

(** ** Grouping by account *)

Lemma foldl_group_none (w : World) (auctions : list nat) :
  foldl (group_auction w) None auctions = None.
Proof. induction auctions as [|l rest IH]; [reflexivity | exact IH]. Qed.

Lemma plain_empty : plain EmptyString = true.
Proof. reflexivity. Qed.

Lemma slot_Own (m : gmap string (list nat)) (u : string) (ua : list nat) :
  slot m u = Some (Own ua) <-> m !! u = Some ua.
Proof.
  unfold slot. destruct (m !! u) as [ua'|].
  - split; intros [= ->]; reflexivity.
  - destruct (inherited u); split; discriminate.
Qed.

Lemma slot_Inherited (m : gmap string (list nat)) (u : string) (len : option nat) :
  slot m u = Some (Inherited len) <-> m !! u = None /\ inherited u = Some len.
Proof.
  unfold slot. destruct (m !! u) as [ua'|].
  - split; [discriminate | intros [? _]; discriminate].
  - destruct (inherited u) as [len'|]; cbn.
    + split; [intros [= ->]; auto | intros [_ [= ->]]; reflexivity].
    + split; [discriminate | intros [_ ?]; discriminate].
Qed.

(** While every key is plain, the loop only ever adds to the groups. *)
Lemma group_auction_plain (w : World) (m : gmap string (list nat)) (auc : nat) :
  (forall u, is_Some (m !! u) -> plain u = true) ->
  group_auction w (Some m) auc
  = if plain (Auction.account (heap w !!! auc)) then Some (add_to_group w m auc) else None.
Proof.
  intros Hkeys. unfold group_auction, add_to_group. cbv zeta.
  destruct (String.eqb (Auction.account (heap w !!! auc)) EmptyString) eqn:He.
  { apply String.eqb_eq in He. rewrite He. reflexivity. }
  unfold slot. destruct (m !! Auction.account (heap w !!! auc)) as [ua|] eqn:Hm.
  - rewrite (Hkeys _ (mk_is_Some _ _ Hm)). reflexivity.
  - unfold plain. destruct (inherited _); reflexivity.
Qed.

Lemma add_to_group_keys (w : World) (m : gmap string (list nat)) (auc : nat) :
  plain (Auction.account (heap w !!! auc)) = true ->
  (forall u, is_Some (m !! u) -> plain u = true) ->
  forall u, is_Some (add_to_group w m auc !! u) -> plain u = true.
Proof.
  intros Hp Hkeys u. unfold add_to_group. cbv zeta.
  destruct (String.eqb _ EmptyString); [apply Hkeys|].
  destruct (decide (Auction.account (heap w !!! auc) = u)) as [<-|Hne]; [auto|].
  rewrite lookup_insert_ne by done. apply Hkeys.
Qed.

Lemma group_by_account_fold (w : World) (auctions : list nat) :
  forall m0 : gmap string (list nat),
    (forall u, is_Some (m0 !! u) -> plain u = true) ->
    foldl (group_auction w) (Some m0) auctions
    = if forallb (fun l => plain (Auction.account (heap w !!! l))) auctions
      then Some (foldl (add_to_group w) m0 auctions) else None.
Proof.
  induction auctions as [|l rest IH]; intros m0 Hkeys; cbn [foldl forallb]; [reflexivity|].
  rewrite group_auction_plain by exact Hkeys.
  destruct (plain (Auction.account (heap w !!! l))) eqn:Hp; cbn [andb].
  - apply IH. apply add_to_group_keys; assumption.
  - apply foldl_group_none.
Qed.

Lemma add_to_group_from (w : World) (auctions : list nat) (u : string) :
  forall m0 : gmap string (list nat),
    foldl (add_to_group w) m0 auctions !! u
    = if String.eqb u EmptyString then m0 !! u
      else match List.filter (fun l => String.eqb (Auction.account (heap w !!! l)) u) auctions with
           | [] => m0 !! u
           | ua => Some (default [] (m0 !! u) ++ ua)
           end.
Proof.
  induction auctions as [|l rest IH]; intros m0; cbn [foldl List.filter].
  - destruct (String.eqb u EmptyString); reflexivity.
  - rewrite IH. unfold add_to_group. cbv zeta. destruct (String.eqb u EmptyString) eqn:Hu.
    + destruct (String.eqb (Auction.account (heap w !!! l)) EmptyString) eqn:Ha; [reflexivity|].
      apply String.eqb_eq in Hu. apply String.eqb_neq in Ha. subst u.
      rewrite lookup_insert_ne; [reflexivity | exact Ha].
    + destruct (String.eqb (Auction.account (heap w !!! l)) u) eqn:Hlu.
      * apply String.eqb_eq in Hlu. rewrite Hlu, Hu. rewrite lookup_insert_eq.
        cbn [default from_option id].
        destruct (List.filter _ rest); [reflexivity|]. rewrite <- app_assoc. reflexivity.
      * apply String.eqb_neq in Hlu.
        destruct (String.eqb (Auction.account (heap w !!! l)) EmptyString); [reflexivity|].
        rewrite lookup_insert_ne; [reflexivity | exact Hlu].
Qed.

(** The grouping loop throws if some account is a member of
    [Object.prototype]; otherwise it gives, under each account, the
    auctions of that account in the order of the file. *)
Lemma group_by_account_cases (w : World) (auctions : list nat) :
  if forallb (fun l => plain (Auction.account (heap w !!! l))) auctions
  then exists m,
         group_by_account w auctions = Some m
         /\ forall u, m !! u
            = if String.eqb u EmptyString then None
              else match List.filter
                           (fun l => String.eqb (Auction.account (heap w !!! l)) u) auctions with
                   | [] => None
                   | ua => Some ua
                   end
  else group_by_account w auctions = None.
Proof.
  unfold group_by_account. rewrite group_by_account_fold.
  2: { intros u [ua Hu]. rewrite lookup_empty in Hu. discriminate. }
  destruct (forallb _ auctions); [|reflexivity].
  eexists. split; [reflexivity|]. intros u. rewrite add_to_group_from, lookup_empty.
  reflexivity.
Qed.

Lemma filter_account (w : World) (auctions : list nat) (u : string) (l : nat) :
  l ∈ List.filter (fun l => String.eqb (Auction.account (heap w !!! l)) u) auctions
  <-> l ∈ auctions /\ Auction.account (heap w !!! l) = u.
Proof.
  rewrite !list_elem_of_In, filter_In, String.eqb_eq. reflexivity.
Qed.

Lemma List_filter_sublist {A : Type} (f : A -> bool) (l : list A) :
  sublist (List.filter f l) l.
Proof.
  induction l as [|x l IH]; cbn; [constructor|].
  destruct (f x); [apply sublist_skip | apply sublist_cons]; exact IH.
Qed.

Section Fetch.
Context `{Builtins}.

(** Without a new timer id handed out, a segment has armed nothing. *)
Lemma segment_unarmed w b w' b' :
  segment w b w' b' ->
  nextTimeoutId w' = nextTimeoutId w ->
  timers w' = timers w /\ bidTimeouts w' = bidTimeouts w.
Proof.
  induction 1 as [w b | w w1 w' dropped rest b' Hd Hk Hs Hseg IH
                 | w w1 w' skipped auction rest b' Hsk He Ha Htd Hseg IH]; intros Hid.
  - auto.
  - destruct Hk as (Ht & Hb & Hn & _). rewrite <- Hn in Hid.
    destruct (IH Hid) as (-> & ->). auto.
  - destruct Ha as (t0 & entry & _ & _ & _ & _ & Hn & _).
    destruct (segment_evolves _ _ _ _ Hseg) as (Hle & _). lia.
Qed.

(** [handleUserBids] arms nothing before its first await. *)
Lemma handleUserBids_first (cred : Cred.t) (userAuctions : list nat) (w : World) :
  nextTimeoutId (run_sync (handleUserBids cred userAuctions) w).1 = nextTimeoutId w.
Proof.
  unfold handleUserBids. cbn [run_sync].
  destruct (List.filter (eligible w) userAuctions) as [|l toBid]; [reflexivity|].
  destruct (browserMap w !! Cred.username cred) as [session|] eqn:Hsession;
    [|reflexivity].
  unfold bid_with_session, ensureLoggedIn. cbn [run_sync and_then]. rewrite Hsession.
  cbn [run_sync and_then]. rewrite Hsession.
  destruct (isLoggedIn session); reflexivity.
Qed.

Lemma started_with_ext (m : gmap string (list nat)) (w w' : World) (cred : Cred.t)
    (g : Ghost) :
  steady w w' -> started_with m w' cred g -> started_with m w cred g.
Proof.
  intros Hs. unfold started_with.
  assert (He : forall l, eligible w' l = eligible w l).
  { intros l. apply eligible_heap. destruct Hs as [_ Hh].
    apply (same_auction_fields _ _ (Hh l)). }
  destruct (slot m (Cred.username cred)) as [[ua|len]|]; auto.
  intros (Hf & Hin & Hnd & Hcov). split; [exact Hf|].
  split; [intros l Hl; rewrite <- He; auto|]. split; [exact Hnd|].
  intros l Hl Hel. rewrite <- He in Hel. destruct (Hcov l Hl Hel) as [Hb|Hna]; [auto|].
  right. apply (not_armable_steady w' w); [apply steady_sym; exact Hs | exact Hna].
Qed.

(** The tasks a scheduling call starts, in the order of the credentials:
    one per credential whose account has auctions, with the auctions of
    that account that have a positive bid as its budget, and one that
    has thrown per credential named like a function of
    [Object.prototype]; starting them arms nothing. *)
Lemma push_tasks_core (m : gmap string (list nat)) (credentials : list Cred.t) :
  forall (tasks : list nat) (s : Sys) (gs : list Ghost),
    core s gs ->
    (forall u ua l, m !! u = Some ua -> l ∈ ua -> (l < nextLoc (world s))%nat) ->
    exists (new : list Ghost) (progs : list Prog),
      core (push_tasks m credentials tasks s).2 (gs ++ new)
      /\ calls (push_tasks m credentials tasks s).2 = calls s
      /\ history (push_tasks m credentials tasks s).2 = history s
      /\ pool (push_tasks m credentials tasks s).2 = pool s ++ progs
      /\ keeps (world s) (world (push_tasks m credentials tasks s).2)
      /\ steady (world s) (world (push_tasks m credentials tasks s).2)
      /\ (push_tasks m credentials tasks s).1 = tasks ++ seq (length gs) (length new)
      /\ Forall2 (started_with m (world s)) (List.filter (starts m) credentials) new
      /\ Forall2 (fun p g => failed g = true -> p = Throw filter_error) progs new.
Proof.
  induction credentials as [|cred rest IH]; intros tasks s gs Hcore Hm; cbn [push_tasks].
  { exists [], []. rewrite !app_nil_r. cbn [fst snd length seq List.filter].
    split; [exact Hcore|]. do 3 (split; [reflexivity|]).
    split; [unfold keeps; auto|]. split; [apply steady_refl|]. split; [reflexivity|].
    split; constructor. }
  assert (Hskip : starts m cred = false ->
            exists (new : list Ghost) (progs : list Prog),
              core (push_tasks m rest tasks s).2 (gs ++ new)
              /\ calls (push_tasks m rest tasks s).2 = calls s
              /\ history (push_tasks m rest tasks s).2 = history s
              /\ pool (push_tasks m rest tasks s).2 = pool s ++ progs
              /\ keeps (world s) (world (push_tasks m rest tasks s).2)
              /\ steady (world s) (world (push_tasks m rest tasks s).2)
              /\ (push_tasks m rest tasks s).1 = tasks ++ seq (length gs) (length new)
              /\ Forall2 (started_with m (world s)) (List.filter (starts m) (cred :: rest)) new
              /\ Forall2 (fun p g => failed g = true -> p = Throw filter_error) progs new).
  { intros Hst. cbn [List.filter]. rewrite Hst. apply IH; assumption. }
  assert (Hstart : forall (p : Prog) (b : list nat) (f : bool),
            starts m cred = true ->
            task_ok p (world s) b f ->
            (forall l, l ∈ b -> eligible (world s) l = true /\ (l < nextLoc (world s))%nat) ->
            nextTimeoutId (run_sync p (world s)).1 = nextTimeoutId (world s) ->
            (f = true -> (run_sync p (world s)).2 = Throw filter_error) ->
            (forall b', sublist b' b ->
               (forall l, l ∈ b -> l ∈ b' \/ not_armable (world s) l) ->
               started_with m (world s) cred {| budget := b'; failed := f |}) ->
            exists (new : list Ghost) (progs : list Prog),
              core (push_tasks m rest (tasks ++ [(spawn p s).1]) (spawn p s).2).2 (gs ++ new)
              /\ calls (push_tasks m rest (tasks ++ [(spawn p s).1]) (spawn p s).2).2 = calls s
              /\ history (push_tasks m rest (tasks ++ [(spawn p s).1]) (spawn p s).2).2
                 = history s
              /\ pool (push_tasks m rest (tasks ++ [(spawn p s).1]) (spawn p s).2).2
                 = pool s ++ progs
              /\ keeps (world s)
                   (world (push_tasks m rest (tasks ++ [(spawn p s).1]) (spawn p s).2).2)
              /\ steady (world s)
                   (world (push_tasks m rest (tasks ++ [(spawn p s).1]) (spawn p s).2).2)
              /\ (push_tasks m rest (tasks ++ [(spawn p s).1]) (spawn p s).2).1
                 = tasks ++ seq (length gs) (length new)
              /\ Forall2 (started_with m (world s)) (List.filter (starts m) (cred :: rest)) new
              /\ Forall2 (fun p g => failed g = true -> p = Throw filter_error) progs new).
  { intros p b f Hst Hok Hb Hid Hthrown Hsw. cbn [List.filter]. rewrite Hst.
    destruct (core_spawn s gs p b f Hcore Hok Hb)
      as (Htid & Hcalls & Hhist & b' & Hseg & Hcore').
    assert (Hpool : pool (spawn p s).2 = pool s ++ [(run_sync p (world s)).2]).
    { unfold spawn. destruct (run_sync p (world s)) as [w' p']. reflexivity. }
    assert (Hw : world (spawn p s).2 = (run_sync p (world s)).1).
    { unfold spawn. destruct (run_sync p (world s)) as [w' p']. reflexivity. }
    rewrite <- Hw in Hid.
    destruct (segment_unarmed _ _ _ _ Hseg Hid) as (Htm & Hbt).
    destruct (segment_frozen _ _ _ _ Hseg) as [Hloc Hfrozen].
    assert (Hsteady := segment_steady _ _ _ _ Hseg).
    destruct (segment_effect _ _ _ _ Hseg) as (_ & _ & E3 & _ & E5).
    { intros id t Hid'. apply (core_recorded _ _ Hcore id t Hid'). }
    assert (Hcov : forall l, l ∈ b -> l ∈ b' \/ not_armable (world s) l).
    { intros l Hl. destruct (E5 l Hl) as [Hin | [Hna | (id & t & Hid' & _ & Hge)]]; auto.
      specialize (E3 _ _ Hid'). lia. }
    destruct (spawn p s) as [task s1] eqn:Hspawn. cbn [fst snd] in *.
    destruct (IH (tasks ++ [task]) s1 (gs ++ [{| budget := b'; failed := f |}]) Hcore')
      as (new & progs & H1 & H2 & H3 & H4 & H5 & H6 & H7 & H8 & H9).
    { intros u ua' x Hu Hx. rewrite Hloc. eapply Hm; eauto. }
    exists ({| budget := b'; failed := f |} :: new), ((run_sync p (world s)).2 :: progs).
    rewrite <- app_assoc in H1. cbn [app] in H1.
    split; [exact H1|]. split; [congruence|]. split; [congruence|].
    split; [rewrite H4, Hpool, <- app_assoc; reflexivity|].
    split.
    { destruct H5 as (K1 & K2 & K3 & K4 & K5). unfold keeps.
      repeat split; try congruence; intros x; rewrite K5; apply Hfrozen. }
    split; [eapply steady_trans; eauto|].
    split.
    { rewrite H7, <- app_assoc, length_app. cbn [length app seq].
      subst task. do 3 f_equal. lia. }
    split.
    - constructor.
      + apply Hsw; [eapply segment_sublist; eauto | exact Hcov].
      + eapply Forall2_impl; [exact H8|]. intros c g. apply started_with_ext. exact Hsteady.
    - constructor; [exact Hthrown | exact H9]. }
  destruct (slot m (Cred.username cred)) as [[[|l ua]|[[|n]|]]|] eqn:Hslot.
  1, 3, 5, 6: apply Hskip; unfold starts; rewrite Hslot; reflexivity.
  - apply slot_Own in Hslot as Hua.
    pose proof (Hstart (handleUserBids cred (l :: ua))
                  (List.filter (eligible (world s)) (l :: ua)) false) as Hs.
    destruct (spawn (handleUserBids cred (l :: ua)) s) as [task s1]. apply Hs; clear Hs.
    + unfold starts. rewrite Hslot. reflexivity.
    + apply task_ok_handleUserBids.
    + intros x Hx. apply list_elem_of_In, filter_In in Hx as [Hx1 Hx2].
      split; [exact Hx2|]. eapply Hm; [exact Hua|]. apply list_elem_of_In. exact Hx1.
    + apply handleUserBids_first.
    + discriminate.
    + intros b' Hsub Hcov. unfold started_with. rewrite Hslot. cbn [failed budget].
      split; [reflexivity|]. split; [|split].
      * intros x Hx. apply (elem_of_sublist _ _ _ Hx) in Hsub as Hx'. clear Hx.
        rename Hx' into Hx.
        apply list_elem_of_In, filter_In in Hx as [Hx1 Hx2].
        split; [apply list_elem_of_In; exact Hx1 | exact Hx2].
      * intros Hnd. eapply sublist_NoDup; [|exact Hsub].
        apply (sublist_NoDup _ (l :: ua)); [exact Hnd | apply List_filter_sublist].
      * intros x Hx Hel. apply Hcov. apply list_elem_of_In, filter_In.
        split; [apply list_elem_of_In; exact Hx | exact Hel].
  - pose proof (Hstart (Throw filter_error) [] true) as Hs.
    destruct (spawn (Throw filter_error) s) as [task s1]. apply Hs; clear Hs.
    + unfold starts. rewrite Hslot. reflexivity.
    + reflexivity.
    + intros x Hx. inversion Hx.
    + reflexivity.
    + reflexivity.
    + intros b' Hsub _. apply sublist_nil_r in Hsub as ->.
      unfold started_with. rewrite Hslot. auto.
Qed.

Lemma loadData_keeps (w : World) : keeps w (loadData w).2.
Proof.
  unfold loadData. cbn.
  destruct (content (disk w)); [destruct (writable (disk w))| |]; repeat split.
Qed.

Lemma loadData_steady (w : World) : steady w (loadData w).2.
Proof.
  unfold loadData. cbn.
  destruct (content (disk w)); [destruct (writable (disk w))| |]; repeat split.
Qed.

Lemma loadData_data (w : World) :
  (loadData w).1
  = match content (disk w) with
    | Json credentials auctions => (credentials, auctions)
    | _ => ([], [])
    end.
Proof.
  unfold loadData. cbn.
  destruct (content (disk w)); [destruct (writable (disk w))| |]; reflexivity.
Qed.

Lemma saveData_keeps (credentials : list Cred.t) (auctions : list Auction.t) (w : World) :
  keeps w (saveData credentials auctions w).2.
Proof. unfold saveData. cbn. destruct (writable (disk w)); repeat split. Qed.

Lemma saveData_steady (credentials : list Cred.t) (auctions : list Auction.t) (w : World) :
  steady w (saveData credentials auctions w).2.
Proof. unfold saveData. cbn. destruct (writable (disk w)); repeat split. Qed.

Lemma keeps_trans (w1 w2 w3 : World) : keeps w1 w2 -> keeps w2 w3 -> keeps w1 w3.
Proof.
  intros (A1 & A2 & A3 & A4 & A5) (B1 & B2 & B3 & B4 & B5).
  repeat split; try congruence; intros l; rewrite B5; apply A5.
Qed.

Lemma core_keeps (s : Sys) (gs : list Ghost) (w' : World) :
  core s gs -> keeps (world s) w' -> core (set_world w' s) gs.
Proof.
  intros Hcore (Ht & Hb & Hn & Hl & Hp). apply core_set_world; auto.
  - intros id t. rewrite Ht, Hb, Hn. apply (core_recorded _ _ Hcore).
  - intros id t. rewrite Ht. auto.
  - lia.
Qed.

(** A new call joins: pending, with tasks that are in the pool and have
    not failed unless they had thrown when they were started; or failed
    before it started any task. *)
Lemma core_add_call (s : Sys) (gs : list Ghost) (c : Call) :
  core s gs ->
  status c = Pending \/ (status c = Failed push_error /\ children c = []) ->
  (forall i, i ∈ children c ->
     exists g, gs !! i = Some g
               /\ (failed g = true ->
                   pool s !! i = Some (Throw filter_error)
                   /\ forall a o, (i, a, o) ∉ history s)) ->
  core {| world := world s; pool := pool s; calls := calls s ++ [c];
          history := history s |} gs.
Proof.
  intros [Hpool Hrec Htm Hbud Hchild Hfail Hret Hhis] Hst Hc.
  split; cbn [world pool calls history]; auto.
  - intros c' i Hc' Hi. apply elem_of_app in Hc' as [Hc'|Hc']; [eauto|].
    apply list_elem_of_singleton in Hc' as ->.
    destruct (Hc i Hi) as (g & Hg & Hf). exists g. split; [exact Hg|]. auto.
  - intros c' err Hc' Hst'. apply elem_of_app in Hc' as [Hc'|Hc']; [eauto|].
    apply list_elem_of_singleton in Hc' as ->.
    destruct Hst as [Hst | [Hst Hnil]]; [congruence|]. left. split; [exact Hnil | congruence].
  - intros c' auctions Hc' Hst'. apply elem_of_app in Hc' as [Hc'|Hc']; [eauto|].
    apply list_elem_of_singleton in Hc' as ->. destruct Hst as [Hst | [Hst _]]; congruence.
Qed.

Lemma timers_recorded_empty (w : World) : timers w = ∅ -> timers_recorded w.
Proof. intros He id t. rewrite He, lookup_empty. discriminate. Qed.

Lemma settle_call_fields (s : Sys) (c : Call) :
  children (settle_call s c) = children c /\ result (settle_call s c) = result c.
Proof.
  unfold settle_call. destruct (status c); auto.
  destruct (omap thrown _); auto. destruct (forallb finished _); auto.
Qed.

Lemma settle_call_childless (s : Sys) (c : Call) (err : string) :
  children c = [] -> status (settle_call s c) = Failed err -> status c = Failed err.
Proof.
  unfold settle_call. intros Hnil. destruct (status c) eqn:Hst; try congruence.
  rewrite Hnil. cbn. discriminate.
Qed.

Lemma status_settle_call_failed (s : Sys) (c : Call) (err : string) :
  status c = Failed err -> status (settle_call s c) = Failed err.
Proof. unfold settle_call. intros Hst. rewrite Hst. exact Hst. Qed.

(** [fetch-auctions-data] up to [await Promise.all(tasks)], or to the
    point where it throws: all the timers there were are cancelled and
    none is armed yet; the new tasks have auctions loaded by this call
    as budgets, and with pairwise distinct usernames these budgets are
    pairwise disjoint. *)
Lemma fetch_inv (s : Sys) (gs : list Ghost) :
  inv s gs ->
  exists new : list Ghost,
    inv (settle_calls (fetch_auctions_data s)) (gs ++ new)
    /\ timers (world (settle_calls (fetch_auctions_data s))) = ∅
    /\ nextTimeoutId (world (settle_calls (fetch_auctions_data s)))
       = nextTimeoutId (world s)
    /\ (nextLoc (world s) <= nextLoc (world (settle_calls (fetch_auctions_data s))))%nat
    /\ (forall l, (l < nextLoc (world s))%nat ->
          Auction.bidProxy (heap (world (settle_calls (fetch_auctions_data s))) !!! l)
          = Auction.bidProxy (heap (world s) !!! l))
    /\ (forall j g l, new !! j = Some g -> l ∈ budget g ->
          (nextLoc (world s) <= l
           < nextLoc (world (settle_calls (fetch_auctions_data s))))%nat)
    /\ ((forall credentials auctions,
           content (disk (world s)) = Json credentials auctions ->
           NoDup (Cred.username <$> credentials)) ->
        (forall j g, new !! j = Some g -> NoDup (budget g))
        /\ (forall j1 j2 g1 g2 l,
              new !! j1 = Some g1 -> new !! j2 = Some g2 ->
              l ∈ budget g1 -> l ∈ budget g2 -> j1 = j2))
    /\ scheduled s (settle_calls (fetch_auctions_data s)) gs new.
Proof.
  intros (Hcore & Hown & Hpend).
  pose (w1 := console_log (LIpc "fetch-auctions-data") (world s)).
  assert (Hrec1 : timers_recorded w1) by (intros id t; apply (core_recorded _ _ Hcore)).
  assert (Ht2 := clear_bidTimeouts_timers w1 Hrec1).
  destruct (clear_bidTimeouts_rest w1) as (Hb2 & Hn2 & Hh2 & Hl2 & _ & Hd2 & Hck2 & _).
  assert (Hk3 := loadData_keeps (clear_bidTimeouts w1)).
  assert (Hs3 := loadData_steady (clear_bidTimeouts w1)).
  assert (Hdata := loadData_data (clear_bidTimeouts w1)).
  assert (Hcontent := loadData_data (world s)).
  rewrite Hd2 in Hdata. change (disk w1) with (disk (world s)) in Hdata.
  rewrite <- Hcontent in Hdata.
  unfold fetch_auctions_data. cbv zeta. fold w1.
  destruct (loadData (clear_bidTimeouts w1)) as [[credentials auctions] w3].
  cbn [fst snd] in Hk3, Hs3, Hdata.
  destruct Hk3 as (Ht3 & Hb3 & Hn3 & Hl3 & Hp3). destruct Hs3 as [Hck3 Hh3].
  destruct (alloc_auctions_spec auctions w3) as (Hlocs & Hl4 & Ht4 & Hb4 & Hn4 & Hh4).
  assert (Hlook := alloc_auctions_lookup auctions w3).
  assert (Hread := alloc_auctions_read auctions w3).
  assert (Hck4 := alloc_auctions_clock auctions w3).
  destruct (alloc_auctions auctions w3) as [locs w4]. cbn [fst snd] in *.
  assert (Hloc3 : nextLoc w3 = nextLoc (world s)) by (rewrite Hl3, Hl2; reflexivity).
  assert (Hnext3 : nextTimeoutId w3 = nextTimeoutId (world s))
    by (rewrite Hn3, Hn2; reflexivity).
  assert (Hfrozen4 : forall l, (l < nextLoc (world s))%nat ->
            Auction.bidProxy (heap w4 !!! l) = Auction.bidProxy (heap (world s) !!! l)).
  { intros l Hl. rewrite lookup_total_alt, Hh4 by lia. rewrite <- lookup_total_alt.
    rewrite Hp3, Hh2. reflexivity. }
  assert (Htm4 : timers w4 = ∅) by congruence.
  assert (Hbt4 : bidTimeouts w4 = []) by congruence.
  assert (Hclock4 : clock w4 = clock (world s)) by (rewrite Hck4, Hck3, Hck2; reflexivity).
  assert (Hloc4 : nextLoc w4 = (nextLoc (world s) + length auctions)%nat) by lia.
  assert (Hold4 : forall l, (l < nextLoc (world s))%nat ->
            same_auction (heap (world s) !!! l) (heap w4 !!! l)).
  { intros l Hl. rewrite (lookup_total_alt (heap w4)), Hh4 by lia.
    rewrite <- lookup_total_alt. specialize (Hh3 l). rewrite Hh2 in Hh3. exact Hh3. }
  assert (Hnew4 : forall k a, auctions !! k = Some a ->
            heap w4 !!! (nextLoc (world s) + k)%nat = a).
  { intros k a Hk. apply lookup_total_correct. rewrite <- Hloc3. apply Hlook. exact Hk. }
  assert (Hcore4 : core (set_world w4 s) gs).
  { apply core_set_world; auto.
    - apply timers_recorded_empty. exact Htm4.
    - intros id t. rewrite Htm4, lookup_empty. discriminate.
    - lia. }
  assert (Hsched : forall (X : Sys) (c0 : Call) (new : list Ghost),
            calls X = calls s ++ [c0] ->
            steady w4 (world X) -> nextLoc (world X) = nextLoc w4 ->
            bidTimeouts (world X) = [] ->
            children c0 = seq (length gs) (length new) -> result c0 = locs ->
            (forall err, children c0 = [] -> status c0 = Failed err ->
               exists a, a ∈ auctions /\ plain (Auction.account a) = false) ->
            (credentials <> [] ->
             (exists a, a ∈ auctions /\ plain (Auction.account a) = false) ->
             status c0 = Failed push_error) ->
            (forall auctions, status c0 <> Returned auctions) ->
            (forall j g, new !! j = Some g -> failed g = true ->
               exists cred n, cred ∈ credentials
                              /\ inherited (Cred.username cred) = Some (Some (S n))) ->
            (forall j g l, new !! j = Some g -> l ∈ budget g ->
               exists cred, cred ∈ credentials
                            /\ Cred.username cred = Auction.account (heap (world X) !!! l)) ->
            (forall l cred,
               (nextLoc (world s) <= l < nextLoc (world X))%nat ->
               eligible (world X) l = true ->
               cred ∈ credentials ->
               Cred.username cred = Auction.account (heap (world X) !!! l) ->
               Auction.account (heap (world X) !!! l) <> EmptyString ->
               (exists j g, new !! j = Some g /\ l ∈ budget g)
               \/ not_armable (world X) l
               \/ status c0 = Failed push_error) ->
            scheduled s (settle_calls X) gs new).
  { intros X c0 new HcX [HcX' HhX] HlX HbX Hch Hres Hgr Hpr Hnr Hth Hsv Hcv.
    assert (Hc0 : calls (settle_calls X) !! length (calls s) = Some (settle_call X c0)).
    { cbn [settle_calls calls]. rewrite HcX, list_lookup_fmap.
      rewrite lookup_app_r by lia. rewrite Nat.sub_diag. reflexivity. }
    split; cbn [settle_calls world]; rewrite <- ?Hdata; cbn [fst snd]; auto.
    - congruence.
    - intros l Hl. eapply same_auction_trans; [apply Hold4; exact Hl | apply HhX].
    - lia.
    - intros k a Hk. rewrite <- (Hnew4 k a Hk). apply HhX.
    - cbn [settle_calls calls]. rewrite length_fmap, HcX, length_app. cbn. lia.
    - exists (settle_call X c0). split; [exact Hc0|].
      destruct (settle_call_fields X c0) as [-> ->].
      split; [exact Hch|]. rewrite Hres, Hlocs, Hloc3. reflexivity.
    - intros c err Hc Hnil Hst. rewrite Hc0 in Hc. injection Hc as <-.
      destruct (settle_call_fields X c0) as [Hch' _]. rewrite Hch' in Hnil.
      apply (Hgr err Hnil). eapply settle_call_childless; eauto.
    - intros Hne Hex. exists (settle_call X c0). split; [exact Hc0|].
      apply status_settle_call_failed. auto.
    - intros c auctions' Hc Hst. rewrite Hc0 in Hc. injection Hc as <-.
      destruct (settle_call_fields X c0) as [_ ->].
      unfold settle_call in Hst. destruct (status c0) eqn:Hst0.
      + destruct (omap thrown _); [|discriminate].
        destruct (forallb finished _); [|congruence].
        cbn in Hst. congruence.
      + exfalso. eapply Hnr; eauto.
      + rewrite Hst0 in Hst. discriminate.
    - intros l cred Hl He Hin Hu Hne.
      destruct (Hcv l cred Hl He Hin Hu Hne) as [Hb | [Hna | Hf]]; auto.
      right. right. exists (settle_call X c0). split; [exact Hc0|].
      apply status_settle_call_failed. exact Hf. }
  assert (Hnone : forall j (g : Ghost) (l : nat), @nil Ghost !! j = Some g -> l ∈ budget g ->
            (nextLoc (world s) <= l < nextLoc w4)%nat).
  { intros j g l Hj. rewrite lookup_nil in Hj. discriminate. }
  assert (Hnone2 : (forall j (g : Ghost), @nil Ghost !! j = Some g -> NoDup (budget g))
            /\ (forall j1 j2 (g1 g2 : Ghost) (l : nat),
                  @nil Ghost !! j1 = Some g1 -> @nil Ghost !! j2 = Some g2 ->
                  l ∈ budget g1 -> l ∈ budget g2 -> j1 = j2)).
  { split; [intros j g Hj | intros j1 j2 g1 g2 l Hj]; rewrite lookup_nil in Hj;
      discriminate. }
  assert (Hchildless : forall (w5 : World) (c : Call),
            keeps w4 w5 -> steady w4 w5 ->
            children c = [] -> result c = locs ->
            status c = Pending \/ status c = Failed push_error ->
            (status c = Failed push_error ->
             exists a, a ∈ auctions /\ plain (Auction.account a) = false) ->
            (status c = Pending -> credentials = [] \/ auctions = []) ->
            let X := {| world := w5; pool := pool s; calls := calls s ++ [c];
                        history := history s |} in
            inv (settle_calls X) (gs ++ [])
            /\ timers (world (settle_calls X)) = ∅
            /\ nextTimeoutId (world (settle_calls X)) = nextTimeoutId (world s)
            /\ (nextLoc (world s) <= nextLoc (world (settle_calls X)))%nat
            /\ (forall l, (l < nextLoc (world s))%nat ->
                  Auction.bidProxy (heap (world (settle_calls X)) !!! l)
                  = Auction.bidProxy (heap (world s) !!! l))
            /\ (forall j g l, @nil Ghost !! j = Some g -> l ∈ budget g ->
                  (nextLoc (world s) <= l < nextLoc (world (settle_calls X)))%nat)
            /\ ((forall credentials auctions,
                   content (disk (world s)) = Json credentials auctions ->
                   NoDup (Cred.username <$> credentials)) ->
                (forall j g, @nil Ghost !! j = Some g -> NoDup (budget g))
                /\ (forall j1 j2 g1 g2 l,
                      @nil Ghost !! j1 = Some g1 -> @nil Ghost !! j2 = Some g2 ->
                      l ∈ budget g1 -> l ∈ budget g2 -> j1 = j2))
            /\ scheduled s (settle_calls X) gs []).
  { intros w5 c Hk5 Hs5 Hch Hres Hst Hplain Hfast X.
    assert (Hk5' := Hk5). destruct Hk5' as (Ht5 & Hb5 & Hn5 & Hl5 & Hp5).
    split.
    { rewrite app_nil_r. apply inv_settle_calls.
      - apply (core_add_call (set_world w5 s) gs c).
        + apply (core_keeps (set_world w4 s) gs); [exact Hcore4 | exact Hk5].
        + destruct Hst as [Hst|Hst]; auto.
        + rewrite Hch. intros i Hi. inversion Hi.
      - intros i g Hg Hne. destruct (Hown i g Hg Hne) as (c' & Hc' & Hi).
        exists c'. split; [|exact Hi]. cbn. apply elem_of_app. auto. }
    cbn [settle_calls world X].
    split; [congruence|]. split; [congruence|]. split; [lia|].
    split. { intros l Hl. rewrite Hp5. apply Hfrozen4. exact Hl. }
    split. { intros j g l Hj. rewrite lookup_nil in Hj. discriminate. }
    split; [intros _; exact Hnone2|].
    apply (Hsched X c []); auto.
    - cbn [X world]. congruence.
    - intros err _ Hf. destruct Hst as [Hst|Hst]; [congruence|]. auto.
    - intros Hne Hex. destruct Hst as [Hst|Hst]; [|exact Hst].
      destruct (Hfast Hst) as [Hnil | Hnil]; [contradiction|].
      destruct Hex as (a & Ha & _). rewrite Hnil in Ha. inversion Ha.
    - intros auctions' Hr. destruct Hst as [Hst|Hst]; congruence.
    - intros j g Hj. rewrite lookup_nil in Hj. discriminate.
    - intros j g l Hj. rewrite lookup_nil in Hj. discriminate.
    - intros l cred Hl He Hin Hu Hne. destruct Hst as [Hst|Hst]; [|auto].
      destruct (Hfast Hst) as [-> | ->]; [inversion Hin|].
      unfold X in Hl. cbn [world length] in Hl, Hloc4. lia. }
  destruct credentials as [|cred credentials]; [|destruct auctions as [|auction auctions]].
  1, 2: exists []; apply (Hchildless (console_log LNoCredsOrAuctions w4));
    [apply keeps_console_log | apply steady_console_log | reflexivity | reflexivity
    | left; reflexivity | discriminate | auto].
  assert (Hcases := group_by_account_cases w4 locs).
  destruct (group_by_account w4 locs) as [m|] eqn:Hgrp.
  2: { exists []. apply (Hchildless w4).
       - unfold keeps. auto.
       - apply steady_refl.
       - reflexivity.
       - reflexivity.
       - right. reflexivity.
       - intros _. destruct (forallb _ locs) eqn:Hall.
         { destruct Hcases as (m & Hm & _). discriminate. }
         apply forallb_false in Hall as (l & Hl & Hpl).
         exists (heap w4 !!! l). split; [|exact Hpl].
         rewrite <- Hread. apply list_elem_of_fmap. exists l. auto.
       - discriminate. }
  destruct (forallb _ locs) eqn:Hall; [|discriminate].
  destruct Hcases as (m' & [= <-] & Hlk).
  assert (Hgroups : forall u ua, m !! u = Some ua ->
            u <> EmptyString
            /\ ua = List.filter (fun l => String.eqb (Auction.account (heap w4 !!! l)) u) locs
            /\ NoDup ua
            /\ forall l, l ∈ ua ->
                 (nextLoc (world s) <= l < nextLoc w4)%nat
                 /\ Auction.account (heap w4 !!! l) = u).
  { intros u ua Hu. rewrite Hlk in Hu.
    destruct (String.eqb u EmptyString) eqn:Hue; [discriminate|].
    apply String.eqb_neq in Hue. split; [exact Hue|].
    assert (Hua : ua = List.filter
                         (fun l => String.eqb (Auction.account (heap w4 !!! l)) u) locs).
    { destruct (List.filter _ locs); [discriminate | congruence]. }
    split; [exact Hua|]. split.
    - rewrite Hua. apply (sublist_NoDup _ locs); [|apply List_filter_sublist].
      rewrite Hlocs. apply NoDup_seq.
    - intros l Hl. rewrite Hua in Hl. apply filter_account in Hl as [Hl Hacc].
      split; [|exact Hacc]. rewrite Hlocs in Hl. apply elem_of_seq in Hl. lia. }
  destruct (push_tasks_core m (cred :: credentials) [] (set_world w4 s) gs Hcore4)
    as (new & progs & K1 & K2 & K3 & K4 & K5 & K6 & K7 & K8 & K9).
  { intros u ua l Hu Hl. cbn. destruct (Hgroups u ua Hu) as (_ & _ & _ & Hin).
    destruct (Hin l Hl). lia. }
  destruct (push_tasks m (cred :: credentials) [] (set_world w4 s)) as [tasks s5].
  cbn [fst snd set_world world calls history pool app] in *.
  assert (Hk5 := K5). destruct Hk5 as (Ht5 & Hb5 & Hn5 & Hl5 & Hp5).
  assert (Hlen : length (pool s) = length gs).
  { eapply Forall2_length. apply (core_pool _ _ Hcore). }
  set (started := List.filter (starts m) (cred :: credentials)) in *.
  assert (Hstarted : forall c, c ∈ started -> c ∈ cred :: credentials /\ starts m c = true).
  { intros c Hc. apply list_elem_of_In, filter_In in Hc as [Hc1 Hc2].
    split; [apply list_elem_of_In; exact Hc1 | exact Hc2]. }
  assert (Hbud : forall j g, new !! j = Some g ->
            exists c, started !! j = Some c /\ started_with m w4 c g).
  { intros j g Hg. destruct (Forall2_lookup_r _ _ _ _ _ K8 Hg) as (c & Hc & Hsw). eauto. }
  assert (Hown5 : forall j g l, new !! j = Some g -> l ∈ budget g ->
            exists c ua, started !! j = Some c /\ m !! Cred.username c = Some ua
                         /\ l ∈ ua /\ NoDup (budget g)).
  { intros j g l Hg Hl. destruct (Hbud j g Hg) as (c & Hc & Hsw).
    unfold started_with in Hsw.
    destruct (slot m (Cred.username c)) as [[ua|len]|] eqn:Hslot.
    - destruct Hsw as (_ & Hin & Hnd & _). apply slot_Own in Hslot.
      exists c, ua. split; [exact Hc|]. split; [exact Hslot|].
      split; [apply (Hin l Hl)|]. apply Hnd. apply (Hgroups _ _ Hslot).
    - destruct Hsw as [_ Hnil]. rewrite Hnil in Hl. inversion Hl.
    - destruct Hsw as [_ Hnil]. rewrite Hnil in Hl. inversion Hl. }
  exists new. split.
  { apply inv_settle_calls.
    - apply (core_add_call s5 (gs ++ new)); [exact K1 | left; reflexivity |].
      cbn [children]. intros i Hi. rewrite K7 in Hi. apply elem_of_seq in Hi.
      destruct (new !! (i - length gs)%nat) as [g|] eqn:Hg.
      + exists g. split; [rewrite lookup_app_r by lia; exact Hg|].
        intros Hf. split.
        * destruct (Forall2_lookup_r _ _ _ _ _ K9 Hg) as (p & Hp & Hthrown).
          rewrite K4, lookup_app_r by lia. rewrite Hlen, Hp, (Hthrown Hf). reflexivity.
        * intros a o Hin. rewrite K3 in Hin.
          assert (Hlt := core_history _ _ Hcore _ _ _ Hin). lia.
      + apply lookup_ge_None in Hg. lia.
    - intros i g Hg Hne. cbn [calls children].
      apply lookup_app_Some in Hg as [Hg | [Hge Hg]].
      + destruct (Hown i g Hg Hne) as (c' & Hc' & Hi). exists c'.
        split; [|exact Hi]. rewrite K2. apply elem_of_app. auto.
      + eexists. split; [apply elem_of_app; right; apply list_elem_of_singleton; reflexivity|].
        cbn [children]. rewrite K7. apply elem_of_seq.
        apply lookup_lt_Some in Hg. lia. }
  cbn [settle_calls world].
  split; [congruence|]. split; [congruence|]. split; [lia|].
  split. { intros l Hl. rewrite Hp5. apply Hfrozen4. exact Hl. }
  split.
  { intros j g l Hg Hl. destruct (Hown5 j g l Hg Hl) as (c & ua & _ & Hua & Hin & _).
    destruct (Hgroups _ _ Hua) as (_ & _ & _ & Hrange). destruct (Hrange l Hin). lia. }
  split.
  { intros Hnames. split.
    { intros j g Hg. destruct (budget g) as [|l b] eqn:Hb; [constructor|].
      destruct (Hown5 j g l Hg) as (_ & _ & _ & _ & _ & Hnd);
        [rewrite Hb; apply elem_of_cons; auto | rewrite <- Hb; exact Hnd]. }
    intros j1 j2 g1 g2 l Hg1 Hg2 Hm1 Hm2.
    destruct (Hown5 j1 g1 l Hg1 Hm1) as (c1 & ua1 & Hc1 & Hua1 & Hin1 & _).
    destruct (Hown5 j2 g2 l Hg2 Hm2) as (c2 & ua2 & Hc2 & Hua2 & Hin2 & _).
    destruct (Hgroups _ _ Hua1) as (_ & _ & _ & Hr1). destruct (Hr1 l Hin1) as [_ Ha1].
    destruct (Hgroups _ _ Hua2) as (_ & _ & _ & Hr2). destruct (Hr2 l Hin2) as [_ Ha2].
    assert (Hnd : NoDup (Cred.username <$> started)).
    { apply (sublist_NoDup _ (Cred.username <$> cred :: credentials)).
      - rewrite Hcontent in Hdata.
        destruct (content (disk (world s))) as [| |cs0 as0] eqn:Hc; try discriminate.
        injection Hdata as <- <-. eapply Hnames. reflexivity.
      - apply fmap_sublist. apply List_filter_sublist. }
    apply (NoDup_lookup _ j1 j2 (Cred.username c1) Hnd).
    - rewrite list_lookup_fmap, Hc1. reflexivity.
    - rewrite list_lookup_fmap, Hc2. cbn. congruence. }
  apply (Hsched _ {| children := tasks; result := locs; status := Pending |} new);
    cbn [world calls children result status]; auto.
  - congruence.
  - congruence.
  - intros err _ Hf. discriminate.
  - intros _ (a & Ha & Hpl). exfalso. rewrite <- Hread in Ha.
    apply list_elem_of_fmap in Ha as (l & -> & Hl).
    rewrite forallb_forall in Hall. apply list_elem_of_In in Hl.
    rewrite (Hall l Hl) in Hpl. discriminate.
  - intros j g Hg Hf. destruct (Hbud j g Hg) as (c & Hc & Hsw).
    apply list_elem_of_lookup_2 in Hc. destruct (Hstarted c Hc) as [Hin Hst].
    unfold started_with in Hsw. unfold starts in Hst.
    destruct (slot m (Cred.username c)) as [[ua|[[|n]|]]|] eqn:Hslot; try discriminate.
    + destruct Hsw as [Hf' _]. congruence.
    + apply slot_Inherited in Hslot as [_ Hinh]. exists c, n. auto.
  - intros j g l Hg Hl. destruct (Hown5 j g l Hg Hl) as (c & ua & Hc & Hua & Hin & _).
    apply list_elem_of_lookup_2 in Hc. destruct (Hstarted c Hc) as [Hinc _].
    exists c. split; [exact Hinc|].
    destruct (Hgroups _ _ Hua) as (_ & _ & _ & Hr). destruct (Hr l Hin) as [_ Hacc].
    destruct K6 as [_ Hh6]. destruct (same_auction_fields _ _ (Hh6 l)) as (_ & _ & _ & _ & _ & Ha).
    congruence.
  - intros l c Hl He Hin Hu Hne. destruct K6 as [Hc6 Hh6].
    destruct (same_auction_fields _ _ (Hh6 l)) as (_ & _ & _ & Hbp & _ & Ha).
    rewrite Ha in Hu, Hne.
    assert (Hinl : l ∈ List.filter
                         (fun l => String.eqb (Auction.account (heap w4 !!! l))
                                     (Cred.username c)) locs).
    { apply filter_account. split; [|auto]. rewrite Hlocs. apply elem_of_seq. lia. }
    assert (Hmu : m !! Cred.username c
                  = Some (List.filter
                            (fun l => String.eqb (Auction.account (heap w4 !!! l))
                                        (Cred.username c)) locs)).
    { rewrite Hlk. rewrite Hu. apply String.eqb_neq in Hne. rewrite Hne.
      rewrite <- Hu. destruct (List.filter _ locs); [inversion Hinl | reflexivity]. }
    assert (Hst : starts m c = true).
    { unfold starts. apply slot_Own in Hmu. rewrite Hmu.
      destruct (List.filter _ locs); [inversion Hinl | reflexivity]. }
    assert (Hcs : c ∈ started).
    { apply list_elem_of_In, filter_In. split; [apply list_elem_of_In; exact Hin | exact Hst]. }
    apply list_elem_of_lookup_1 in Hcs as [j Hj].
    destruct (Forall2_lookup_l _ _ _ _ _ K8 Hj) as (g & Hg & Hsw).
    unfold started_with in Hsw. apply slot_Own in Hmu. rewrite Hmu in Hsw.
    destruct Hsw as (_ & _ & _ & Hcov).
    destruct (Hcov l Hinl) as [Hb | Hna].
    + rewrite <- He. symmetry. apply eligible_heap. exact Hbp.
    + left. exists j, g. auto.
    + right. left. apply (not_armable_steady w4); [split; assumption | exact Hna].
Qed.

End Fetch.

(** ** The invariants along a run *)

Section Steps.
Context `{Builtins}.

Lemma segment_nil_keeps w w' b' :
  segment w [] w' b' ->
  b' = [] /\ timers w' = timers w /\ bidTimeouts w' = bidTimeouts w
  /\ nextTimeoutId w' = nextTimeoutId w.
Proof.
  intros Hseg. remember [] as b eqn:Hb.
  induction Hseg as [w b | w w1 w' dropped rest b' Hd Hk Hs Hseg IH
                    | w w1 w' skipped auction rest b' Hsk He Ha Htd Hseg IH].
  - auto.
  - apply app_eq_nil in Hb as [-> ->]. destruct Hk as (Ht & Hbt & Hn & _).
    destruct (IH eq_refl) as (-> & -> & -> & ->). auto.
  - destruct skipped; discriminate.
Qed.

Lemma stable_fewer (s s' : Sys) (gs : list Ghost) :
  (forall id t, timers (world s') !! id = Some t -> timers (world s) !! id = Some t) ->
  nextTimeoutId (world s') = nextTimeoutId (world s) ->
  stable s s' gs gs.
Proof.
  intros Hsub Hn. split.
  - intros Ha Ho. eapply budgets_apart_fewer; eauto.
  - intros n P Hw Hle. split; [eapply within_fewer; eauto | lia].
Qed.

Lemma stable_spawn_nil (s s' : Sys) (gs : list Ghost) (f : bool) (w1 : World) :
  (forall id t, timers w1 !! id = Some t -> timers (world s) !! id = Some t) ->
  nextTimeoutId w1 = nextTimeoutId (world s) ->
  segment w1 [] (world s') [] ->
  stable s s' gs (gs ++ [{| budget := []; failed := f |}]).
Proof.
  intros Hsub Hn Hseg. destruct (segment_nil_keeps _ _ _ Hseg) as (_ & Ht & _ & Hn').
  unfold stable. rewrite fmap_app. cbn [fmap list_fmap budget]. split.
  - intros Ha Ho.
    destruct (budgets_apart_fewer (world s) (world s') (budget <$> gs)) as [Ha' Ho']; auto.
    { intros id t. rewrite Ht. auto. }
    split; [apply budgets_apart_snoc_nil; exact Ha' | exact Ho'].
  - intros n P Hw Hle. split; [|lia]. apply within_snoc_nil.
    eapply within_fewer; [|exact Hw]. intros id t. rewrite Ht. auto.
Qed.

Lemma evolves_fewer (w w' : World) :
  (forall id t, timers w' !! id = Some t -> timers w !! id = Some t) ->
  nextTimeoutId w' = nextTimeoutId w ->
  nextLoc w' = nextLoc w ->
  (forall l, Auction.bidProxy (heap w' !!! l) = Auction.bidProxy (heap w !!! l)) ->
  evolves w w'.
Proof. intros Hsub Hn Hl Hp. repeat split; [lia | lia | auto | auto]. Qed.

Lemma step_moves (e : Event) (s s' : Sys) (gs : list Ghost) :
  inv s gs ->
  step e s = Some s' ->
  exists gs',
    inv s' gs'
    /\ evolves (world s) (world s')
    /\ (e <> Invoke FetchAuctionsData -> stable s s' gs gs')
    /\ moves e s s' gs gs'.
Proof.
  intros Hinv Hstep. assert (Hinv' := Hinv). destruct Hinv' as (Hcore & Hown & Hpend).
  destruct e as [h | i o | id | ms]; cbn [step] in Hstep.
  - injection Hstep as <-. destruct h as [| | |updated|updated]; cbn [invoke].
    + destruct (fetch_inv s gs Hinv) as (new & Hi & Ht & Hn & Hl & Hp & _ & _ & Hsch).
      exists (gs ++ new). split; [exact Hi|]. split; [|split; [done|]].
      * repeat split; [lia | lia | | exact Hp].
        intros id t. rewrite Ht, lookup_empty. discriminate.
      * exists new. auto.
    + assert (Ht := clear_bidTimeouts_timers (world s) (core_recorded _ _ Hcore)).
      destruct (clear_bidTimeouts_rest (world s)) as (Hb & Hn & Hh & Hl & _).
      assert (Hsub : forall id t, timers (clear_bidTimeouts (world s)) !! id = Some t ->
                      timers (world s) !! id = Some t).
      { intros id t. rewrite Ht, lookup_empty. discriminate. }
      exists gs. split; [|split; [|split]].
      * apply inv_settle_calls; [|exact Hown]. apply core_set_world; auto.
        -- apply timers_recorded_empty. exact Ht.
        -- lia.
        -- intros l _. rewrite Hh. reflexivity.
      * cbn [settle_calls stop_update set_world world].
        apply evolves_fewer; auto. intros l. rewrite Hh. reflexivity.
      * intros _. apply stable_fewer; auto.
      * split; reflexivity.
    + destruct (core_spawn s gs close_all_windows [] true Hcore)
        as (_ & Hcalls & Hhist & b' & Hseg & Hcore').
      { apply task_ok_close_all_windows. }
      { intros l Hl. inversion Hl. }
      destruct (segment_nil_keeps _ _ _ Hseg) as (-> & Ht & Hb & Hn).
      exists (gs ++ [{| budget := []; failed := true |}]). split; [|split; [|split]].
      * apply inv_settle_calls; [exact Hcore'|].
        intros i g Hg Hne. apply lookup_app_Some in Hg as [Hg | [_ Hg]].
        -- rewrite Hcalls. eauto.
        -- apply list_lookup_singleton_Some in Hg as [_ <-]. done.
      * eapply segment_evolves. exact Hseg.
      * intros _. apply (stable_spawn_nil s _ gs true (world s)); auto.
      * split; [reflexivity | exact Hseg].
    + unfold save_auctions.
      assert (Hk1 := loadData_keeps (console_log (LIpc "save-auctions") (world s))).
      assert (Hs1 := loadData_steady (console_log (LIpc "save-auctions") (world s))).
      destruct (loadData _) as [[credentials auctions] w1]. cbn [snd] in Hk1, Hs1.
      assert (Hk : keeps (world s) (saveData credentials updated w1).2).
      { eapply keeps_trans; [apply keeps_console_log|].
        eapply keeps_trans; [exact Hk1 | apply saveData_keeps]. }
      assert (Hsd : steady (world s) (saveData credentials updated w1).2).
      { eapply steady_trans; [apply steady_console_log|].
        eapply steady_trans; [exact Hs1 | apply saveData_steady]. }
      exists gs. split; [|split; [|split]].
      * apply inv_settle_calls; [|exact Hown]. apply core_keeps; assumption.
      * apply keeps_evolves. exact Hk.
      * intros _. destruct Hk as (Ht & _ & Hn & _).
        apply stable_fewer; cbn; [intros id t; rewrite Ht; auto | exact Hn].
      * split; [exact Hk | split; [exact Hsd | reflexivity]].
    + unfold save_credentials.
      assert (Hk1 := loadData_keeps (console_log (LIpc "save-credentials") (world s))).
      assert (Hs1 := loadData_steady (console_log (LIpc "save-credentials") (world s))).
      destruct (loadData _) as [[credentials auctions] w1]. cbn [snd] in Hk1, Hs1.
      assert (Hk : keeps (world s) (saveData updated auctions w1).2).
      { eapply keeps_trans; [apply keeps_console_log|].
        eapply keeps_trans; [exact Hk1 | apply saveData_keeps]. }
      assert (Hsd : steady (world s) (saveData updated auctions w1).2).
      { eapply steady_trans; [apply steady_console_log|].
        eapply steady_trans; [exact Hs1 | apply saveData_steady]. }
      exists gs. split; [|split; [|split]].
      * apply inv_settle_calls; [|exact Hown]. apply core_keeps; assumption.
      * apply keeps_evolves. exact Hk.
      * intros _. destruct Hk as (Ht & _ & Hn & _).
        apply stable_fewer; cbn; [intros id t; rewrite Ht; auto | exact Hn].
      * split; [exact Hk | split; [exact Hsd | reflexivity]].
  - destruct (pool s !! i) as [[| | | |a k]|] eqn:Hp; try discriminate.
    destruct (valid_outcome a o) eqn:Hvalid; [|discriminate].
    destruct (core_ghost s gs i (Await a k) Hcore Hp) as (g & Hg).
    destruct (core_settle s gs i a k o g Hcore Hp Hg Hvalid) as (b' & Hseg & Hcore').
    destruct (run_sync (k o) (world s)) as [w' p'].
    injection Hstep as <-. cbn [fst snd] in *.
    exists (<[i := {| budget := b'; failed := failed g || open_failed a o |}]> gs).
    split; [|split; [|split]].
    + apply inv_settle_calls; [exact Hcore'|].
      intros j g' Hg' Hne. cbn [calls].
      destruct (decide (i = j)) as [<-|Hneq].
      * rewrite list_lookup_insert_eq in Hg' by (eapply lookup_lt_Some; eauto).
        injection Hg' as <-. cbn [budget] in Hne. apply (Hown i g Hg).
        intros Hnil. rewrite Hnil in Hseg.
        destruct (segment_nil_keeps _ _ _ Hseg) as (-> & _). done.
      * rewrite list_lookup_insert_ne in Hg' by done. eauto.
    + eapply segment_evolves. exact Hseg.
    + intros _. unfold stable. cbn [settle_calls world]. rewrite list_fmap_insert.
      cbn [budget]. split.
      * intros Ha Ho. eapply budgets_apart_update; eauto.
        -- apply (core_recorded _ _ Hcore).
        -- rewrite list_lookup_fmap, Hg. reflexivity.
      * intros n P Hw Hle. eapply within_update; eauto.
        rewrite list_lookup_fmap, Hg. reflexivity.
    + exists g, b', (failed g || open_failed a o). auto.
  - destruct (timers (world s) !! id) as [t|] eqn:Hid; [|discriminate].
    destruct (due t <=? clock (world s)) eqn:Hdue; [|discriminate].
    apply Z.leb_le in Hdue.
    cbv zeta in Hstep. injection Hstep as <-.
    assert (Hsub : forall id' t', timers (clearTimeout id (world s)) !! id' = Some t' ->
                     timers (world s) !! id' = Some t').
    { intros id' t'. cbn. rewrite lookup_delete_Some. tauto. }
    assert (Hcore1 : core (set_world (clearTimeout id (world s)) s) gs).
    { apply core_set_world; auto.
      intros id' t' Hid'. apply (core_recorded _ _ Hcore id' t'). apply Hsub. exact Hid'. }
    destruct (core_spawn _ gs (timer_callback t) [] false Hcore1)
      as (_ & Hcalls & Hhist & b' & Hseg & Hcore').
    { apply task_ok_timer_callback. }
    { intros l Hl. inversion Hl. }
    destruct (segment_nil_keeps _ _ _ Hseg) as (-> & Ht & Hb & Hn).
    exists (gs ++ [{| budget := []; failed := false |}]). split; [|split; [|split]].
    + apply inv_settle_calls; [exact Hcore'|].
      intros i g Hg Hne. apply lookup_app_Some in Hg as [Hg | [_ Hg]].
      * destruct (Hown i g Hg Hne) as (c & Hc & Hi). exists c. split; [exact Hc | exact Hi].
      * apply list_lookup_singleton_Some in Hg as [_ <-]. done.
    + eapply evolves_trans; [|eapply segment_evolves; exact Hseg].
      apply evolves_fewer; auto.
    + intros _. apply (stable_spawn_nil s _ gs false (clearTimeout id (world s))); auto.
    + exists t. auto.
  - destruct (0 <=? ms) eqn:Hms; [|discriminate]. injection Hstep as <-.
    apply Z.leb_le in Hms.
    assert (Hk : keeps (world s) (set_clock (clock (world s) + ms) (world s)))
      by (repeat split).
    exists gs. split; [|split; [|split]].
    + split; [apply core_keeps; assumption | split; assumption].
    + apply keeps_evolves. exact Hk.
    + intros _. apply stable_fewer; auto.
    + split; [exact Hms | split; reflexivity].
Qed.

Lemma step_inv (e : Event) (s s' : Sys) (gs : list Ghost) :
  inv s gs ->
  step e s = Some s' ->
  exists gs',
    inv s' gs'
    /\ evolves (world s) (world s')
    /\ (e <> Invoke FetchAuctionsData -> stable s s' gs gs').
Proof.
  intros Hinv Hstep.
  destruct (step_moves e s s' gs Hinv Hstep) as (gs' & H1 & H2 & H3 & _). eauto.
Qed.

End Steps.

(** ** Time, deadlines and what a run keeps *)

Section Timing.
Context `{Builtins}.

Lemma same_auction_time (a a' : Auction.t) (now : Z) :
  same_auction a a' ->
  no_time a' = no_time a /\ time_diff a' now = time_diff a now.
Proof.
  intros Hs. destruct (same_auction_fields _ _ Hs) as (_ & Ht & _).
  unfold no_time, time_diff. rewrite Ht. auto.
Qed.

Lemma steady_lasting (w w' : World) :
  steady w w' -> nextLoc w' = nextLoc w -> lasting w w'.
Proof. intros [Hc Hh] Hl. split; [lia|]. split; [lia | auto]. Qed.

Lemma lasting_refl (w : World) : lasting w w.
Proof. split; [lia|]. split; [lia|]. intros l _. apply same_auction_refl. Qed.

Lemma lasting_trans (w1 w2 w3 : World) : lasting w1 w2 -> lasting w2 w3 -> lasting w1 w3.
Proof.
  intros (Hc1 & Hl1 & Hh1) (Hc2 & Hl2 & Hh2). split; [lia|]. split; [lia|].
  intros l Hl. eapply same_auction_trans; [apply Hh1; exact Hl | apply Hh2; lia].
Qed.

Lemma clearTimeout_steady (id : nat) (w : World) : steady w (clearTimeout id w).
Proof. split; [reflexivity | intros l; apply same_auction_refl]. Qed.

(** Whatever happens, time does not run backwards and the auction
    objects stay what they are. *)
Lemma moves_lasting (e : Event) (s s' : Sys) (gs gs' : list Ghost) :
  moves e s s' gs gs' -> lasting (world s) (world s').
Proof.
  destruct e as [[| | |updated|updated] | i o | id | ms]; cbn [moves].
  - intros (new & _ & Hsch & _). split; [rewrite (sch_clock _ _ _ _ Hsch); lia|].
    split; [rewrite (sch_nextLoc _ _ _ _ Hsch); lia | apply (sch_heap _ _ _ _ Hsch)].
  - intros [-> _].
    destruct (clear_bidTimeouts_rest (world s)) as (_ & _ & Hh & Hl & _ & _ & Hc & _).
    split; [lia|]. split; [lia|]. intros l _. rewrite Hh. apply same_auction_refl.
  - intros [_ Hseg]. apply steady_lasting; [eapply segment_steady; eauto|].
    apply (segment_frozen _ _ _ _ Hseg).
  - intros ((_ & _ & _ & Hl & _) & Hs & _). apply steady_lasting; assumption.
  - intros ((_ & _ & _ & Hl & _) & Hs & _). apply steady_lasting; assumption.
  - intros (g & b' & f & _ & _ & Hseg). apply steady_lasting; [eapply segment_steady; eauto|].
    apply (segment_frozen _ _ _ _ Hseg).
  - intros (t & _ & _ & _ & Hseg).
    apply (steady_lasting (world s)).
    + eapply steady_trans; [apply (clearTimeout_steady id) | eapply segment_steady; eauto].
    + apply (segment_frozen _ _ _ _ Hseg).
  - intros (Hms & -> & _). split; [cbn; lia|]. split; [reflexivity|].
    intros l _. apply same_auction_refl.
Qed.

Lemma timers_timed_steady (w w' : World) :
  steady w w' ->
  (forall id t, timers w' !! id = Some t -> timers w !! id = Some t) ->
  timers_timed w -> timers_timed w'.
Proof.
  intros [Hc Hh] Hsub Htimed id t Hid.
  destruct (Htimed id t (Hsub id t Hid)) as (H1 & H2 & H3 & H4).
  destruct (same_auction_time _ _ (armedAt t) (Hh (cb_auction t))) as [Hn Hd].
  split; [lia|]. split; [congruence|]. split; [congruence | exact H4].
Qed.

Lemma segment_timed w b w' b' :
  segment w b w' b' ->
  (forall id t, timers w !! id = Some t -> (id < nextTimeoutId w)%nat) ->
  timers_timed w -> timers_timed w'.
Proof.
  intros Hseg Hids Htimed id t Hid.
  destruct (segment_effect _ _ _ _ Hseg Hids) as (_ & _ & _ & E4 & _).
  assert (Hs := segment_steady _ _ _ _ Hseg). destruct Hs as [Hc Hh].
  destruct (same_auction_time _ _ (armedAt t) (Hh (cb_auction t))) as [Hn Hd].
  destruct (segment_evolves _ _ _ _ Hseg) as (_ & _ & Hold & _).
  destruct (Hold id t Hid) as [Hwas | Hnew].
  - destruct (Htimed id t Hwas) as (H1 & H2 & H3 & H4).
    split; [lia|]. split; [congruence|]. split; [congruence | exact H4].
  - destruct (E4 id t Hid Hnew) as (_ & H1 & H2 & H3 & H4).
    split; [lia|]. split; [congruence|]. split; [|exact H4].
    rewrite Hd, H1. exact H3.
Qed.

Lemma timers_timed_empty (w : World) : timers w = ∅ -> timers_timed w.
Proof. intros He id t. rewrite He, lookup_empty. discriminate. Qed.

Lemma moves_timed (e : Event) (s s' : Sys) (gs gs' : list Ghost) :
  inv s gs -> moves e s s' gs gs' ->
  timers_timed (world s) -> timers_timed (world s').
Proof.
  intros (Hcore & _) Hm Htimed.
  assert (Hids : forall id t, timers (world s) !! id = Some t ->
            (id < nextTimeoutId (world s))%nat).
  { intros id t Hid. apply (core_recorded _ _ Hcore id t Hid). }
  destruct e as [[| | |updated|updated] | i o | id | ms]; cbn [moves] in Hm.
  - destruct Hm as (new & _ & _ & Ht). apply timers_timed_empty. exact Ht.
  - destruct Hm as [-> _]. apply timers_timed_empty.
    apply clear_bidTimeouts_timers. apply (core_recorded _ _ Hcore).
  - destruct Hm as [_ Hseg]. eapply segment_timed; eauto.
  - destruct Hm as ((Ht & _) & Hs & _).
    eapply timers_timed_steady; eauto. intros id t. rewrite Ht. auto.
  - destruct Hm as ((Ht & _) & Hs & _).
    eapply timers_timed_steady; eauto. intros id t. rewrite Ht. auto.
  - destruct Hm as (g & b' & f & _ & _ & Hseg). eapply segment_timed; eauto.
  - destruct Hm as (t & _ & _ & _ & Hseg).
    eapply (segment_timed (clearTimeout id (world s))); [exact Hseg | |].
    + intros id' t'. cbn. rewrite lookup_delete_Some. intros [_ Hid']. eauto.
    + apply (timers_timed_steady (world s)); [apply clearTimeout_steady | | exact Htimed].
      intros id' t'. cbn. rewrite lookup_delete_Some. tauto.
  - destruct Hm as (Hms & -> & _). intros id t Hid.
    destruct (Htimed id t Hid) as (H1 & H2 & H3 & H4). cbn. split; [lia | auto].
Qed.

Lemma punctual_earlier (c0 : Z) (w w' : World) (l : nat) :
  clock w <= clock w' ->
  same_auction (heap w !!! l) (heap w' !!! l) ->
  punctual c0 w' l -> punctual c0 w l.
Proof.
  intros Hc Hh (Hn & d & Hd & Hlt & Hmax).
  destruct (same_auction_fields _ _ Hh) as (_ & Ht & _).
  unfold punctual, no_time in *. rewrite Ht in *.
  split; [exact Hn|]. exists d. split; [exact Hd|]. split; [lia | exact Hmax].
Qed.

Lemma punctual_armable (c0 : Z) (w : World) (l : nat) :
  punctual c0 w l -> not_armable w l -> False.
Proof.
  intros (Hn & d & Hd & Hlt & _) [Hna | Hna]; [congruence|].
  unfold time_diff in Hna. rewrite Hd in Hna. cbn in Hna. apply Z.leb_le in Hna. lia.
Qed.

(** A timer for an auction whose deadline is still ahead is not due. *)
Lemma punctual_not_due (c0 : Z) (w : World) (t : Timer) :
  armedAt t <= clock w ->
  no_time (heap w !!! cb_auction t) = false ->
  delay t = time_diff (heap w !!! cb_auction t) (armedAt t) ->
  le0 (delay t) = false ->
  c0 <= armedAt t ->
  punctual c0 w (cb_auction t) -> clock w < due t.
Proof.
  intros H1 H2 H3 H4 H0 (_ & d & Hd & Hlt & Hmax).
  unfold due. rewrite H3 in *. unfold time_diff in *. rewrite Hd in *. cbn in *.
  apply Z.leb_gt in H4.
  replace ((1 <=? d - armedAt t) && (d - armedAt t <=? 2147483647)) with true; [lia|].
  symmetry. apply andb_true_iff. split; apply Z.leb_le; lia.
Qed.

Lemma complete_mono (c0 : Z) (L : nat -> Prop) (kids : list nat) (w w' : World)
    (gs gs' : list Ghost) :
  clock w <= clock w' ->
  (forall l, same_auction (heap w !!! l) (heap w' !!! l)) ->
  (forall id t, timers w' !! id = Some t ->
                timers w !! id = Some t \/ clock w <= armedAt t) ->
  (forall l, L l -> punctual c0 w' l ->
     ((exists i g, i ∈ kids /\ gs !! i = Some g /\ l ∈ budget g)
      \/ (exists id t, timers w !! id = Some t /\ cb_auction t = l)) ->
     (exists i g, i ∈ kids /\ gs' !! i = Some g /\ l ∈ budget g)
     \/ (exists id t, timers w' !! id = Some t /\ cb_auction t = l)) ->
  complete c0 L kids w gs -> complete c0 L kids w' gs'.
Proof.
  intros Hc Hh Hnew Hcov (C1 & C2 & C3). split; [lia|]. split.
  - intros id t Hid. destruct (Hnew id t Hid) as [Hold | Hge]; [eauto | lia].
  - intros l Hl Hp. apply (Hcov l Hl Hp). apply (C3 l Hl).
    eapply punctual_earlier; eauto.
Qed.

Lemma complete_segment (c0 : Z) (L : nat -> Prop) (kids : list nat) (w w' : World)
    (gs : list Ghost) (i : nat) (g : Ghost) (b' : list nat) (f : bool) :
  (forall id t, timers w !! id = Some t -> (id < nextTimeoutId w)%nat) ->
  gs !! i = Some g ->
  segment w (budget g) w' b' ->
  complete c0 L kids w gs ->
  complete c0 L kids w' (<[i := {| budget := b'; failed := f |}]> gs).
Proof.
  intros Hids Hg Hseg Hcomplete.
  destruct (segment_effect _ _ _ _ Hseg Hids) as (_ & E2 & _ & E4 & E5).
  assert (Hs := segment_steady _ _ _ _ Hseg). destruct Hs as [Hc Hh].
  destruct (segment_evolves _ _ _ _ Hseg) as (_ & _ & Hold & _).
  apply (complete_mono c0 L kids w w' gs); [lia | exact Hh | | | exact Hcomplete].
  - intros id t Hid. destruct (Hold id t Hid) as [Hwas | Hnew]; [auto|].
    right. destruct (E4 id t Hid Hnew) as (_ & -> & _). lia.
  - intros l Hl Hp [(j & gj & Hj & Hgj & Hin) | (id & t & Hid & Hcb)].
    + destruct (decide (i = j)) as [<-|Hne].
      * assert (gj = g) by congruence. subst gj.
        destruct (E5 l Hin) as [Hb' | [Hna | (id & t & Hid & Hcb & _)]].
        -- left. exists i. eexists. split; [exact Hj|].
           rewrite list_lookup_insert_eq by (eapply lookup_lt_Some; eauto).
           split; [reflexivity | exact Hb'].
        -- exfalso. apply (punctual_armable c0 w l); [|exact Hna].
           eapply punctual_earlier; [| |exact Hp]; [lia | apply Hh].
        -- right. eauto.
      * left. exists j, gj. rewrite list_lookup_insert_ne by done. auto.
    + right. exists id, t. auto.
Qed.

Lemma complete_quiet (c0 : Z) (L : nat -> Prop) (kids : list nat) (w w' : World)
    (gs gs' : list Ghost) :
  clock w <= clock w' ->
  (forall l, same_auction (heap w !!! l) (heap w' !!! l)) ->
  (forall id t, timers w' !! id = Some t <-> timers w !! id = Some t) ->
  (forall i g, gs !! i = Some g -> gs' !! i = Some g) ->
  complete c0 L kids w gs -> complete c0 L kids w' gs'.
Proof.
  intros Hc Hh Ht Hgs. apply complete_mono; auto.
  - intros id t Hid. left. apply Ht. exact Hid.
  - intros l Hl Hp [(j & gj & Hj & Hgj & Hin) | (id & t & Hid & Hcb)].
    + left. exists j, gj. auto.
    + right. exists id, t. split; [apply Ht; exact Hid | exact Hcb].
Qed.

Lemma segment_nil_timers w w' b' :
  segment w [] w' b' ->
  steady w w' /\ forall id t, timers w' !! id = Some t <-> timers w !! id = Some t.
Proof.
  intros Hseg. split; [eapply segment_steady; eauto|].
  destruct (segment_nil_keeps _ _ _ Hseg) as (_ & Ht & _). intros id t. rewrite Ht. tauto.
Qed.

(** Between scheduling calls and cancellations no auction gets lost. *)
Lemma moves_complete (e : Event) (s s' : Sys) (gs gs' : list Ghost)
    (c0 : Z) (L : nat -> Prop) (kids : list nat) :
  inv s gs -> moves e s s' gs gs' ->
  e <> Invoke FetchAuctionsData ->
  (e = Invoke StopUpdate -> forall l, ~ L l) ->
  timers_timed (world s) ->
  complete c0 L kids (world s) gs -> complete c0 L kids (world s') gs'.
Proof.
  intros (Hcore & _) Hm Hnf Hns Htimed Hcomplete.
  assert (Hids : forall id t, timers (world s) !! id = Some t ->
            (id < nextTimeoutId (world s))%nat).
  { intros id t Hid. apply (core_recorded _ _ Hcore id t Hid). }
  destruct e as [[| | |updated|updated] | i o | id | ms]; cbn [moves] in Hm; try done.
  - destruct Hm as [Hw ->]. destruct Hcomplete as (C1 & _).
    destruct (clear_bidTimeouts_rest (world s)) as (_ & _ & _ & _ & _ & _ & Hc & _).
    rewrite Hw. split; [lia|]. split.
    + intros id t. rewrite clear_bidTimeouts_timers by apply (core_recorded _ _ Hcore).
      rewrite lookup_empty. discriminate.
    + intros l Hl. destruct (Hns eq_refl l Hl).
  - destruct Hm as [-> Hseg]. destruct (segment_nil_timers _ _ _ Hseg) as [[Hc Hh] Ht].
    apply (complete_quiet c0 L kids (world s) (world s') gs); auto; [lia|].
    intros i g Hg. apply lookup_app_l_Some. exact Hg.
  - destruct Hm as ((Ht & _) & [Hc Hh] & ->).
    apply (complete_quiet c0 L kids (world s) (world s') gs); auto; [lia|].
    intros id t. rewrite Ht. tauto.
  - destruct Hm as ((Ht & _) & [Hc Hh] & ->).
    apply (complete_quiet c0 L kids (world s) (world s') gs); auto; [lia|].
    intros id t. rewrite Ht. tauto.
  - destruct Hm as (g & b' & f & Hg & -> & Hseg). eapply complete_segment; eauto.
  - destruct Hm as (t & Hid & Hdue & -> & Hseg).
    destruct (segment_nil_timers _ _ _ Hseg) as [[Hc Hh] Ht].
    cbn [clearTimeout set_timing clock heap] in Hc, Hh.
    apply (complete_mono c0 L kids (world s) (world s') gs); auto; [lia | |].
    + intros id' t' Hid'. left. apply Ht in Hid'. cbn in Hid'.
      apply lookup_delete_Some in Hid'. tauto.
    + intros l Hl Hp [(j & gj & Hj & Hgj & Hin) | (id' & t' & Hid' & Hcb)].
      * left. exists j, gj. split; [exact Hj|]. split; [|exact Hin].
        apply lookup_app_l_Some. exact Hgj.
      * right. exists id', t'. split; [|exact Hcb]. apply Ht. cbn.
        apply lookup_delete_Some. split; [|exact Hid'].
        intros <-. assert (t' = t) by congruence. subst t'.
        destruct (Htimed id t Hid) as (H1 & H2 & H3 & H4).
        destruct Hcomplete as (_ & Harm & _).
        assert (Hlt : clock (world s) < due t).
        { apply (punctual_not_due c0); auto; [eapply Harm; eauto|].
          rewrite Hcb. eapply punctual_earlier; [| |exact Hp]; [lia | apply Hh]. }
        lia.
  - destruct Hm as (Hms & -> & ->).
    apply (complete_quiet c0 L kids (world s) _ gs);
      [cbn; lia | intros l; apply same_auction_refl | intros id t; cbn; tauto
      | auto | exact Hcomplete].
Qed.

End Timing.

(** ** What a run keeps of the calls and of the pool *)

Lemma settle_calls_kept (s : Sys) (i : nat) (c : Call) :
  calls s !! i = Some c ->
  exists c', calls (settle_calls s) !! i = Some c'
             /\ children c' = children c /\ result c' = result c
             /\ (status c <> Pending -> status c' = status c).
Proof.
  intros Hc. exists (settle_call s c). cbn [settle_calls calls].
  rewrite list_lookup_fmap, Hc. split; [reflexivity|].
  destruct (settle_call_fields s c) as [-> ->]. split; [reflexivity|]. split; [reflexivity|].
  unfold settle_call. destruct (status c) eqn:Hst; try (rewrite Hst; reflexivity). done.
Qed.

Lemma calls_kept_refl (s : Sys) : calls_kept s s.
Proof. split; [lia|]. intros i c Hc. exists c. auto. Qed.

Lemma calls_kept_trans (s1 s2 s3 : Sys) :
  calls_kept s1 s2 -> calls_kept s2 s3 -> calls_kept s1 s3.
Proof.
  intros [Hl1 H1] [Hl2 H2]. split; [lia|]. intros i c Hc.
  destruct (H1 i c Hc) as (c' & Hc' & Hch & Hres & Hst).
  destruct (H2 i c' Hc') as (c'' & Hc'' & Hch' & Hres' & Hst').
  exists c''. split; [exact Hc''|]. split; [congruence|]. split; [congruence|].
  intros Hne. rewrite Hst', Hst by (rewrite ?Hst; auto). reflexivity.
Qed.

(** ** The calls and the pool along a run *)

Lemma step_calls_kept `{Builtins} (e : Event) (s s' : Sys) :
  step e s = Some s' -> calls_kept s s'.
Proof.
  intros Hstep.
  assert (Hsettle : forall X, calls X = calls s -> calls_kept s (settle_calls X)).
  { intros X HX. split; [cbn; rewrite length_fmap, HX; lia|].
    intros i c Hc. apply settle_calls_kept. rewrite HX. exact Hc. }
  assert (Hsnoc : forall X c0, calls X = calls s ++ [c0] -> calls_kept s (settle_calls X)).
  { intros X c0 HX. split; [cbn; rewrite length_fmap, HX, length_app; lia|].
    intros i c Hc. apply settle_calls_kept. rewrite HX. apply lookup_app_l_Some. exact Hc. }
  destruct e as [[| | |updated|updated] | i o | id | ms]; cbn [step invoke] in Hstep.
  - injection Hstep as <-. unfold fetch_auctions_data. cbv zeta.
    destruct (loadData _) as [[credentials auctions] w3].
    destruct (alloc_auctions auctions w3) as [locs w4].
    destruct credentials as [|cred credentials]; [|destruct auctions as [|a auctions]];
      try (eapply Hsnoc; reflexivity).
    destruct (group_by_account w4 locs) as [m|]; [|eapply Hsnoc; reflexivity].
    assert (Hcalls : forall creds tasks X, calls (push_tasks m creds tasks X).2 = calls X).
    { induction creds as [|c creds IH]; intros tasks X; cbn [push_tasks]; [reflexivity|].
      destruct (slot m (Cred.username c)) as [[[|l ua]|[[|n]|]]|]; try apply IH.
      - unfold spawn. destruct (run_sync _ (world X)) as [w' p']. rewrite IH. reflexivity.
      - unfold spawn. cbn [run_sync]. rewrite IH. reflexivity. }
    specialize (Hcalls (cred :: credentials) [] (set_world w4 s)).
    destruct (push_tasks m (cred :: credentials) [] (set_world w4 s)) as [tasks s5].
    cbn [snd set_world calls] in Hcalls. eapply Hsnoc. cbn [calls]. rewrite Hcalls. reflexivity.
  - injection Hstep as <-. apply Hsettle. reflexivity.
  - injection Hstep as <-. apply Hsettle. unfold spawn.
    destruct (run_sync close_all_windows (world s)) as [w' p']. reflexivity.
  - injection Hstep as <-. apply Hsettle. unfold save_auctions.
    destruct (loadData _) as [[credentials auctions] w1]. reflexivity.
  - injection Hstep as <-. apply Hsettle. unfold save_credentials.
    destruct (loadData _) as [[credentials auctions] w1]. reflexivity.
  - destruct (pool s !! i) as [[| | | |a k]|]; try discriminate.
    destruct (valid_outcome a o); [|discriminate].
    destruct (run_sync (k o) (world s)) as [w' p']. injection Hstep as <-.
    apply Hsettle. reflexivity.
  - destruct (timers (world s) !! id) as [t|]; [|discriminate].
    destruct (due t <=? clock (world s)); [|discriminate].
    cbv zeta in Hstep. injection Hstep as <-. apply Hsettle. reflexivity.
  - destruct (0 <=? ms); [|discriminate]. injection Hstep as <-.
    split; [reflexivity|]. intros i c Hc. exists c. auto.
Qed.

Lemma run_calls_kept `{Builtins} (es : list Event) :
  forall s s', run es s = Some s' -> calls_kept s s'.
Proof.
  induction es as [|e es IH]; intros s s' Hrun; cbn [run] in Hrun.
  - injection Hrun as <-. apply calls_kept_refl.
  - destruct (step e s) as [s1|] eqn:Hstep; [|discriminate].
    eapply calls_kept_trans; [eapply step_calls_kept; eauto | eauto].
Qed.

Lemma pool_kept_refl (s : Sys) : pool_kept s s.
Proof. split; auto. Qed.

Lemma pool_kept_trans (s1 s2 s3 : Sys) : pool_kept s1 s2 -> pool_kept s2 s3 -> pool_kept s1 s3.
Proof.
  intros [Hh1 H1] [Hh2 H2]. split; [auto|]. intros i p Hp.
  destruct (H1 i p Hp) as [Hp' | (a & o & Hin)]; [auto|]. right. exists a, o. auto.
Qed.

Lemma pool_kept_grows (s s' : Sys) (progs : list Prog) :
  pool s' = pool s ++ progs -> history s' = history s -> pool_kept s s'.
Proof.
  intros Hp Hh. split; [rewrite Hh; auto|]. intros i p Hi. left. rewrite Hp.
  apply lookup_app_l_Some. exact Hi.
Qed.

Lemma push_tasks_grows `{Builtins} (m : gmap string (list nat)) (creds : list Cred.t) :
  forall tasks X,
    exists progs, pool (push_tasks m creds tasks X).2 = pool X ++ progs
                  /\ history (push_tasks m creds tasks X).2 = history X.
Proof.
  induction creds as [|c creds IH]; intros tasks X; cbn [push_tasks].
  { exists []. rewrite app_nil_r. auto. }
  assert (Hspawn : forall p tasks',
            exists progs,
              pool (push_tasks m creds tasks' (spawn p X).2).2 = pool X ++ progs
              /\ history (push_tasks m creds tasks' (spawn p X).2).2 = history X).
  { intros p tasks'. destruct (IH tasks' (spawn p X).2) as (progs & Hp & Hh).
    unfold spawn in *. destruct (run_sync p (world X)) as [w' p']. cbn [snd pool history] in *.
    exists (p' :: progs). rewrite Hp, <- app_assoc. auto. }
  destruct (slot m (Cred.username c)) as [[[|l ua]|[[|n]|]]|]; try apply IH.
  - specialize (Hspawn (handleUserBids c (l :: ua)) (tasks ++ [(spawn (handleUserBids c (l :: ua)) X).1])).
    destruct (spawn (handleUserBids c (l :: ua)) X) as [task X1]. exact Hspawn.
  - specialize (Hspawn (Throw filter_error) (tasks ++ [(spawn (Throw filter_error) X).1])).
    destruct (spawn (Throw filter_error) X) as [task X1]. exact Hspawn.
Qed.

Lemma step_pool_kept `{Builtins} (e : Event) (s s' : Sys) :
  step e s = Some s' -> pool_kept s s'.
Proof.
  intros Hstep.
  destruct e as [[| | |updated|updated] | i o | id | ms]; cbn [step invoke] in Hstep.
  - injection Hstep as <-. unfold fetch_auctions_data. cbv zeta.
    destruct (loadData _) as [[credentials auctions] w3].
    destruct (alloc_auctions auctions w3) as [locs w4].
    destruct credentials as [|cred credentials]; [|destruct auctions as [|a auctions]];
      try (split; cbn; auto; fail).
    destruct (group_by_account w4 locs) as [m|]; [|split; cbn; auto].
    destruct (push_tasks_grows m (cred :: credentials) [] (set_world w4 s)) as (progs & Hp & Hh).
    destruct (push_tasks m (cred :: credentials) [] (set_world w4 s)) as [tasks s5].
    eapply pool_kept_grows; [exact Hp | exact Hh].
  - injection Hstep as <-. split; cbn; auto.
  - injection Hstep as <-. unfold spawn.
    destruct (run_sync close_all_windows (world s)) as [w' p'].
    apply (pool_kept_grows s _ [p']); reflexivity.
  - injection Hstep as <-. unfold save_auctions.
    destruct (loadData _) as [[credentials auctions] w1]. split; cbn; auto.
  - injection Hstep as <-. unfold save_credentials.
    destruct (loadData _) as [[credentials auctions] w1]. split; cbn; auto.
  - destruct (pool s !! i) as [[| | | |a k]|] eqn:Hi; try discriminate.
    destruct (valid_outcome a o); [|discriminate].
    destruct (run_sync (k o) (world s)) as [w' p']. injection Hstep as <-.
    split; cbn [settle_calls history pool].
    + intros x Hx. apply elem_of_app. auto.
    + intros j p Hj. destruct (decide (i = j)) as [<-|Hne].
      * right. exists a, o. apply elem_of_app. right. apply list_elem_of_singleton. reflexivity.
      * left. rewrite list_lookup_insert_ne by done. exact Hj.
  - destruct (timers (world s) !! id) as [t|]; [|discriminate].
    destruct (due t <=? clock (world s)); [|discriminate].
    cbv zeta in Hstep. injection Hstep as <-.
    eapply (pool_kept_grows s _ [_]); reflexivity.
  - destruct (0 <=? ms); [|discriminate]. injection Hstep as <-. split; auto.
Qed.

Lemma run_pool_kept `{Builtins} (es : list Event) :
  forall s s', run es s = Some s' -> pool_kept s s'.
Proof.
  induction es as [|e es IH]; intros s s' Hrun; cbn [run] in Hrun.
  - injection Hrun as <-. split; cbn; auto.
  - destruct (step e s) as [s1|] eqn:Hstep; [|discriminate].
    eapply pool_kept_trans; [eapply step_pool_kept; eauto | eauto].
Qed.

(** One step settles the calls there were and, if it is a scheduling
    call, adds one. *)
Lemma step_calls `{Builtins} (e : Event) (s s' : Sys) :
  step e s = Some s' ->
  (length (calls s') = length (calls s) \/ e = Invoke FetchAuctionsData)
  /\ forall i c, calls s !! i = Some c ->
       calls s' !! i = Some c \/ calls s' !! i = Some (settle_call s' c).
Proof.
  intros Hstep.
  assert (Hsettle : forall X, calls X = calls s ->
            length (calls (settle_calls X)) = length (calls s)
            /\ forall i c, calls s !! i = Some c ->
                 calls (settle_calls X) !! i = Some (settle_call (settle_calls X) c)).
  { intros X HX. split; [cbn; rewrite length_fmap, HX; reflexivity|].
    intros i c Hc. cbn [settle_calls calls]. rewrite list_lookup_fmap, HX, Hc. reflexivity. }
  assert (Hsnoc : forall X c0, calls X = calls s ++ [c0] ->
            forall i c, calls s !! i = Some c ->
              calls (settle_calls X) !! i = Some (settle_call (settle_calls X) c)).
  { intros X c0 HX i c Hc. cbn [settle_calls calls].
    rewrite list_lookup_fmap, HX, (lookup_app_l_Some _ _ _ _ Hc). reflexivity. }
  destruct e as [[| | |updated|updated] | i o | id | ms]; cbn [step invoke] in Hstep.
  - injection Hstep as <-. split; [right; reflexivity|]. intros i c Hc. right.
    unfold fetch_auctions_data. cbv zeta.
    destruct (loadData _) as [[credentials auctions] w3].
    destruct (alloc_auctions auctions w3) as [locs w4].
    destruct credentials as [|cred credentials]; [|destruct auctions as [|a auctions]];
      try (eapply Hsnoc; [reflexivity | exact Hc]).
    destruct (group_by_account w4 locs) as [m|]; [|eapply Hsnoc; [reflexivity | exact Hc]].
    assert (Hcalls : forall creds tasks X, calls (push_tasks m creds tasks X).2 = calls X).
    { induction creds as [|c' creds IH]; intros tasks X; cbn [push_tasks]; [reflexivity|].
      destruct (slot m (Cred.username c')) as [[[|l ua]|[[|n]|]]|]; try apply IH.
      - unfold spawn. destruct (run_sync _ (world X)) as [w' p']. rewrite IH. reflexivity.
      - unfold spawn. cbn [run_sync]. rewrite IH. reflexivity. }
    specialize (Hcalls (cred :: credentials) [] (set_world w4 s)).
    destruct (push_tasks m (cred :: credentials) [] (set_world w4 s)) as [tasks s5].
    cbn [snd set_world calls] in Hcalls. eapply Hsnoc; [|exact Hc].
    cbn [calls]. rewrite Hcalls. reflexivity.
  - injection Hstep as <-. destruct (Hsettle (stop_update s) eq_refl) as [Hl Hc].
    split; [left; exact Hl | intros i c Hi; right; auto].
  - injection Hstep as <-.
    assert (HX : calls (spawn close_all_windows s).2 = calls s).
    { unfold spawn. destruct (run_sync close_all_windows (world s)) as [w' p']. reflexivity. }
    destruct (Hsettle _ HX) as [Hl Hc].
    split; [left; exact Hl | intros i c Hi; right; auto].
  - injection Hstep as <-.
    assert (HX : calls (save_auctions updated s) = calls s).
    { unfold save_auctions. destruct (loadData _) as [[credentials auctions] w1]. reflexivity. }
    destruct (Hsettle _ HX) as [Hl Hc].
    split; [left; exact Hl | intros i c Hi; right; auto].
  - injection Hstep as <-.
    assert (HX : calls (save_credentials updated s) = calls s).
    { unfold save_credentials. destruct (loadData _) as [[credentials auctions] w1].
      reflexivity. }
    destruct (Hsettle _ HX) as [Hl Hc].
    split; [left; exact Hl | intros i c Hi; right; auto].
  - destruct (pool s !! i) as [[| | | |a k]|]; try discriminate.
    destruct (valid_outcome a o); [|discriminate].
    destruct (run_sync (k o) (world s)) as [w' p']. injection Hstep as <-.
    match goal with |- context [settle_calls ?X] => destruct (Hsettle X eq_refl) as [Hl Hc] end.
    split; [left; exact Hl | intros j c Hj; right; auto].
  - destruct (timers (world s) !! id) as [t|]; [|discriminate].
    destruct (due t <=? clock (world s)); [|discriminate].
    cbv zeta in Hstep. injection Hstep as <-.
    match goal with |- context [settle_calls ?X] => destruct (Hsettle X eq_refl) as [Hl Hc] end.
    split; [left; exact Hl | intros j c Hj; right; auto].
  - destruct (0 <=? ms); [|discriminate]. injection Hstep as <-.
    split; [left; reflexivity | intros i c Hi; left; exact Hi].
Qed.

Lemma results_ok_boot (d : Disk) (now : Z) : results_ok (boot d now).
Proof. intros c Hc. inversion Hc. Qed.

Lemma step_results `{Builtins} (e : Event) (s s' : Sys) (gs gs' : list Ghost) :
  step e s = Some s' -> moves e s s' gs gs' -> results_ok s -> results_ok s'.
Proof.
  intros Hstep Hm Hres c' Hc'.
  destruct (moves_lasting e s s' gs gs' Hm) as (_ & Hloc & Hheap).
  destruct (step_calls e s s' Hstep) as [Hlen Hold].
  apply list_elem_of_lookup_1 in Hc' as [i Hi].
  assert (Hkept : forall c, calls s !! i = Some c ->
            (forall l, l ∈ result c' -> (l < nextLoc (world s'))%nat)
            /\ forall auctions, status c' = Returned auctions ->
                 Forall2 (fun l a => same_auction a (heap (world s') !!! l))
                   (result c') auctions).
  { intros c Hc. assert (Hin : c ∈ calls s) by (eapply list_elem_of_lookup_2; eauto).
    destruct (Hres c Hin) as [Hlt Hret].
    assert (Htransport : forall auctions,
              Forall2 (fun l a => same_auction a (heap (world s) !!! l)) (result c) auctions ->
              Forall2 (fun l a => same_auction a (heap (world s') !!! l)) (result c) auctions).
    { intros auctions HF. apply Forall2_same_length_lookup in HF as [Hlen' HF].
      apply Forall2_same_length_lookup. split; [exact Hlen'|].
      intros k l a Hl Ha. eapply same_auction_trans; [apply (HF k l a Hl Ha)|].
      apply Hheap. apply Hlt. eapply list_elem_of_lookup_2; eauto. }
    destruct (Hold i c Hc) as [Hsame | Hsettled]; rewrite Hi in *.
    - injection Hsame as ->. split; [intros l Hl; specialize (Hlt l Hl); lia|].
      intros auctions Hst. apply Htransport. auto.
    - injection Hsettled as ->. destruct (settle_call_fields s' c) as [_ ->].
      split; [intros l Hl; specialize (Hlt l Hl); lia|].
      intros auctions Hst. unfold settle_call in Hst. destruct (status c) eqn:Hst0.
      + destruct (omap thrown _); [|discriminate].
        destruct (forallb finished _); [|congruence].
        cbn in Hst. injection Hst as <-.
        apply Forall2_fmap_r. apply Forall_Forall2_diag. apply Forall_forall.
        intros l _. apply same_auction_refl.
      + rewrite Hst0 in Hst. apply Htransport. apply Hret. exact Hst.
      + rewrite Hst0 in Hst. discriminate. }
  destruct (calls s !! i) as [c|] eqn:Hc; [eauto|].
  apply lookup_ge_None in Hc. apply lookup_lt_Some in Hi as Hlt.
  destruct Hlen as [Hlen | ->]; [lia|].
  cbn [moves] in Hm. destruct Hm as (new & _ & Hsch & _).
  destruct (sch_call _ _ _ _ Hsch) as (c0 & Hc0 & _ & Hr0).
  assert (i = length (calls s)) by (rewrite (sch_length _ _ _ _ Hsch) in Hlt; lia). subst i.
  assert (c0 = c') by congruence. subst c0. split.
  - intros l Hl. rewrite Hr0 in Hl. apply elem_of_seq in Hl.
    rewrite (sch_nextLoc _ _ _ _ Hsch). lia.
  - intros auctions Hst. rewrite (sch_returned _ _ _ _ Hsch c' auctions Hc0 Hst).
    apply Forall2_fmap_r. apply Forall_Forall2_diag. apply Forall_forall.
    intros l _. apply same_auction_refl.
Qed.

Section Runs.
Context `{Builtins}.

Lemma boot_inv (d : Disk) (now : Z) : inv (boot d now) [].
Proof.
  split; [split|split]; unfold budgets_owned, pending_waits, boot;
    cbn [world pool calls history timers].
  - constructor.
  - intros id t Hid. cbn [world timers] in Hid. rewrite lookup_empty in Hid. discriminate.
  - intros id t Hid. rewrite lookup_empty in Hid. discriminate.
  - intros i g l Hg. rewrite lookup_nil in Hg. discriminate.
  - intros c i Hc. inversion Hc.
  - intros c err Hc. inversion Hc.
  - intros c auctions Hc. inversion Hc.
  - intros i a o Hin. inversion Hin.
  - intros i g Hg. rewrite lookup_nil in Hg. discriminate.
  - intros c Hc. inversion Hc.
Qed.

Lemma stable_refl (s : Sys) (gs : list Ghost) : stable s s gs gs.
Proof. split; auto. Qed.

Lemma stable_trans (s1 s2 s3 : Sys) (gs1 gs2 gs3 : list Ghost) :
  stable s1 s2 gs1 gs2 -> stable s2 s3 gs2 gs3 -> stable s1 s3 gs1 gs3.
Proof.
  intros [A1 W1] [A2 W2]. split.
  - intros Ha Ho. destruct (A1 Ha Ho). auto.
  - intros n P Hw Hle. destruct (W1 n P Hw Hle). auto.
Qed.

(** Everything a run keeps, for one and the same account of the tasks. *)
Lemma run_tracks (es : list Event) :
  forall (s s' : Sys) (gs : list Ghost),
    inv s gs -> run es s = Some s' ->
    exists gs', inv s' gs' /\ tracks es s s' gs gs'.
Proof.
  induction es as [|e es IH]; intros s s' gs Hinv Hrun; cbn [run] in Hrun.
  - injection Hrun as <-. exists gs. split; [exact Hinv|]. split.
    + apply evolves_refl.
    + apply lasting_refl.
    + auto.
    + intros _. apply stable_refl.
    + auto.
    + auto.
  - destruct (step e s) as [s1|] eqn:Hstep; [|discriminate].
    destruct (step_moves e s s1 gs Hinv Hstep) as (gs1 & Hinv1 & Hev1 & Hst1 & Hm1).
    destruct (IH s1 s' gs1 Hinv1 Hrun) as (gs' & Hinv' & [T1 T2 T3 T4 T6 T5]).
    exists gs'. split; [exact Hinv'|]. split.
    + eapply evolves_trans; eauto.
    + eapply lasting_trans; [eapply moves_lasting; eauto | exact T2].
    + intros Htimed. apply T3. apply (moves_timed e s s1 gs gs1 Hinv Hm1 Htimed).
    + intros Hno. eapply stable_trans.
      * apply Hst1. intros ->. apply Hno. apply elem_of_cons. auto.
      * apply T4. intros Hin. apply Hno. apply elem_of_cons. auto.
    + intros Hres. apply T6. eapply step_results; eauto.
    + intros c0 L kids Hnf Hns Htimed Hcomplete.
      apply T5.
      * intros Hin. apply Hnf. apply elem_of_cons. auto.
      * intros Hin. apply Hns. apply elem_of_cons. auto.
      * apply (moves_timed e s s1 gs gs1 Hinv Hm1 Htimed).
      * apply (moves_complete e s s1 gs gs1 c0 L kids Hinv Hm1); auto.
        -- intros ->. apply Hnf. apply elem_of_cons. auto.
        -- intros ->. apply Hns. apply elem_of_cons. auto.
Qed.

Lemma run_inv (es : list Event) :
  forall (s s' : Sys) (gs : list Ghost),
    inv s gs -> run es s = Some s' ->
    exists gs', inv s' gs' /\ evolves (world s) (world s').
Proof.
  intros s s' gs Hinv Hrun.
  destruct (run_tracks es s s' gs Hinv Hrun) as (gs' & Hinv' & Htr).
  exists gs'. split; [exact Hinv' | apply (tr_evolves _ _ _ _ _ Htr)].
Qed.

Lemma run_stable (es : list Event) :
  forall (s s' : Sys) (gs : list Ghost),
    inv s gs -> run es s = Some s' ->
    Invoke FetchAuctionsData ∉ es ->
    exists gs', inv s' gs' /\ stable s s' gs gs'.
Proof.
  intros s s' gs Hinv Hrun Hno.
  destruct (run_tracks es s s' gs Hinv Hrun) as (gs' & Hinv' & Htr).
  exists gs'. split; [exact Hinv' | apply (tr_stable _ _ _ _ _ Htr Hno)].
Qed.

Lemma boot_timed (d : Disk) (now : Z) : timers_timed (world (boot d now)).
Proof. apply timers_timed_empty. reflexivity. Qed.

(** In every state the process can reach the invariant holds and every
    live timer waits for its auction's deadline. *)
Lemma reachable_timed (d : Disk) (now : Z) (es : list Event) (s : Sys) :
  run es (boot d now) = Some s -> exists gs, inv s gs /\ timers_timed (world s).
Proof.
  intros Hrun. destruct (run_tracks es _ _ _ (boot_inv d now) Hrun) as (gs & Hinv & Htr).
  exists gs. split; [exact Hinv|]. apply (tr_timed _ _ _ _ _ Htr). apply boot_timed.
Qed.

Lemma reachable_inv (d : Disk) (now : Z) (es : list Event) (s : Sys) :
  run es (boot d now) = Some s -> exists gs, inv s gs.
Proof.
  intros Hrun. destruct (run_inv es _ _ _ (boot_inv d now) Hrun) as (gs & Hinv & _).
  eauto.
Qed.

(** Every task ends after finitely many settled operations. *)
Lemma feed_ends (p : Prog) :
  forall (env : nat -> Outcome * World) (w : World),
    exists n, ended (feed (env <$> seq 0 n) p w).2.
Proof.
  induction p as [|err|k IH|w1 k IH|a k IH]; intros env w.
  - exists 0%nat. exact I.
  - exists 0%nat. exact I.
  - destruct (IH w env w) as (n & Hn). exists n.
    rewrite (feed_ext _ (Get k) (k w) w w); [exact Hn | reflexivity].
  - destruct (IH env w1) as (n & Hn). exists n.
    rewrite (feed_ext _ (Put w1 k) k w w1); [exact Hn | reflexivity].
  - destruct (IH (env 0%nat).1 (fun i => env (S i)) (env 0%nat).2) as (n & Hn).
    exists (S n). cbn [seq fmap list_fmap]. rewrite <- fmap_S_seq, <- list_fmap_compose.
    destruct (env 0%nat) as [o w1]. cbn [feed run_sync]. exact Hn.
Qed.

End Runs.


Section Reachable.
Context `{Builtins}.

(** What holds in every state the process can reach. *)
Lemma reachable_all (d : Disk) (now : Z) (es : list Event) (s : Sys) :
  run es (boot d now) = Some s ->
  exists gs, inv s gs /\ timers_timed (world s) /\ results_ok s.
Proof.
  intros Hrun. destruct (run_tracks es _ _ _ (boot_inv d now) Hrun) as (gs & Hinv & Htr).
  exists gs. split; [exact Hinv|]. split.
  - apply (tr_timed _ _ _ _ _ Htr). apply boot_timed.
  - apply (tr_results _ _ _ _ _ Htr). apply results_ok_boot.
Qed.

(** A task that has returned has nothing left to arm. *)
Lemma returned_budget (s : Sys) (gs : list Ghost) (i : nat) (g : Ghost) :
  inv s gs -> pool s !! i = Some Ret -> gs !! i = Some g -> budget g = [].
Proof.
  intros (Hcore & _) Hp Hg.
  destruct (pool_ghost s gs i g (core_pool _ _ Hcore) Hg) as (p & Hp' & _ & Hpooled).
  assert (p = Ret) by congruence. subst p.
  apply (Hpooled (world s)). apply Forall_forall. intros l Hl.
  apply (core_budgets _ _ Hcore i g l Hg Hl).
Qed.

(** A scheduling call and the run after it. *)
Lemma fetch_then (s1 s2 : Sys) (gs : list Ghost) (after : list Event) :
  inv s1 gs -> results_ok s1 ->
  run (Invoke FetchAuctionsData :: after) s1 = Some s2 ->
  exists new gs2,
    inv (settle_calls (fetch_auctions_data s1)) (gs ++ new)
    /\ scheduled s1 (settle_calls (fetch_auctions_data s1)) gs new
    /\ timers (world (settle_calls (fetch_auctions_data s1))) = ∅
    /\ nextTimeoutId (world (settle_calls (fetch_auctions_data s1)))
       = nextTimeoutId (world s1)
    /\ (forall j g l, new !! j = Some g -> l ∈ budget g ->
          (nextLoc (world s1) <= l
           < nextLoc (world (settle_calls (fetch_auctions_data s1))))%nat)
    /\ ((forall credentials auctions,
           content (disk (world s1)) = Json credentials auctions ->
           NoDup (Cred.username <$> credentials)) ->
        (forall j g, new !! j = Some g -> NoDup (budget g))
        /\ (forall j1 j2 g1 g2 l,
              new !! j1 = Some g1 -> new !! j2 = Some g2 ->
              l ∈ budget g1 -> l ∈ budget g2 -> j1 = j2))
    /\ run after (settle_calls (fetch_auctions_data s1)) = Some s2
    /\ inv s2 gs2
    /\ tracks after (settle_calls (fetch_auctions_data s1)) s2 (gs ++ new) gs2
    /\ timers_timed (world s2)
    /\ results_ok s2
    /\ calls_kept (settle_calls (fetch_auctions_data s1)) s2
    /\ pool_kept (settle_calls (fetch_auctions_data s1)) s2.
Proof.
  intros Hinv Hres Hrun. cbn [run step invoke] in Hrun.
  destruct (fetch_inv s1 gs Hinv) as (new & Hinv1 & Ht & Hn & _ & _ & Hin & Hnd & Hsch).
  destruct (run_tracks after _ _ _ Hinv1 Hrun) as (gs2 & Hinv2 & Htr).
  exists new, gs2. do 6 (split; [assumption|]). split; [exact Hrun|].
  split; [exact Hinv2|]. split; [exact Htr|]. split; [|split; [|split]].
  - apply (tr_timed _ _ _ _ _ Htr). apply timers_timed_empty. exact Ht.
  - apply (tr_results _ _ _ _ _ Htr).
    apply (step_results (Invoke FetchAuctionsData) s1 _ gs (gs ++ new));
      [reflexivity | | exact Hres].
    exists new. auto.
  - eapply run_calls_kept; eauto.
  - eapply run_pool_kept; eauto.
Qed.

End Reachable.

(** ** Cancelling, rescheduling and failing *)

Section Quiet.
Context `{Builtins}.

(** While no scheduling task is running, no task has anything to arm. *)
Lemma inv_quiet (s : Sys) (gs : list Ghost) :
  inv s gs -> idle s -> inv s (quiet <$> gs).
Proof.
  intros (Hcore & Hown & Hpend) Hidle.
  destruct Hcore as [Hpool Hrec Htm Hbud Hchild Hfail Hret Hhis].
  split; [split|split]; auto.
  - apply Forall2_fmap_r. apply Forall2_same_length_lookup in Hpool as [Hlen Hpool].
    apply Forall2_same_length_lookup. split; [exact Hlen|].
    intros i p g Hp Hg. destruct (Hpool i p g Hp Hg) as [Hsusp Hpooled].
    split; [exact Hsusp|].
    destruct (decide (budget g = [])) as [Hnil|Hne].
    + intros w _. unfold quiet. cbn [budget failed]. rewrite <- Hnil.
      apply Hpooled. rewrite Hnil. constructor.
    + destruct (Hown i g Hg Hne) as (c & Hc & Hi).
      destruct (Hidle c i Hc Hi) as (p' & Hp' & Hended).
      assert (p' = p) by congruence. subst p'.
      intros w _. unfold task_ok, quiet. cbn [budget failed].
      destruct p; cbn [ended wp] in *; try done.
      apply (Hpooled (world s)). apply Forall_forall. intros l Hl.
      apply (Hbud i g l Hg Hl).
  - intros i g l Hg Hl. apply list_lookup_fmap_Some in Hg as (g0 & -> & _).
    inversion Hl.
  - intros c i Hc Hi. destruct (Hchild c i Hc Hi) as (g & Hg & Hhist).
    exists (quiet g). rewrite list_lookup_fmap, Hg. split; [reflexivity | exact Hhist].
  - intros c err Hc Hst.
    destruct (Hfail c err Hc Hst) as [Hnil | (i & g & Hi & Hg & Hf)]; [left; exact Hnil|].
    right. exists i, (quiet g). rewrite list_lookup_fmap, Hg. auto.
  - intros i g Hg Hne. apply list_lookup_fmap_Some in Hg as (g0 & -> & _). done.
Qed.

Lemma quiet_budgets (gs : list Ghost) (i : nat) (b : list nat) :
  (budget <$> (quiet <$> gs)) !! i = Some b -> b = [].
Proof.
  intros Hb. rewrite <- list_fmap_compose in Hb.
  apply list_lookup_fmap_Some in Hb as (g & -> & _). reflexivity.
Qed.

Lemma no_timer_no_fire (s : Sys) (timeoutId : nat) :
  timers (world s) !! timeoutId = None -> step (Fire timeoutId) s = None.
Proof. intros Hnone. cbn [step]. rewrite Hnone. reflexivity. Qed.

End Quiet.

(** C8 (amended). After [stop-update] (cancelAllPending) in any state
    the process can reach: no timer is live and [bidTimeouts] is empty;
    every timer armed before the call stays dead whatever happens next,
    so its callback never runs; and [browserMap], with every session's
    [isLoggedIn] flag, and the running tasks are as they were. If no
    task of a scheduling call was still running when the call was made,
    then until the next scheduling call there is no live timer at all
    and no timer callback can start, so no auction is bid on when its
    deadline arrives. *)
Theorem cancel_all_pending `{Builtins} (d : Disk) (now : Z)
    (before after : list Event) (s1 s2 : Sys) :
  run before (boot d now) = Some s1 ->
  run (Invoke StopUpdate :: after) s1 = Some s2 ->
  browserMap (world (stop_update s1)) = browserMap (world s1)
  /\ pool (stop_update s1) = pool s1
  /\ timers (world (stop_update s1)) = ∅
  /\ bidTimeouts (world (stop_update s1)) = []
  /\ (forall timeoutId,
        (timeoutId < nextTimeoutId (world s1))%nat ->
        timers (world s2) !! timeoutId = None /\ step (Fire timeoutId) s2 = None)
  /\ (idle s1 -> Invoke FetchAuctionsData ∉ after ->
      timers (world s2) = ∅
      /\ forall timeoutId, step (Fire timeoutId) s2 = None).
Proof.
  intros Hbefore Hafter.
  destruct (reachable_inv d now before s1 Hbefore) as (gs & Hinv).
  assert (Hempty := clear_bidTimeouts_timers (world s1)
                      (core_recorded _ _ (proj1 Hinv))).
  destruct (clear_bidTimeouts_rest (world s1)) as (Hbt & Hn & _ & _ & Hbm & _).
  split; [exact Hbm|]. split; [reflexivity|]. split; [exact Hempty|].
  split; [exact Hbt|].
  cbn [run] in Hafter.
  destruct (step (Invoke StopUpdate) s1) as [s1'|] eqn:Hstep; [|discriminate].
  split.
  - intros timeoutId Hlt.
    destruct (step_inv _ _ _ _ Hinv Hstep) as (gs1 & Hinv1 & _ & _).
    destruct (run_inv after _ _ _ Hinv1 Hafter) as (gs2 & _ & (Hle & _ & Hold & _)).
    cbn in Hstep. injection Hstep as <-. cbn [settle_calls stop_update set_world world] in *.
    assert (Hnone : timers (world s2) !! timeoutId = None).
    { destruct (timers (world s2) !! timeoutId) as [t|] eqn:Hid; [|reflexivity].
      destruct (Hold _ _ Hid) as [Hwas | Hnew].
      - rewrite Hempty, lookup_empty in Hwas. discriminate.
      - lia. }
    split; [exact Hnone | apply no_timer_no_fire; exact Hnone].
  - intros Hidle Hno.
    assert (Hq := inv_quiet s1 gs Hinv Hidle).
    destruct (step_moves _ _ _ _ Hq Hstep) as (gs1 & Hinv1 & _ & _ & Hm).
    cbn [moves] in Hm. destruct Hm as [Hw ->].
    destruct (run_stable after s1' s2 _ Hinv1 Hafter Hno) as (gs2 & _ & _ & Hwithin).
    destruct (Hwithin 0%nat (fun _ => False)) as [[Htm _] _]; [|lia|].
    { split.
      - intros id t. rewrite Hw, Hempty, lookup_empty. discriminate.
      - intros i b l Hb Hl. rewrite (quiet_budgets _ _ _ Hb) in Hl. inversion Hl. }
    assert (Hnone : timers (world s2) = ∅).
    { apply map_empty. intros id. destruct (timers (world s2) !! id) as [t|] eqn:Hid;
        [|reflexivity]. destruct (Htm id t Hid) as [_ []]. }
    split; [exact Hnone|]. intros timeoutId. apply no_timer_no_fire.
    rewrite Hnone. apply lookup_empty.
Qed.


(** C3 (amended). Invoke [fetch-auctions-data] in any state the process
    can reach. Its synchronous part leaves no timer live and
    [bidTimeouts] empty: every timer armed earlier is cancelled before
    a new one is computed. If no task of an earlier scheduling call is
    still running and the usernames of the credentials on file are
    pairwise distinct, then until the next scheduling call every live
    timer is one the inputs of this call imply: it was armed after the
    call, is listed in [bidTimeouts], is for an auction object of this
    call that has a positive bid, an account with a credential on file
    and a time, and waits for the time that was left until that
    auction's deadline when it was armed; and no two live timers are
    for the same auction object. And once the call has returned, with
    no scheduling call and no cancellation since, every auction of the
    call with a positive bid, an account with a credential on file and
    a deadline that is still ahead and within reach of a timer has a
    live timer. *)
Theorem schedule_all_reschedules `{Builtins} (d : Disk) (now : Z)
    (before after : list Event) (s1 s2 : Sys) (c : Call) :
  run before (boot d now) = Some s1 ->
  run (Invoke FetchAuctionsData :: after) s1 = Some s2 ->
  calls s2 !! length (calls s1) = Some c ->
  timers (world (fetch_auctions_data s1)) = ∅
  /\ bidTimeouts (world (fetch_auctions_data s1)) = []
  /\ (idle s1 ->
      NoDup (Cred.username <$> (loadData (world s1)).1.1) ->
      Invoke FetchAuctionsData ∉ after ->
      (forall id t,
         timers (world s2) !! id = Some t ->
         (nextTimeoutId (world s1) <= id)%nat
         /\ id ∈ (BidTimeout.timeoutId <$> bidTimeouts (world s2))
         /\ cb_auction t ∈ result c
         /\ eligible (world s2) (cb_auction t) = true
         /\ (exists cred, cred ∈ (loadData (world s1)).1.1
                          /\ Cred.username cred
                             = Auction.account (heap (world s2) !!! cb_auction t))
         /\ no_time (heap (world s2) !!! cb_auction t) = false
         /\ clock (world s1) <= armedAt t <= clock (world s2)
         /\ delay t = time_diff (heap (world s2) !!! cb_auction t) (armedAt t)
         /\ le0 (delay t) = false)
      /\ one_timer_per_auction (world s2))
  /\ (Invoke FetchAuctionsData ∉ after ->
      Invoke StopUpdate ∉ after ->
      forall returned l cred,
        status c = Returned returned ->
        l ∈ result c ->
        eligible (world s2) l = true ->
        cred ∈ (loadData (world s1)).1.1 ->
        Cred.username cred = Auction.account (heap (world s2) !!! l) ->
        Auction.account (heap (world s2) !!! l) <> EmptyString ->
        punctual (clock (world s1)) (world s2) l ->
        exists id t, timers (world s2) !! id = Some t /\ cb_auction t = l).
Proof.
  intros Hbefore Hafter Hc.
  destruct (reachable_all d now before s1 Hbefore) as (gs & Hinv & _ & Hres).
  split; [|split; [|split]].
  - destruct (fetch_inv s1 gs Hinv) as (new & _ & Ht & _). exact Ht.
  - destruct (fetch_inv s1 gs Hinv) as (new & _ & _ & _ & _ & _ & _ & _ & Hsch).
    apply (sch_bidTimeouts _ _ _ _ Hsch).
  - intros Hidle Hnames Hno.
    assert (Hq := inv_quiet s1 gs Hinv Hidle).
    destruct (fetch_then s1 s2 _ after Hq Hres Hafter)
      as (new & gs2 & Hinv1 & Hsch & Ht & Hn & Hin & Hnd & Hrun & Hinv2 & Htr & Htimed2 & _
          & [_ Hkept] & _).
    set (s1' := settle_calls (fetch_auctions_data s1)) in *.
    destruct Hnd as [Hnd1 Hdisj].
    { intros credentials auctions Hcontent. rewrite loadData_data, Hcontent in Hnames.
      exact Hnames. }
    destruct (sch_call _ _ _ _ Hsch) as (c0 & Hc0 & Hch0 & Hr0).
    destruct (Hkept _ _ Hc0) as (c' & Hc' & Hch & Hr & Hst).
    assert (c' = c) by congruence. subst c'.
    assert (Hnew : forall i b, (budget <$> new) !! i = Some b ->
              exists g, new !! i = Some g /\ b = budget g).
    { intros i b Hb. apply list_lookup_fmap_Some in Hb as (g & -> & Hg). eauto. }
    assert (Hapart : budgets_apart (world s1') (budget <$> ((quiet <$> gs) ++ new))).
    { rewrite fmap_app. split; [|split].
      - intros i b Hb. apply lookup_app_Some in Hb as [Hb | [_ Hb]].
        + rewrite (quiet_budgets _ _ _ Hb). constructor.
        + destruct (Hnew _ _ Hb) as (g & Hg & ->). eauto.
      - intros i j b1 b2 l Hb1 Hb2 Hl1 Hl2.
        apply lookup_app_Some in Hb1 as [Hb1 | [Hge1 Hb1]];
          [rewrite (quiet_budgets _ _ _ Hb1) in Hl1; inversion Hl1|].
        apply lookup_app_Some in Hb2 as [Hb2 | [Hge2 Hb2]];
          [rewrite (quiet_budgets _ _ _ Hb2) in Hl2; inversion Hl2|].
        destruct (Hnew _ _ Hb1) as (g1 & Hg1 & ->). destruct (Hnew _ _ Hb2) as (g2 & Hg2 & ->).
        assert (Heq := Hdisj _ _ _ _ _ Hg1 Hg2 Hl1 Hl2). lia.
      - intros id t i b Hid. rewrite Ht, lookup_empty in Hid. discriminate. }
    assert (Hone : one_timer_per_auction (world s1')).
    { intros id1 id2 t1 t2 Hid. rewrite Ht, lookup_empty in Hid. discriminate. }
    pose (P := fun l : nat =>
                 (nextLoc (world s1) <= l < nextLoc (world s1'))%nat
                 /\ exists cred, cred ∈ (loadData (world s1)).1.1
                                 /\ Cred.username cred
                                    = Auction.account (heap (world s1') !!! l)).
    assert (Hwithin : within (nextTimeoutId (world s1)) P (world s1')
                        (budget <$> ((quiet <$> gs) ++ new))).
    { rewrite fmap_app. split.
      - intros id t Hid. rewrite Ht, lookup_empty in Hid. discriminate.
      - intros i b l Hb Hlb. apply lookup_app_Some in Hb as [Hb | [_ Hb]];
          [rewrite (quiet_budgets _ _ _ Hb) in Hlb; inversion Hlb|].
        destruct (Hnew _ _ Hb) as (g & Hg & ->).
        split; [eapply Hin; eauto | eapply (sch_served _ _ _ _ Hsch); eauto]. }
    destruct (tr_stable _ _ _ _ _ Htr Hno) as [Hapart2 Hwithin2].
    destruct (Hapart2 Hapart Hone) as [_ Hone2].
    destruct (Hwithin2 _ _ Hwithin) as [[Htm2 _] _]; [rewrite Hn; lia|].
    destruct (tr_lasting _ _ _ _ _ Htr) as (Hclock & _ & Hheap).
    assert (Hcomplete : complete (clock (world s1)) (fun _ => False) [] (world s2) gs2).
    { apply (tr_complete _ _ _ _ _ Htr); [exact Hno | auto | |].
      - apply timers_timed_empty. exact Ht.
      - split; [rewrite (sch_clock _ _ _ _ Hsch); lia|]. split.
        + intros id t. rewrite Ht, lookup_empty. discriminate.
        + intros l []. }
    destruct Hcomplete as (_ & Harmed & _).
    split; [|exact Hone2].
    intros id t Hid. destruct (Htm2 id t Hid) as [Hge [Hrange (cred & Hcred & Hu)]].
    destruct (Htimed2 id t Hid) as (T1 & T2 & T3 & T4).
    destruct Hinv2 as (Hcore2 & _).
    split; [exact Hge|].
    split; [apply (core_recorded _ _ Hcore2 id t Hid)|].
    split.
    { rewrite Hr, Hr0. apply elem_of_seq. rewrite (sch_nextLoc _ _ _ _ Hsch) in Hrange. lia. }
    split; [apply (core_timers _ _ Hcore2 id t Hid)|].
    split.
    { exists cred. split; [exact Hcred|]. rewrite Hu.
      destruct (same_auction_fields _ _ (Hheap (cb_auction t) (proj2 Hrange)))
        as (_ & _ & _ & _ & _ & Ha). congruence. }
    split; [exact T2|]. split; [|auto].
    split; [eapply Harmed; eauto | exact T1].
  - intros Hnf Hns returned l cred Hret Hl He Hcred Hu Hne Hp.
    destruct (fetch_then s1 s2 gs after Hinv Hres Hafter)
      as (new & gs2 & Hinv1 & Hsch & Ht & _ & _ & _ & Hrun & Hinv2 & Htr & _ & _
          & [_ Hkept] & _).
    set (s1' := settle_calls (fetch_auctions_data s1)) in *.
    destruct (sch_call _ _ _ _ Hsch) as (c0 & Hc0 & Hch0 & Hr0).
    destruct (Hkept _ _ Hc0) as (c' & Hc' & Hch & Hr & Hst).
    assert (c' = c) by congruence. subst c'.
    assert (Hin : c ∈ calls s2) by (eapply list_elem_of_lookup_2; eauto).
    destruct (tr_lasting _ _ _ _ _ Htr) as (Hclock & _ & Hheap).
    rewrite Hr, Hr0 in Hl. apply elem_of_seq in Hl.
    assert (Hlt : (l < nextLoc (world s1'))%nat)
      by (rewrite (sch_nextLoc _ _ _ _ Hsch); lia).
    destruct (same_auction_fields _ _ (Hheap l Hlt)) as (_ & _ & _ & Hbp & _ & Ha).
    assert (Hp1 : punctual (clock (world s1)) (world s1') l).
    { eapply punctual_earlier; [| |exact Hp]; [exact Hclock | apply Hheap; exact Hlt]. }
    pose (L := fun l : nat => exists j g, new !! j = Some g /\ l ∈ budget g).
    assert (Hlen : length (pool s1') = length (gs ++ new)).
    { eapply Forall2_length. apply (core_pool _ _ (proj1 Hinv1)). }
    assert (Hcomplete : complete (clock (world s1)) L (children c) (world s2) gs2).
    { apply (tr_complete _ _ _ _ _ Htr); [exact Hnf | intros Hs; destruct (Hns Hs) | |].
      - apply timers_timed_empty. exact Ht.
      - split; [rewrite (sch_clock _ _ _ _ Hsch); lia|]. split.
        + intros id t. rewrite Ht, lookup_empty. discriminate.
        + intros l' (j & g & Hg & Hl') _. left. exists (length gs + j)%nat, g.
          split; [|split; [|exact Hl']].
          * rewrite Hch, Hch0. apply elem_of_seq. apply lookup_lt_Some in Hg. lia.
          * rewrite lookup_app_r by lia. rewrite Nat.add_comm, Nat.add_sub. exact Hg. }
    destruct (sch_covered _ _ _ _ Hsch l cred) as [HL | [Hna | (c1 & Hc1 & Hf1)]]; auto.
    + lia.
    + rewrite <- He. apply eligible_heap. symmetry. exact Hbp.
    + congruence.
    + congruence.
    + destruct Hcomplete as (_ & _ & Hcov).
      destruct (Hcov l HL Hp) as [(i & g & Hi & Hg & Hlg) | Htimer]; [|exact Htimer].
      destruct (core_returned _ _ (proj1 Hinv2) c returned Hin Hret) as [_ Hall].
      rewrite (returned_budget s2 gs2 i g Hinv2 (Hall i Hi) Hg) in Hlg. inversion Hlg.
    + destruct (punctual_armable _ _ _ Hp1 Hna).
    + assert (c1 = c0) by congruence. subst c1.
      rewrite Hst in Hret by (rewrite Hf1; discriminate). congruence.
Qed.

(** C2. An account all of whose auctions have a bid that is not
    strictly positive: [handleUserBids] ends in the segment it starts
    in, whatever the environment does, having awaited nothing (no
    browser launched, no page opened, no login step) and changed nothing
    but the console. In general [handleUserBids] behaves as it would on
    the auctions with a positive bid alone. And in every state the
    process can reach, every live timer is for an auction with a
    positive bid. *)
Theorem ineligible_never_scheduled `{Builtins} :
  (forall cred userAuctions w sched,
     Forall (fun l => eligible w l = false) userAuctions ->
     feed sched (handleUserBids cred userAuctions) w
     = (console_log (LSkipping (Cred.username cred)) w, Ret)
     /\ awaited sched (handleUserBids cred userAuctions) w = []
     /\ browserMap (console_log (LSkipping (Cred.username cred)) w) = browserMap w
     /\ timers (console_log (LSkipping (Cred.username cred)) w) = timers w)
  /\ (forall cred userAuctions w,
        run_sync (handleUserBids cred userAuctions) w
        = run_sync (handleUserBids cred (List.filter (eligible w) userAuctions)) w)
  /\ (forall d now es s id t,
        run es (boot d now) = Some s ->
        timers (world s) !! id = Some t ->
        gt0 (parseFloat (Auction.bidProxy (heap (world s) !!! cb_auction t))) = true).
Proof.
  split; [|split].
  - intros cred userAuctions w sched Hall.
    assert (Hfilter : List.filter (eligible w) userAuctions = []).
    { induction Hall as [|l ls Hl _ IH]; cbn [List.filter]; [reflexivity|].
      rewrite Hl. exact IH. }
    assert (Hrun : run_sync (handleUserBids cred userAuctions) w
                   = (console_log (LSkipping (Cred.username cred)) w, Ret)).
    { unfold handleUserBids. cbn [run_sync]. rewrite Hfilter. reflexivity. }
    repeat split; eauto using feed_finished, awaited_finished.
  - intros cred userAuctions w. unfold handleUserBids. cbn [run_sync].
    assert (Hidem : List.filter (eligible w) (List.filter (eligible w) userAuctions)
                    = List.filter (eligible w) userAuctions).
    { induction userAuctions as [|l ls IH]; cbn [List.filter]; [reflexivity|].
      destruct (eligible w l) eqn:Hl; cbn [List.filter]; rewrite ?Hl, IH; reflexivity. }
    rewrite Hidem. reflexivity.
  - intros d now es s id t Hrun Hid.
    destruct (reachable_inv d now es s Hrun) as (gs & Hcore & _).
    apply (core_timers _ _ Hcore id t Hid).
Qed.

(** ** Order of the bids of one task *)

Lemma awaited_ext (sched : list (Outcome * World)) (p q : Prog) (w w' : World) :
  run_sync p w = run_sync q w' -> awaited sched p w = awaited sched q w'.
Proof.
  intros Heq. destruct sched as [|[o w1] sched]; cbn [awaited]; rewrite Heq; reflexivity.
Qed.

Lemma agrees_console_log (ids bids : nat -> string) (l : Log) (w : World) :
  agrees ids bids w -> agrees ids bids (console_log l w).
Proof. intros Ha. exact Ha. Qed.

Lemma agrees_schedule (ids bids : nat -> string) (auction page : nat) (username : string)
    (diff : option Z) (w : World) :
  agrees ids bids w -> agrees ids bids (schedule auction page username diff w).
Proof. intros Ha. exact Ha. Qed.

(** Take the next entry off a schedule whose states agree on the auctions. *)
Ltac next_entry sched Hsched :=
  let Ha := fresh "Ha" in
  destruct sched as [|[[?|?] ?] sched];
  [ | apply Forall_cons in Hsched as [Ha Hsched]; cbn [snd] in Ha
    | apply Forall_cons in Hsched as [Ha Hsched]; cbn [snd] in Ha ].

(** Replace what a state says of an auction by what all states agree on. *)
Ltac known auction :=
  repeat match goal with
         | Ha : agrees _ _ ?w |- context [heap ?w !!! auction] =>
             rewrite ?(proj1 (Ha auction)), ?(proj2 (Ha auction))
         end.

(** The schedule ends while the [placeBid] call is at its [n]-th operation. *)
Ltac inside_bid auction rest n :=
  cbn; known auction; exact (oat_inside _ auction rest n).

(** The [placeBid] call has ended after [n] operations; the loop goes on. *)
Ltac bid_over sched Hsched IH auction rest n :=
  let Ha := fresh "Ha" in
  destruct sched as [|[? ?] sched];
  [ cbn; known auction;
    exact (oat_bid _ auction rest n [] ltac:(lia) (oat_stop _ _))
  | apply Forall_cons in Hsched as [Ha Hsched]; cbn [snd] in Ha;
    cbn; known auction;
    refine (oat_bid _ auction rest n _ ltac:(lia) _);
    apply IH; assumption ].

(** C6 (amended). The operations one [handleUserBids] call awaits in
    its loop, whatever their outcomes and whatever else happens in
    between: the auctions it bids on itself (deadline passed) are bid on
    in the order of iteration and one at a time, each [placeBid] call
    running its steps, in order, up to its end or its first failure, and
    completing before the loop looks at the next auction. *)
Theorem immediate_bids_one_at_a_time `{Builtins} (page : nat) (username : string)
    (ids bids : nat -> string) (auctionsToBid : list nat) :
  forall (sched : list (Outcome * World)) (w : World),
    agrees ids bids w ->
    Forall (fun ow => agrees ids bids ow.2) sched ->
    one_at_a_time (fun l => bid_steps page (ids l) (bids l)) auctionsToBid
      (awaited sched (bid_loop page username auctionsToBid) w).
Proof.
  induction auctionsToBid as [|auction rest IH]; intros sched w Hw Hsched.
  - rewrite (awaited_finished sched _ w w) by reflexivity. constructor.
  - destruct (no_time (heap w !!! auction)) eqn:Hnt.
    { rewrite (awaited_ext sched _ (bid_loop page username rest) w
                 (console_log (LNoTime (Auction.idAuction (heap w !!! auction))) w)).
      - apply oat_skip. apply IH; assumption.
      - cbn [bid_loop run_sync]. rewrite Hnt. reflexivity. }
    destruct (le0 (time_diff (heap w !!! auction) (clock w))) eqn:Hle.
    2: { rewrite (awaited_ext sched _ (bid_loop page username rest) w
                    (schedule auction page username
                       (time_diff (heap w !!! auction) (clock w)) w)).
         - apply oat_skip. apply IH; assumption.
         - cbn [bid_loop run_sync]. rewrite Hnt, Hle. reflexivity. }
    rewrite (awaited_ext sched _
               (and_then (placeBid auction page) (resume (bid_loop page username rest))) w w)
      by (cbn [bid_loop run_sync]; rewrite Hnt, Hle; reflexivity).
    clear Hnt Hle.
    next_entry sched Hsched; [inside_bid auction rest 1%nat | | bid_over sched Hsched IH auction rest 1%nat].
    next_entry sched Hsched; [inside_bid auction rest 2%nat | | bid_over sched Hsched IH auction rest 2%nat].
    next_entry sched Hsched; [inside_bid auction rest 3%nat | | bid_over sched Hsched IH auction rest 3%nat].
    next_entry sched Hsched; [inside_bid auction rest 4%nat | | bid_over sched Hsched IH auction rest 4%nat].
    next_entry sched Hsched; [inside_bid auction rest 5%nat | | bid_over sched Hsched IH auction rest 5%nat].
    next_entry sched Hsched; [inside_bid auction rest 6%nat | | bid_over sched Hsched IH auction rest 6%nat].
    next_entry sched Hsched; [inside_bid auction rest 7%nat | | bid_over sched Hsched IH auction rest 7%nat].
    next_entry sched Hsched; [inside_bid auction rest 8%nat | | bid_over sched Hsched IH auction rest 8%nat].
    next_entry sched Hsched; [inside_bid auction rest 9%nat | | bid_over sched Hsched IH auction rest 9%nat].
    next_entry sched Hsched; [inside_bid auction rest 10%nat | | bid_over sched Hsched IH auction rest 10%nat].
    next_entry sched Hsched; [inside_bid auction rest 11%nat | | bid_over sched Hsched IH auction rest 11%nat].
    bid_over sched Hsched IH auction rest 11%nat.
Qed.

(** ** The theorems at concrete runs *)

Lemma ineligible_never_scheduled_witness :
  let w := set_heap {[ 0%nat := Auction.mk 1 "2030-01-01T10:00:05Z" "stg/0001" "0"
                                   "1 Main St" "alice" "" ]} 1 sample_world in
  let s := @state_after sample_js schedule_once (boot sample_disk ten_o_clock) in
  let t := {| delay := Some 5000; armedAt := ten_o_clock;
              cb_auction := 0; cb_page := 8 |} in
  feed [(Resolved 7, w)] (@handleUserBids sample_js (Cred.mk 1 "alice" "pw") [0%nat]) w
  = (console_log (LSkipping "alice") w, Ret)
  /\ awaited [(Resolved 7, w)] (@handleUserBids sample_js (Cred.mk 1 "alice" "pw") [0%nat]) w
     = []
  /\ @run sample_js schedule_once (boot sample_disk ten_o_clock) = Some s
  /\ timers (world s) !! 0%nat = Some t
  /\ gt0 (@parseFloat sample_js (Auction.bidProxy (heap (world s) !!! cb_auction t)))
     = true.
Proof.
  intros w s t.
  destruct (@ineligible_never_scheduled sample_js) as (Hskip & _ & Hlive).
  assert (Hall : Forall (fun l => @eligible sample_js w l = false) [0%nat])
    by (constructor; [vm_compute; reflexivity | constructor]).
  destruct (Hskip (Cred.mk 1 "alice" "pw") [0%nat] w [(Resolved 7, w)] Hall)
    as (Hfeed & Hawaited & _).
  assert (Hrun : @run sample_js schedule_once (boot sample_disk ten_o_clock) = Some s)
    by (vm_compute; reflexivity).
  assert (Hid : timers (world s) !! 0%nat = Some t) by (vm_compute; reflexivity).
  split; [exact Hfeed|]. split; [exact Hawaited|]. split; [exact Hrun|].
  split; [exact Hid|].
  exact (Hlive sample_disk ten_o_clock schedule_once s 0%nat t Hrun Hid).
Defined.

Lemma placeBid_success_witness :
  exists w',
    feed (replicate 10 (Resolved 0, sample_world) ++ [(Resolved 0, sample_world)])
      (@placeBid sample_js 2 8) sample_world = (w', Ret)
    /\ Auction.bidPlaced (heap w' !!! 2%nat) = "1/1/2030, 10:00:00 AM"
    /\ Auction.bidPlaced <$> match content (disk w') with
                             | Json _ auctions => auctions
                             | _ => []
                             end
       = [""; ""; "1/1/2030, 10:00:00 AM"].
Proof.
  destruct (@placeBid_success sample_js 2 8 (replicate 10 (Resolved 0, sample_world))
              sample_world sample_world 0)
    as (w' & Hfeed & Hheap & Hdisk).
  - repeat constructor; eexists; reflexivity.
  - reflexivity.
  - exists w'. split; [exact Hfeed|]. split.
    + rewrite Hheap. reflexivity.
    + cbn in Hdisk. rewrite Hdisk. reflexivity.
Defined.


Lemma idle_after_schedule_once :
  idle (@state_after sample_js schedule_once (boot sample_disk ten_o_clock)).
Proof.
  intros c i Hc Hi.
  assert (Hcalls : calls (@state_after sample_js schedule_once
                            (boot sample_disk ten_o_clock))
                   = [{| children := [0%nat]; result := [0%nat; 1%nat];
                         status := Returned match content sample_disk with
                                            | Json _ auctions => auctions
                                            | _ => []
                                            end |}])
    by (vm_compute; reflexivity).
  rewrite Hcalls in Hc. apply list_elem_of_singleton in Hc. subst c.
  cbn [children] in Hi. apply list_elem_of_singleton in Hi as ->.
  exists Ret. split; [vm_compute; reflexivity | exact I].
Qed.

Lemma cancel_all_pending_witness :
  let s1 := @state_after sample_js schedule_once (boot sample_disk ten_o_clock) in
  let s2 := @state_after sample_js [Invoke StopUpdate; Tick 5000] s1 in
  @run sample_js schedule_once (boot sample_disk ten_o_clock) = Some s1
  /\ @run sample_js [Invoke StopUpdate; Tick 5000] s1 = Some s2
  /\ (size (timers (world s1)) = 2 /\ nextTimeoutId (world s1) = 2)%nat
  /\ browserMap (world (stop_update s1)) = browserMap (world s1)
  /\ timers (world s2) !! 0%nat = None
  /\ @step sample_js (Fire 0) s2 = None
  /\ @step sample_js (Fire 1) s2 = None
  /\ timers (world s2) = ∅.
Proof.
  intros s1 s2.
  assert (H1 : @run sample_js schedule_once (boot sample_disk ten_o_clock) = Some s1)
    by (vm_compute; reflexivity).
  assert (H2 : @run sample_js [Invoke StopUpdate; Tick 5000] s1 = Some s2)
    by (vm_compute; reflexivity).
  assert (Hn : (nextTimeoutId (world s1) = 2)%nat) by (vm_compute; reflexivity).
  destruct (@cancel_all_pending sample_js sample_disk ten_o_clock
              schedule_once [Tick 5000] s1 s2 H1 H2)
    as (Hsessions & _ & _ & _ & Hdead & Hquiet).
  destruct (Hquiet idle_after_schedule_once) as [Hnone _].
  { intros Hin. apply list_elem_of_singleton in Hin. discriminate. }
  split; [exact H1|]. split; [exact H2|].
  split; [split; [vm_compute; reflexivity | exact Hn]|].
  split; [exact Hsessions|].
  split; [apply (Hdead 0%nat); rewrite Hn; lia|].
  split; [apply (Hdead 0%nat); rewrite Hn; lia|].
  split; [apply (Hdead 1%nat); rewrite Hn; lia | exact Hnone].
Defined.


Lemma schedule_all_reschedules_witness :
  let s1 := @state_after sample_js schedule_once (boot sample_disk ten_o_clock) in
  let s2 := @state_after sample_js [Invoke FetchAuctionsData; Settle 1 (Resolved 0)] s1 in
  @run sample_js schedule_once (boot sample_disk ten_o_clock) = Some s1
  /\ @run sample_js [Invoke FetchAuctionsData; Settle 1 (Resolved 0)] s1 = Some s2
  /\ dom (timers (world s1)) = {[ 0%nat; 1%nat ]}
  /\ timers (world (@fetch_auctions_data sample_js s1)) = ∅
  /\ bidTimeouts (world (@fetch_auctions_data sample_js s1)) = []
  /\ one_timer_per_auction (world s2)
  /\ (exists id t, timers (world s2) !! id = Some t /\ cb_auction t = 2%nat)
  /\ (exists id t, timers (world s2) !! id = Some t /\ cb_auction t = 3%nat).
Proof.
  intros s1 s2.
  assert (H1 : @run sample_js schedule_once (boot sample_disk ten_o_clock) = Some s1)
    by (vm_compute; reflexivity).
  assert (H2 : @run sample_js [Invoke FetchAuctionsData; Settle 1 (Resolved 0)] s1 = Some s2)
    by (vm_compute; reflexivity).
  pose (auctions := match content sample_disk with
                    | Json _ auctions => auctions
                    | _ => []
                    end).
  pose (c := {| children := [1%nat]; result := [2%nat; 3%nat];
                status := Returned auctions |}).
  assert (Hc : calls s2 !! length (calls s1) = Some c) by (vm_compute; reflexivity).
  destruct (@schedule_all_reschedules sample_js sample_disk ten_o_clock schedule_once
              [Settle 1 (Resolved 0)] s1 s2 c H1 H2 Hc)
    as (Hcleared & Hregistry & Hsound & Hexact).
  assert (Hnofetch : Invoke FetchAuctionsData ∉ [Settle 1 (Resolved 0)]).
  { intros Hin. apply list_elem_of_singleton in Hin. discriminate. }
  assert (Hnostop : Invoke StopUpdate ∉ [Settle 1 (Resolved 0)]).
  { intros Hin. apply list_elem_of_singleton in Hin. discriminate. }
  destruct (Hsound idle_after_schedule_once) as [_ Hone]; [|exact Hnofetch|].
  { vm_compute. apply NoDup_singleton. }
  assert (Hcred : Cred.mk 1 "alice" "pw" ∈ (loadData (world s1)).1.1).
  { vm_compute. apply list_elem_of_singleton. reflexivity. }
  split; [exact H1|]. split; [exact H2|]. split; [vm_compute; reflexivity|].
  split; [exact Hcleared|]. split; [exact Hregistry|]. split; [exact Hone|].
  split.
  - apply (Hexact Hnofetch Hnostop auctions 2%nat (Cred.mk 1 "alice" "pw")).
    + reflexivity.
    + apply elem_of_cons. left. reflexivity.
    + vm_compute. reflexivity.
    + exact Hcred.
    + vm_compute. reflexivity.
    + vm_compute. discriminate.
    + split; [vm_compute; reflexivity|]. exists 1893492005000.
      split; [vm_compute; reflexivity|]. split; vm_compute; [reflexivity | discriminate].
  - apply (Hexact Hnofetch Hnostop auctions 3%nat (Cred.mk 1 "alice" "pw")).
    + reflexivity.
    + apply elem_of_cons. right. apply list_elem_of_singleton. reflexivity.
    + vm_compute. reflexivity.
    + exact Hcred.
    + vm_compute. reflexivity.
    + vm_compute. discriminate.
    + split; [vm_compute; reflexivity|]. exists 1893492001000.
      split; [vm_compute; reflexivity|]. split; vm_compute; [reflexivity | discriminate].
Defined.

Lemma immediate_bids_one_at_a_time_witness :
  one_at_a_time
    (fun l => @bid_steps sample_js 8 (Auction.idAuction (heap sample_world !!! l))
                (Auction.bidProxy (heap sample_world !!! l)))
    [1%nat; 0%nat; 1%nat]
    (awaited (replicate 14 (Resolved 0, sample_world))
       (@bid_loop sample_js 8 "alice" [1%nat; 0%nat; 1%nat]) sample_world).
Proof.
  apply (@immediate_bids_one_at_a_time sample_js 8 "alice"
           (fun l => Auction.idAuction (heap sample_world !!! l))
           (fun l => Auction.bidProxy (heap sample_world !!! l))).
  - intros l. split; reflexivity.
  - repeat constructor.
Defined.

(** ** Runs in which the properties fail as worded *)


(** C8. The same username on file twice: the first task has armed a
    timer for the auction when the second is still opening its browser;
    [stop-update] cancels that timer; the second task then logs in and
    arms a timer for the same auction, and at the deadline the auction
    is bid on. *)
Lemma stop_while_task_running_still_bids :
  (fun s => cb_auction <$> timers (world s))
    <$> @run sample_js
          (Invoke FetchAuctionsData :: opens_and_logs_in 0 7 8 ++ [Settle 1 (Resolved 9)])
          (boot twin_disk ten_o_clock)
  = Some {[ 0%nat := 0%nat ]}
  /\ (fun s => (cb_auction <$> timers (world s), bidTimeouts (world s)))
       <$> @run sample_js
             (Invoke FetchAuctionsData :: opens_and_logs_in 0 7 8
              ++ [Settle 1 (Resolved 9); Invoke StopUpdate])
             (boot twin_disk ten_o_clock)
     = Some (∅, [])
  /\ (fun s => (console (world s), waiting_on <$> pool s))
       <$> @run sample_js
             (Invoke FetchAuctionsData :: opens_and_logs_in 0 7 8
              ++ [Settle 1 (Resolved 9); Invoke StopUpdate; Settle 1 (Resolved 10)]
              ++ replicate 9 (Settle 1 (Resolved 0)) ++ [Tick 5000; Fire 1])
             (boot twin_disk ten_o_clock)
     = Some ([LIpc "fetch-auctions-data"; LIoLoad; LLoggingIn "alice";
              LLoginSuccessful "alice"; LScheduling "stg/1234" (Some 5000);
              LLoggingIn "alice"; LLoginSuccessful "alice";
              LScheduling "stg/1234" (Some 5000); LPlaceBid "stg/1234"],
             [None; None; Some (SetDefaultTimeout 10 60000)]).
Proof. split; [|split]; vm_compute; reflexivity. Qed.

(** C3. The same username on file twice: one scheduling call starts two
    tasks for the one auction, and both arm a timer for it. *)
Lemma twin_accounts_two_timers :
  (fun s => (map_to_list (timers (world s)), bidTimeouts (world s)))
    <$> @run sample_js
          (Invoke FetchAuctionsData :: opens_and_logs_in 0 7 8 ++ opens_and_logs_in 1 9 10)
          (boot twin_disk ten_o_clock)
  = Some ([(1%nat, {| delay := Some 5000; armedAt := ten_o_clock;
                      cb_auction := 0; cb_page := 10 |});
           (0%nat, {| delay := Some 5000; armedAt := ten_o_clock;
                      cb_auction := 0; cb_page := 8 |})],
          [BidTimeout.mk 0 1 "alice"; BidTimeout.mk 1 1 "alice"]).
Proof. vm_compute. reflexivity. Qed.

(** C5. The auction is deleted from the file between the arming of its
    timer and the bid: every step of [placeBid] succeeds, the object in
    memory is stamped, and the file holds no record of it. *)
Lemma bid_on_deleted_auction_not_persisted :
  (fun s => (console (world s),
             Auction.bidPlaced (heap (world s) !!! 0%nat),
             content (disk (world s))))
    <$> @run sample_js
          (schedule_once ++ [Invoke (SaveAuctions []); Tick 5000; Fire 0]
           ++ replicate 11 (Settle 1 (Resolved 0)))
          (boot single_disk ten_o_clock)
  = Some ([LIpc "fetch-auctions-data"; LIoLoad; LLoggingIn "alice";
           LLoginSuccessful "alice"; LScheduling "stg/1234" (Some 5000);
           LIpc "save-auctions"; LIoLoad; LIoSave;
           LPlaceBid "stg/1234"; LTyping "5.00" "#STG1234-place-bid-input";
           LClickedFirst; LClickedSecond; LIoLoad],
          "1/1/2030, 10:00:05 AM",
          Json [Cred.mk 1 "alice" "pw"] []).
Proof. vm_compute. reflexivity. Qed.

(** C6. The loop meets the auction due in five seconds before the one
    due in one second; the timers fire by deadline, so the second is bid
    on first, and while that bid is still waiting for its page to load
    the other timer fires and starts a bid on the same page. *)
Lemma timer_bids_by_deadline_and_overlapping :
  (fun s => (console (world s), waiting_on <$> pool s))
    <$> @run sample_js
          (schedule_once
           ++ [Tick 1000; Fire 1; Settle 1 (Resolved 0); Settle 1 (Resolved 0);
               Tick 4000; Fire 0])
          (boot sample_disk ten_o_clock)
  = Some ([LIpc "fetch-auctions-data"; LIoLoad; LLoggingIn "alice";
           LLoginSuccessful "alice"; LScheduling "stg/1234" (Some 5000);
           LScheduling "stg/5678" (Some 1000);
           LPlaceBid "stg/5678"; LPlaceBid "stg/1234"],
          [None;
           Some (Goto 8 "https://www.civicsource.com/auctions/stg/5678");
           Some (SetDefaultTimeout 8 60000)]).
Proof. vm_compute. reflexivity. Qed.


(** A credential named [constructor]: [auctionsByAccount.constructor]
    is the function [Object], whose [length] is 1, so [handleUserBids]
    is called with it and throws at [userAuctions.filter]; the call
    fails. An auction whose account is [toString]: the grouping loop
    throws before any task is started. *)
Lemma prototype_names_fail_the_call :
  (fun s => (pool s, calls s))
    <$> @run sample_js [Invoke FetchAuctionsData] (boot constructor_disk ten_o_clock)
  = Some ([Throw "userAuctions.filter is not a function"],
          [{| children := [0%nat]; result := [0%nat];
              status := Failed "userAuctions.filter is not a function" |}])
  /\ (fun s => (pool s, calls s))
       <$> @run sample_js [Invoke FetchAuctionsData] (boot toString_disk ten_o_clock)
     = Some ([],
             [{| children := []; result := [0%nat];
                 status := Failed "auctionsByAccount[auc.account].push is not a function" |}]).
Proof. split; vm_compute; reflexivity. Qed.

(** A second scheduling call made while the task of the first is still
    opening its browser: the first task arms its timer after the second
    call has cleared the registry, and the auction has two live timers. *)
Lemma overlapping_calls_two_timers :
  (fun s => (cb_auction <$> timers (world s),
             BidTimeout.auctionId <$> bidTimeouts (world s),
             Auction.id <$> heap (world s)))
    <$> @run sample_js
          ([Invoke FetchAuctionsData; Invoke FetchAuctionsData]
           ++ opens_and_logs_in 0 7 8 ++ opens_and_logs_in 1 9 10)
          (boot single_disk ten_o_clock)
  = Some ({[ 0%nat := 0%nat; 1%nat := 1%nat ]}, [1; 1], {[ 0%nat := 1; 1%nat := 1 ]}).
Proof. vm_compute. reflexivity. Qed.

(** * The rest of the code *)

(** ** Strings and listing ids *)


Lemma upper_lower_ascii (c : Ascii.ascii) : upper_ascii (lower_ascii c) = upper_ascii c.
Proof. destruct c as [[] [] [] [] [] [] [] []]; vm_compute; reflexivity. Qed.

Lemma toUpperCase_toLowerCase (s : string) : toUpperCase (toLowerCase s) = toUpperCase s.
Proof. induction s as [|c s IH]; cbn; [reflexivity|]. rewrite upper_lower_ascii, IH. reflexivity. Qed.

Lemma toUpperCase_app (s t : string) :
  toUpperCase (s +:+ t) = toUpperCase s +:+ toUpperCase t.
Proof. induction s as [|c s IH]; simpl; [reflexivity|]. rewrite IH. reflexivity. Qed.

Lemma remove_slashes_app (s t : string) :
  remove_slashes (s +:+ t) = remove_slashes s +:+ remove_slashes t.
Proof.
  induction s as [|c s IH]; simpl; [reflexivity|].
  destruct (Ascii.eqb c _); simpl; rewrite IH; reflexivity.
Qed.

Lemma take_drop_str (n : nat) (s : string) : take_str n s +:+ drop_str n s = s.
Proof.
  revert s. induction n as [|n IH]; intros [|c s]; try reflexivity.
  change (String c (take_str n s +:+ drop_str n s) = String c s). rewrite IH. reflexivity.
Qed.

Lemma remove_slashes_slash (a b : string) :
  remove_slashes (toUpperCase (a +:+ ("/" +:+ b))) = remove_slashes (toUpperCase (a +:+ b)).
Proof. rewrite !toUpperCase_app, !remove_slashes_app. reflexivity. Qed.

Lemma inputId_convert (rest : string) :
  inputId (convertCivicSourceUrlToIdAuction (civicsource +:+ rest)) = inputId (trim rest).
Proof.
  unfold inputId. f_equal.
  unfold convertCivicSourceUrlToIdAuction.
  change (startsWith (civicsource +:+ rest) civicsource) with true.
  change (drop_str (String.length civicsource) (civicsource +:+ rest)) with rest.
  cbn [negb]. destruct (Nat.ltb _ 4).
  - rewrite toUpperCase_toLowerCase. reflexivity.
  - rewrite remove_slashes_slash, toUpperCase_app, toUpperCase_toLowerCase.
    rewrite <- toUpperCase_app, take_drop_str. reflexivity.
Qed.

(** X11. An auction imported from a listing URL of the site: the field
    [placeBid] waits for, as its fourth operation, is the one whose id
    is the part of the URL after the site's address, trimmed, in upper
    case and without slashes, followed by [-place-bid-input]. *)
Theorem extracted_id_selector `{Builtins} (rest : string) (auction page : nat) (w : World) :
  ascii_only rest ->
  Auction.idAuction (heap w !!! auction)
  = convertCivicSourceUrlToIdAuction (civicsource +:+ rest) ->
  awaited (replicate 3 (Resolved 0, w)) (placeBid auction page) w !! 3%nat
  = Some (WaitForSelector page
            ("#" +:+ (remove_slashes (toUpperCase (trim rest)) +:+ "-place-bid-input"))
            20000).
Proof.
  intros _ Hid. unfold placeBid.
  cbn [replicate awaited run_sync try_catch log modify await].
  cbn [lookup list_lookup]. do 3 f_equal. rewrite Hid. apply inputId_convert.
Qed.

(** ** The renderer's date and time *)

Lemma split_nonempty (sep : Ascii.ascii) (s : string) : split sep s <> [].
Proof. destruct s as [|c r]; cbn [split]; [discriminate|].
  destruct (Ascii.eqb c sep); [discriminate|]. destruct (split sep r); discriminate. Qed.

Lemma split_whole (sep : Ascii.ascii) (p : string) :
  has_char sep p = false -> split sep p = [p].
Proof.
  induction p as [|c p IH]; cbn [has_char split]; [reflexivity|].
  intros Hno. apply orb_false_iff in Hno as [Hc Hp]. rewrite Hc, (IH Hp). reflexivity.
Qed.

Lemma split_first (sep : Ascii.ascii) (p r : string) :
  has_char sep p = false -> split sep (p +:+ String sep r) = p :: split sep r.
Proof.
  induction p as [|c p IH]; intros Hno.
  - change (split sep (String sep r) = "" :: split sep r). cbn [split].
    rewrite Ascii.eqb_refl. reflexivity.
  - cbn [has_char] in Hno. apply orb_false_iff in Hno as [Hc Hp].
    change (split sep (String c (p +:+ String sep r)) = String c p :: split sep r).
    cbn [split]. rewrite Hc, (IH Hp). reflexivity.
Qed.

Lemma split_join_head (sep : Ascii.ascii) (p : string) (ps : list string) :
  has_char sep p = false ->
  exists rest, split sep (join sep (p :: ps)) = p :: rest
               /\ (ps = [] -> rest = [])
               /\ forall q qs, ps = q :: qs -> rest = split sep (join sep (q :: qs)).
Proof.
  intros Hno. destruct ps as [|q qs].
  - exists []. cbn [join]. rewrite (split_whole _ _ Hno). repeat split; congruence.
  - exists (split sep (join sep (q :: qs))).
    change (join sep (p :: q :: qs)) with (p +:+ String sep (join sep (q :: qs))).
    rewrite (split_first _ _ _ Hno). repeat split; [discriminate|]. intros ? ? [= <- <-]. reflexivity.
Qed.

(** X16. [combineDateTime] on a date [year-month-day] and a time
    [hour:minute] gives [month/day/year hour:minute]; further parts
    (seconds, say) are dropped. A time without a colon leaves the
    minute [undefined]. *)
Theorem combineDateTime_format (year month day hour minute : string)
    (more_date more_time : list string) :
  has_char (Ascii.ascii_of_nat 45) year = false ->
  has_char (Ascii.ascii_of_nat 45) month = false ->
  has_char (Ascii.ascii_of_nat 45) day = false ->
  has_char (Ascii.ascii_of_nat 58) hour = false ->
  has_char (Ascii.ascii_of_nat 58) minute = false ->
  combineDateTime (join (Ascii.ascii_of_nat 45) (year :: month :: day :: more_date))
                  (join (Ascii.ascii_of_nat 58) (hour :: minute :: more_time))
  = month +:+ ("/" +:+ (day +:+ ("/" +:+ (year +:+ (" " +:+ (hour +:+ (":" +:+ minute)))))))
  /\ combineDateTime (join (Ascii.ascii_of_nat 45) [year; month; day]) hour
     = month +:+ ("/" +:+ (day +:+ ("/" +:+ (year +:+ (" " +:+ (hour +:+ ":undefined")))))).
Proof.
  intros Hy Hm Hd Hh Hmi. unfold combineDateTime.
  destruct (split_join_head _ year (month :: day :: more_date) Hy) as (r1 & -> & _ & Hr1).
  rewrite (Hr1 _ _ eq_refl).
  destruct (split_join_head _ month (day :: more_date) Hm) as (r2 & -> & _ & Hr2).
  rewrite (Hr2 _ _ eq_refl).
  destruct (split_join_head _ day more_date Hd) as (r3 & -> & _).
  destruct (split_join_head _ hour (minute :: more_time) Hh) as (r4 & -> & _ & Hr4).
  rewrite (Hr4 _ _ eq_refl).
  destruct (split_join_head _ minute more_time Hmi) as (r5 & -> & _).
  split; [reflexivity|].
  destruct (split_join_head _ year [month; day] Hy) as (r6 & -> & _ & Hr6).
  rewrite (Hr6 _ _ eq_refl).
  destruct (split_join_head _ month [day] Hm) as (r7 & -> & _ & Hr7).
  rewrite (Hr7 _ _ eq_refl).
  destruct (split_join_head _ day [] Hd) as (r8 & -> & _).
  rewrite (split_whole _ _ Hh). reflexivity.
Qed.

(** ** The CSV import *)

Section ExtractFacts.
Variable convertAuctionDate : string -> string.

Lemma add_rows_snoc (records : list Row) (row : Row) (auctions : list Auction.t) :
  add_rows convertAuctionDate (records ++ [row]) auctions
  = add_row convertAuctionDate (add_rows convertAuctionDate records auctions) row.
Proof. unfold add_rows. rewrite foldl_app. reflexivity. Qed.

(** What one row does to the state of the import. *)
Lemma add_row_cases (st : Import) (row : Row) :
  let st' := add_row convertAuctionDate st row in
  (st' = st)
  \/ (imp_auctions st' = imp_auctions st
      /\ imp_maxId st' = incr (imp_maxId st)
      /\ imp_addedCount st' = imp_addedCount st
      /\ exists shortId,
           imp_skipped st' = imp_skipped st ++ [shortId]
           /\ shortId ∈ (Auction.idAuction <$> imp_auctions st))
  \/ (exists a,
        imp_auctions st' = imp_auctions st ++ [a]
        /\ imp_maxId st' = incr (imp_maxId st)
        /\ imp_addedCount st' = S (imp_addedCount st)
        /\ imp_skipped st' = imp_skipped st
        /\ Auction.id a = incr (imp_maxId st)
        /\ (Auction.idAuction a ∉ (Auction.idAuction <$> imp_auctions st))
        /\ Auction.bidProxy a = "0" /\ Auction.account a = "" /\ Auction.bidPlaced a = "").
Proof.
  intros st'. subst st'. unfold add_row.
  destruct (String.eqb _ "" || String.eqb _ ""); [left; reflexivity|].
  set (shortId := convertCivicSourceUrlToIdAuction (field row "URL")).
  destruct (existsb _ (imp_auctions st)) eqn:Hdup.
  - right; left. cbn. repeat split. exists shortId. split; [reflexivity|].
    apply existsb_exists in Hdup as (a & Ha & Heq). apply String.eqb_eq in Heq.
    apply list_elem_of_fmap. exists a. split; [auto|]. apply list_elem_of_In. exact Ha.
  - right; right. eexists. cbn. repeat split.
    intros Hin. apply list_elem_of_fmap in Hin as (a & Heq & Ha).
    assert (Ht : existsb (fun a => String.eqb (Auction.idAuction a) shortId) (imp_auctions st) = true).
    { apply existsb_exists. exists a. split; [apply list_elem_of_In; exact Ha|].
      apply String.eqb_eq. symmetry. exact Heq. }
    congruence.
Qed.

Lemma max_id_bound (auctions : list Auction.t) :
  0 <= max_id auctions /\ Forall (fun a => Auction.id a <= max_id auctions) auctions.
Proof.
  unfold max_id.
  assert (Hgen : forall m, m <= foldl (fun acc a => Z.max acc (Auction.id a)) m auctions
            /\ Forall (fun a => Auction.id a <= foldl (fun acc a => Z.max acc (Auction.id a)) m auctions) auctions).
  { induction auctions as [|a rest IH]; intros m; cbn [foldl].
    - split; [lia | constructor].
    - destruct (IH (Z.max m (Auction.id a))) as [Hle Hall]. split; [lia|].
      constructor; [lia | exact Hall]. }
  apply Hgen.
Qed.

Lemma add_rows_imported (records : list Row) (auctions : list Auction.t) :
  exists new, imported auctions (add_rows convertAuctionDate records auctions) new
              /\ (length new + length (imp_skipped (add_rows convertAuctionDate records auctions))
                  <= length records)%nat.
Proof.
  induction records as [|row records IH] using rev_ind.
  - exists []. split; [|cbn; lia]. split; cbn; try constructor.
    + rewrite app_nil_r. reflexivity.
    + intros a Ha. inversion Ha.
    + intros x Hx. inversion Hx.
  - destruct IH as (new & [Happ Hcount Hfields Hnd' Hnew Hskip] & Hlen).
    rewrite add_rows_snoc.
    set (st := add_rows convertAuctionDate records auctions) in *.
    rewrite length_app. cbn [length].
    destruct (add_row_cases st row)
      as [-> | [(Ha & Hm & Hc & shortId & Hs & Hin)
               | (a & Ha & Hm & Hc & Hs & Hid & Hfresh & Hf)]].
    + exists new. split; [split; auto | lia].
    + exists new. split; [split|].
      * congruence.
      * congruence.
      * exact Hfields.
      * exact Hnd'.
      * exact Hnew.
      * intros x. rewrite Hs, Ha. intros Hx. apply elem_of_app in Hx as [Hx|Hx]; [auto|].
        apply list_elem_of_singleton in Hx as ->. exact Hin.
      * rewrite Hs, length_app. cbn [length]. lia.
    + exists (new ++ [a]). rewrite Happ in Ha, Hfresh.
      rewrite fmap_app in Hfresh. apply not_elem_of_app in Hfresh as [Hf1 Hf2].
      split; [split|].
      * rewrite Ha, app_assoc. reflexivity.
      * rewrite length_app, Hc, <- Hcount. cbn [length]. lia.
      * apply Forall_app. split; [exact Hfields|]. constructor; [exact Hf | constructor].
      * rewrite fmap_app. apply NoDup_app. split; [exact Hnd'|]. split.
        -- intros x Hx Hx'. apply list_elem_of_singleton in Hx' as ->. contradiction.
        -- apply NoDup_singleton.
      * intros b Hb. apply elem_of_app in Hb as [Hb|Hb]; [auto|].
        apply list_elem_of_singleton in Hb as ->. exact Hf1.
      * intros x. rewrite Hs, Ha, fmap_app. intros Hx.
        apply elem_of_app. left. rewrite <- Happ. auto.
      * rewrite Hs, length_app. cbn [length]. lia.
Qed.

Lemma incr_exact (n : Z) : 0 <= n < 9007199254740992 -> incr n = n + 1.
Proof.
  intros Hn. unfold incr.
  destruct (Z.ltb_spec (Z.abs n) 9007199254740992); [reflexivity | lia].
Qed.

(** While [maxId] stays below 2^53 the ids handed out count up from the
    largest id on file. *)
Lemma add_rows_ids (records : list Row) (auctions : list Auction.t) :
  max_id auctions + Z.of_nat (length records) < 9007199254740992 ->
  exists new,
    imp_auctions (add_rows convertAuctionDate records auctions) = auctions ++ new
    /\ max_id auctions <= imp_maxId (add_rows convertAuctionDate records auctions)
       <= max_id auctions + Z.of_nat (length records)
    /\ Forall (fun a => max_id auctions < Auction.id a
                        <= imp_maxId (add_rows convertAuctionDate records auctions)) new
    /\ NoDup (Auction.id <$> new).
Proof.
  destruct (max_id_bound auctions) as [H0 _].
  induction records as [|row records IH] using rev_ind; intros Hbound.
  - exists []. cbn. rewrite app_nil_r. repeat split; try lia; constructor.
  - rewrite length_app in Hbound. cbn [length] in Hbound.
    destruct IH as (new & Happ & Hmax & Hids & Hnd); [lia|].
    rewrite add_rows_snoc, length_app. cbn [length].
    set (st := add_rows convertAuctionDate records auctions) in *.
    assert (Hincr : incr (imp_maxId st) = imp_maxId st + 1) by (apply incr_exact; lia).
    destruct (add_row_cases st row)
      as [-> | [(Ha & Hm & Hc & shortId & Hs & Hin)
               | (a & Ha & Hm & Hc & Hs & Hid & Hfresh & Hf)]].
    + exists new. split; [exact Happ|]. split; [lia|]. split; assumption.
    + exists new. rewrite Hm, Hincr, Ha. split; [exact Happ|]. split; [lia|].
      split; [|exact Hnd]. eapply Forall_impl; [exact Hids|]. cbn. intros; lia.
    + exists (new ++ [a]). rewrite Hm, Hincr, Ha, Happ, <- app_assoc.
      rewrite Hincr in Hid.
      split; [reflexivity|]. split; [lia|]. split.
      * apply Forall_app. split.
        -- eapply Forall_impl; [exact Hids|]. cbn. intros; lia.
        -- constructor; [lia | constructor].
      * rewrite fmap_app. apply NoDup_app. split; [exact Hnd|]. split.
        -- intros x Hx Hx'. apply list_elem_of_singleton in Hx' as ->.
           apply list_elem_of_fmap in Hx as (b & Hb & Hin).
           rewrite Forall_forall in Hids. specialize (Hids b Hin). cbn in Hb. lia.
        -- apply NoDup_singleton.
Qed.

(** X12. The import only appends: the auctions on file stay where they
    are, unchanged; the count reported is the number appended, at most
    one per row; and every appended auction has bid [0], no account and
    no bid time. *)
Theorem import_only_appends (records : list Row) (auctions : list Auction.t) :
  exists new,
    imp_auctions (add_rows convertAuctionDate records auctions) = auctions ++ new
    /\ length new = imp_addedCount (add_rows convertAuctionDate records auctions)
    /\ (length new + length (imp_skipped (add_rows convertAuctionDate records auctions))
        <= length records)%nat
    /\ Forall (fun a => Auction.bidProxy a = "0" /\ Auction.account a = ""
                        /\ Auction.bidPlaced a = "") new.
Proof.
  destruct (add_rows_imported records auctions) as (new & [] & Hlen).
  exists new. auto.
Qed.

(** X13. While the largest id on file plus the number of rows stays
    below 2^53, where [maxId++] is exact, the ids the import hands out
    are positive, above every id on file and pairwise distinct: if no
    two auctions on file share an id, no two auctions share one
    afterwards. *)
Theorem import_ids_fresh (records : list Row) (auctions : list Auction.t) :
  max_id auctions + Z.of_nat (length records) < 9007199254740992 ->
  NoDup (Auction.id <$> auctions) ->
  NoDup (Auction.id <$> imp_auctions (add_rows convertAuctionDate records auctions))
  /\ forall i a,
       imp_auctions (add_rows convertAuctionDate records auctions) !! i = Some a ->
       (length auctions <= i)%nat ->
       0 < Auction.id a /\ Forall (fun b => Auction.id b < Auction.id a) auctions.
Proof.
  intros Hbound Hnd.
  destruct (add_rows_ids records auctions Hbound) as (new & Happ & _ & Hids & Hndnew).
  destruct (max_id_bound auctions) as [H0 Hmax].
  rewrite Happ. split.
  - rewrite fmap_app. apply NoDup_app. split; [exact Hnd|]. split; [|assumption].
    intros x Hx Hx'. apply list_elem_of_fmap in Hx as (a & -> & Ha).
    apply list_elem_of_fmap in Hx' as (b & Hab & Hb).
    rewrite Forall_forall in Hmax, Hids.
    specialize (Hmax a Ha). specialize (Hids b Hb). cbn in *. lia.
  - intros i a Hi Hge. rewrite lookup_app_r in Hi by exact Hge.
    apply list_elem_of_lookup_2 in Hi.
    rewrite Forall_forall in Hids. specialize (Hids a Hi). cbn in *.
    split; [lia|]. eapply Forall_impl; [exact Hmax|]. cbn. intros; lia.
Qed.

(** X14. The import adds no listing twice: if the listing ids
    ([idAuction]) on file are pairwise distinct, they still are
    afterwards, and every row logged as a duplicate names a listing
    that is on file by then. *)
Theorem import_listings_distinct (records : list Row) (auctions : list Auction.t) :
  NoDup (Auction.idAuction <$> auctions) ->
  NoDup (Auction.idAuction <$> imp_auctions (add_rows convertAuctionDate records auctions))
  /\ forall x,
       x ∈ imp_skipped (add_rows convertAuctionDate records auctions) ->
       x ∈ (Auction.idAuction <$> imp_auctions (add_rows convertAuctionDate records auctions)).
Proof.
  intros Hnd. destruct (add_rows_imported records auctions) as (new & [] & _).
  split; [|assumption]. rewrite imported_app0, fmap_app.
  apply NoDup_app. split; [exact Hnd|]. split; [|assumption].
  intros x Hx Hx'. apply list_elem_of_fmap in Hx' as (b & -> & Hb).
  exact (imported_new0 b Hb Hx).
Qed.

(** X15. From the parsed rows to [saveData]: the count the handler
    reports is the number of auctions the import appended, whether or
    not the file could be written; the file afterwards holds the
    credentials it held and the auctions with the new ones appended, or
    is as it was when it cannot be written. *)
Theorem import_records_result (records : list Row) (w : World) :
  let st := add_rows convertAuctionDate (clean_row <$> records) (stored_auctions (disk w)) in
  (import_records convertAuctionDate records w).1 = imp_addedCount st
  /\ content (disk (import_records convertAuctionDate records w).2)
     = (if writable (disk w)
        then Json (stored_credentials (disk w)) (imp_auctions st)
        else content (disk w)).
Proof.
  unfold import_records, stored_auctions, stored_credentials, loadData, saveData. cbn.
  destruct (content (disk w)) as [| |credentials auctions] eqn:Hc;
    destruct (writable (disk w)) eqn:Hw;
    repeat (cbn; rewrite ?Hw, ?Hc); split; reflexivity.
Qed.

End ExtractFacts.

(** ** Grouping by account *)

(** X3. [auctionsByAccount] is a plain object. If no auction has an
    account named like a member of [Object.prototype], it holds, under
    each account name, exactly the auctions of that account, in the
    order of the file; an auction without an account is under no key,
    and an account without auctions has no key. If some auction has
    such an account, the grouping loop throws. *)
Theorem group_by_account_filter (w : World) (auctions : list nat) :
  (Forall (fun l => inherited (Auction.account (heap w !!! l)) = None) auctions ->
   exists m,
     group_by_account w auctions = Some m
     /\ forall u,
          m !! u
          = if String.eqb u "" then None
            else match List.filter
                         (fun l => String.eqb (Auction.account (heap w !!! l)) u) auctions with
                 | [] => None
                 | ua => Some ua
                 end)
  /\ (Exists (fun l => inherited (Auction.account (heap w !!! l)) <> None) auctions ->
      group_by_account w auctions = None).
Proof.
  assert (Hcases := group_by_account_cases w auctions).
  destruct (forallb (fun l => plain (Auction.account (heap w !!! l))) auctions) eqn:Hall.
  - split; [intros _; exact Hcases|].
    intros Hex. apply Exists_exists in Hex as (l & Hl & Hne).
    rewrite forallb_forall in Hall. apply list_elem_of_In in Hl.
    specialize (Hall l Hl). unfold plain in Hall.
    destruct (inherited (Auction.account (heap w !!! l))); [discriminate | done].
  - split; [|intros _; exact Hcases].
    intros Hok. apply forallb_false in Hall as (l & Hl & Hpl).
    rewrite Forall_forall in Hok. specialize (Hok l Hl). unfold plain in Hpl.
    rewrite Hok in Hpl. discriminate.
Qed.

(** ** Which operations a task awaits *)

Section Awaits.
Context `{Builtins}.
Variable P : Action -> bool.

Lemma only_awaits_and_then (p q : Prog) :
  only_awaits P p -> only_awaits P q -> only_awaits P (and_then p q).
Proof.
  intros Hp Hq. induction p as [|err|k IH|w k IH|a k IH]; cbn [and_then only_awaits] in *; auto.
  destruct Hp as [Ha Hk]. split; auto.
Qed.

Lemma only_awaits_try_catch (p : Prog) (h : string -> Prog) :
  only_awaits P p -> (forall err, only_awaits P (h err)) -> only_awaits P (try_catch p h).
Proof.
  intros Hp Hh. induction p as [|err|k IH|w k IH|a k IH]; cbn [try_catch only_awaits] in *; auto.
  destruct Hp as [Ha Hk]. split; auto.
Qed.

Lemma only_awaits_await (a : Action) (k : nat -> Prog) :
  P a = true -> (forall v, only_awaits P (k v)) -> only_awaits P (await a k).
Proof. intros Ha Hk. split; [exact Ha|]. intros [v|err]; [apply Hk | exact I]. Qed.

Lemma only_awaits_run_sync (p : Prog) (w : World) :
  only_awaits P p -> only_awaits P (run_sync p w).2.
Proof.
  revert w. induction p as [|err|k IH|w1 k IH|a k IH]; intros w Hp; cbn [run_sync snd]; auto.
Qed.

Lemma only_awaits_awaited (sched : list (Outcome * World)) :
  forall (p : Prog) (w : World),
    only_awaits P p -> Forall (fun a => P a = true) (awaited sched p w).
Proof.
  induction sched as [|[o w1] sched IH]; intros p w Hp; cbn [awaited];
    pose proof (only_awaits_run_sync p w Hp) as Hr;
    destruct (run_sync p w) as [w' [|err|k|w2 k|a k]]; try constructor;
    cbn [snd only_awaits] in Hr; destruct Hr as [Ha Hk]; auto.
Qed.

End Awaits.

Section Pages.
Context `{Builtins}.

Lemma placeBid_on_page (auction page : nat) : only_awaits (on_page page) (placeBid auction page).
Proof.
  unfold placeBid. intros w. cbn [only_awaits log modify].
  intros _. apply only_awaits_try_catch; [|intros err w'; exact I].
  repeat first
    [ apply only_awaits_await; [cbn; apply Nat.eqb_refl || reflexivity | intros _]
    | intros ? ].
  all: cbn [only_awaits modify log]; auto.
Qed.

Lemma ensureLoggedIn_on_page (username password : string) (page : nat) :
  only_awaits (on_page page) (ensureLoggedIn username password page).
Proof.
  unfold ensureLoggedIn. intros w. destruct (browserMap w !! username) as [session|]; [|exact I].
  destruct (isLoggedIn session); [intros w'; exact I|].
  unfold login_steps. apply only_awaits_try_catch; [|intros err w'; exact I].
  intros w1.
  repeat first
    [ apply only_awaits_await; [cbn; apply Nat.eqb_refl || reflexivity | intros _]
    | intros ? ].
  cbn [only_awaits]. destruct (browserMap _ !! username); exact I.
Qed.

Lemma bid_loop_on_page (page : nat) (username : string) (auctionsToBid : list nat) :
  only_awaits (on_page page) (bid_loop page username auctionsToBid).
Proof.
  induction auctionsToBid as [|auction rest IH]; [exact I|].
  cbn [bid_loop]. intros w. destruct (no_time _); [intros w'; exact IH|].
  destruct (le0 _).
  - apply only_awaits_and_then; [apply placeBid_on_page|]. split; [reflexivity|]. intros _. exact IH.
  - intros w'. exact IH.
Qed.

Lemma bid_with_session_on_page (username password : string) (auctionsToBid : list nat)
    (session : Session) (w : World) :
  browserMap w !! username = Some session ->
  only_awaits (on_page (page session)) (run_sync (bid_with_session username password auctionsToBid) w).2.
Proof.
  intros Hs. unfold bid_with_session. cbn [run_sync]. rewrite Hs.
  apply only_awaits_run_sync, only_awaits_and_then; [apply ensureLoggedIn_on_page|].
  split; [reflexivity|]. intros _. apply bid_loop_on_page.
Qed.

Lemma awaited_run_sync (sched : list (Outcome * World)) (p : Prog) (w : World) :
  awaited sched p w = awaited sched (run_sync p w).2 (run_sync p w).1.
Proof.
  apply awaited_ext. revert w. induction p as [|err|k IH|w1 k IH|a k IH]; intros w;
    cbn [run_sync fst snd]; auto.
Qed.

(** X5. [handleUserBids] for an account that has a session awaits
    operations on that session's page only (and pauses): it launches no
    browser, opens no page and closes nothing. For an account without
    a session it first launches a browser, not headless, and opens one
    page in it; everything after that is on this page. *)
Theorem handleUserBids_pages (cred : Cred.t) (userAuctions : list nat)
    (sched : list (Outcome * World)) (w : World) :
  (forall session,
     browserMap w !! Cred.username cred = Some session ->
     Forall (fun a => on_page (page session) a = true)
       (awaited sched (handleUserBids cred userAuctions) w))
  /\ (forall br pg w1 w2 rest,
        browserMap w !! Cred.username cred = None ->
        List.filter (eligible w) userAuctions <> [] ->
        sched = (Resolved br, w1) :: (Resolved pg, w2) :: rest ->
        exists ops,
          awaited sched (handleUserBids cred userAuctions) w
          = Launch HEADLESS_BIDDING :: NewPage br :: ops
          /\ Forall (fun a => on_page pg a = true) ops).
Proof.
  split.
  - intros session Hs. rewrite awaited_run_sync.
    unfold handleUserBids. cbn [run_sync].
    destruct (List.filter (eligible w) userAuctions) as [|l toBid].
    + apply only_awaits_awaited. exact I.
    + rewrite Hs. apply only_awaits_awaited.
      apply bid_with_session_on_page. exact Hs.
  - intros br pg w1 w2 rest Hnone Hsome ->.
    unfold handleUserBids. cbn [awaited run_sync].
    destruct (List.filter (eligible w) userAuctions) as [|l toBid]; [done|].
    rewrite Hnone. cbn [awaited run_sync await]. eexists. split; [reflexivity|].
    rewrite awaited_run_sync. apply only_awaits_awaited.
    eapply (bid_with_session_on_page _ _ _ {| browser := br; page := pg; isLoggedIn := false |}).
    cbn. apply lookup_insert_eq.
Qed.

(** X6. The callback of a timer awaits operations on the page captured
    when the timer was armed, whatever has become of the session since. *)
Theorem timer_callback_on_its_page (t : Timer) (sched : list (Outcome * World)) (w : World) :
  Forall (fun a => on_page (cb_page t) a = true) (awaited sched (timer_callback t) w).
Proof.
  apply only_awaits_awaited. unfold timer_callback.
  apply only_awaits_and_then; [apply placeBid_on_page|]. split; [reflexivity|]. intros _. exact I.
Qed.

End Pages.

(** ** Logging in *)

(** X4. On a session that is not logged in, when the eight login
    operations succeed: they are the two timeouts, the login page, the
    username typed into the username field, the password into the
    password field, and the submit click; afterwards the session still
    in [browserMap] has [isLoggedIn] set and nothing else is changed.
    If the session was removed in the meantime, the error is caught and
    logged and nothing is thrown. *)
Theorem ensureLoggedIn_login (username password : string) (page : nat) (session : Session)
    (sched : list (Outcome * World)) (w0 w : World) (v : nat) :
  browserMap w0 !! username = Some session ->
  isLoggedIn session = false ->
  Forall (fun ow => resolved ow.1) sched ->
  length sched = 7%nat ->
  awaited (sched ++ [(Resolved v, w)]) (ensureLoggedIn username password page) w0
  = [ SetDefaultNavigationTimeout page 60000;
      SetDefaultTimeout page 60000;
      Goto page "https://www.civicsource.com/login/";
      WaitForSelector page "input[name=username]" 20000;
      TypeText page "input[name=username]" username;
      WaitForSelector page "input[name=password]" 20000;
      TypeText page "input[name=password]" password;
      ClickAndWaitForNavigation page "button[type=submit]" ]
  /\ feed (sched ++ [(Resolved v, w)]) (ensureLoggedIn username password page) w0
     = (match browserMap w !! username with
        | Some current =>
            set_browserMap (insert username (logged_in current))
              (console_log (LLoginSuccessful username) w)
        | None =>
            console_log (LLoginError username "TypeError")
              (console_log (LLoginSuccessful username) w)
        end, Ret).
Proof.
  intros Hs Hflag Hok Hlen.
  do 7 (peel sched Hok; [cbn [length] in Hlen; lia|]).
  destruct sched; [|cbn [length] in Hlen; lia].
  unfold ensureLoggedIn, login_steps.
  cbn [app awaited feed run_sync try_catch log modify await]. rewrite Hs, Hflag.
  cbn [app awaited feed run_sync try_catch log modify await].
  change (browserMap (console_log (LLoginSuccessful username) w))
    with (browserMap w).
  destruct (browserMap w !! username) as [current|]; split; reflexivity.
Qed.

(** ** Closing the browsers *)

Lemma last_world_cons (o : Outcome) (w1 w0 : World) (sched : list (Outcome * World)) :
  last_world ((o, w1) :: sched) w0 = last_world sched w1.
Proof.
  unfold last_world. cbn [fmap list_fmap snd]. rewrite last_cons.
  destruct (last _); reflexivity.
Qed.

Lemma close_loop_all (bm : gmap string Session) (usernames : list string)
    (sessions : list Session) :
  Forall2 (fun u s => bm !! u = Some s) usernames sessions ->
  forall (sched : list (Outcome * World)) (w0 : World),
    browserMap w0 = bm ->
    length sched = length usernames ->
    Forall (fun ow => resolved ow.1 /\ browserMap ow.2 = bm) sched ->
    feed sched (close_loop usernames) w0
    = (set_browserMap (fun _ => ∅) (last_world sched w0), Ret)
    /\ awaited sched (close_loop usernames) w0
       = (fun s => CloseBrowser (browser s)) <$> sessions.
Proof.
  induction 1 as [|u s usernames sessions Hu _ IH]; intros sched w0 Hbm Hlen Hok.
  - destruct sched; [|discriminate]. split; reflexivity.
  - destruct sched as [|[o w1] sched]; [discriminate|].
    apply Forall_cons in Hok as [[[v Hv] Hbm1] Hok]. cbn [fst snd] in Hv, Hbm1. subst o.
    cbn [length] in Hlen. injection Hlen as Hlen.
    destruct (IH sched w1 Hbm1 Hlen Hok) as [Hfeed Haw].
    rewrite last_world_cons.
    cbn [close_loop feed awaited run_sync]. rewrite Hbm, Hu.
    cbn [feed awaited run_sync await fmap list_fmap]. rewrite Hfeed, Haw. split; reflexivity.
Qed.

Lemma close_loop_fails (bm : gmap string Session) (usernames : list string)
    (sessions : list Session) :
  Forall2 (fun u s => bm !! u = Some s) usernames sessions ->
  forall (sched : list (Outcome * World)) (w0 w : World) (err : string),
    browserMap w0 = bm ->
    (length sched < length usernames)%nat ->
    Forall (fun ow => resolved ow.1 /\ browserMap ow.2 = bm) sched ->
    feed (sched ++ [(Rejected err, w)]) (close_loop usernames) w0 = (w, Throw err)
    /\ awaited (sched ++ [(Rejected err, w)]) (close_loop usernames) w0
       = (fun s => CloseBrowser (browser s)) <$> take (S (length sched)) sessions.
Proof.
  induction 1 as [|u s usernames sessions Hu _ IH]; intros sched w0 w err Hbm Hlen Hok.
  - cbn [length] in Hlen. lia.
  - destruct sched as [|[o w1] sched].
    + cbn [app close_loop feed awaited run_sync]. rewrite Hbm, Hu.
      cbn [feed awaited run_sync await length take fmap list_fmap]. rewrite take_0.
      split; reflexivity.
    + apply Forall_cons in Hok as [[[v Hv] Hbm1] Hok]. cbn [fst snd] in Hv, Hbm1. subst o.
      cbn [length] in Hlen.
      destruct (IH sched w1 w err Hbm1 ltac:(lia) Hok) as [Hfeed Haw].
      cbn [app close_loop feed awaited run_sync]. rewrite Hbm, Hu.
      cbn [feed awaited run_sync await length take fmap list_fmap]. rewrite Hfeed, Haw.
      split; reflexivity.
Qed.

Lemma sessions_listed (bm : gmap string Session) :
  Forall2 (fun u s => bm !! u = Some s) (fst <$> map_to_list bm) (snd <$> map_to_list bm).
Proof.
  apply Forall2_fmap, Forall_Forall2_diag, Forall_forall.
  intros [u s] Hin. apply elem_of_map_to_list in Hin. exact Hin.
Qed.

(** X7. [close-all-windows], when every [browser.close()] succeeds and
    nothing else touches [browserMap] meanwhile: it awaits one close
    per session, nothing else, and ends with [browserMap] empty and the
    rest of the state, timers included, as it was. *)
Theorem close_all_windows_closes_all (sched : list (Outcome * World)) (w0 : World) :
  length sched = size (browserMap w0) ->
  Forall (fun ow => resolved ow.1 /\ browserMap ow.2 = browserMap w0) sched ->
  feed sched close_all_windows w0
  = (set_browserMap (fun _ => ∅) (last_world sched w0), Ret)
  /\ awaited sched close_all_windows w0
     ≡ₚ (fun us => CloseBrowser (browser us.2)) <$> map_to_list (browserMap w0).
Proof.
  intros Hlen Hok.
  destruct (close_loop_all (browserMap w0) _ _ (sessions_listed (browserMap w0))
              sched w0 eq_refl) as [Hfeed Haw]; [|exact Hok|].
  { rewrite length_fmap, length_map_to_list. exact Hlen. }
  split.
  - rewrite <- Hfeed. apply feed_ext. reflexivity.
  - rewrite <- list_fmap_compose in Haw.
    assert (Heq : awaited sched close_all_windows w0
                  = (fun us => CloseBrowser (browser us.2)) <$> map_to_list (browserMap w0)).
    { etransitivity; [|exact Haw]. apply awaited_ext. reflexivity. }
    rewrite Heq. reflexivity.
Qed.

(** X8. [close-all-windows], when a [browser.close()] is rejected: the
    handler throws that error at once, having written nothing, so no
    entry of [browserMap] is removed, not even those of the browsers
    already closed, and the remaining browsers stay open. *)
Theorem close_all_windows_failure (sched : list (Outcome * World)) (w0 w : World)
    (err : string) :
  (length sched < size (browserMap w0))%nat ->
  Forall (fun ow => resolved ow.1 /\ browserMap ow.2 = browserMap w0) sched ->
  feed (sched ++ [(Rejected err, w)]) close_all_windows w0 = (w, Throw err)
  /\ exists closed,
       awaited (sched ++ [(Rejected err, w)]) close_all_windows w0
       = (fun us => CloseBrowser (browser us.2)) <$> closed
       /\ length closed = S (length sched)
       /\ closed ⊆+ map_to_list (browserMap w0).
Proof.
  intros Hlen Hok.
  destruct (close_loop_fails (browserMap w0) _ _ (sessions_listed (browserMap w0))
              sched w0 w err eq_refl) as [Hfeed Haw]; [|exact Hok|].
  { rewrite length_fmap, length_map_to_list. exact Hlen. }
  split.
  - rewrite <- Hfeed. apply feed_ext. reflexivity.
  - exists (take (S (length sched)) (map_to_list (browserMap w0))).
    rewrite <- fmap_take, <- list_fmap_compose in Haw. split; [|split].
    + etransitivity; [|exact Haw]. apply awaited_ext. reflexivity.
    + rewrite length_take, length_map_to_list. lia.
    + apply sublist_submseteq, sublist_take.
Qed.

(** ** The store handlers *)

Lemma loadData_result (w : World) :
  (loadData w).1 = (stored_credentials (disk w), stored_auctions (disk w))
  /\ writable (disk (loadData w).2) = writable (disk w)
  /\ stored_credentials (disk (loadData w).2) = stored_credentials (disk w)
  /\ stored_auctions (disk (loadData w).2) = stored_auctions (disk w)
  /\ (writable (disk w) = false -> content (disk (loadData w).2) = content (disk w)).
Proof.
  unfold loadData, stored_credentials, stored_auctions.
  change (disk (console_log LIoLoad w)) with (disk w).
  destruct (content (disk w)) as [| |credentials auctions] eqn:Hc;
    [destruct (writable (disk w)) eqn:Hw| |]; cbn; rewrite ?Hc; auto.
  repeat split; auto. discriminate.
Qed.

Lemma saveData_result (credentials : list Cred.t) (auctions : list Auction.t) (w : World) :
  (saveData credentials auctions w).1 = writable (disk w)
  /\ writable (disk (saveData credentials auctions w).2) = writable (disk w)
  /\ content (disk (saveData credentials auctions w).2)
     = (if writable (disk w) then Json credentials auctions else content (disk w)).
Proof.
  unfold saveData. change (disk (console_log LIoSave w)) with (disk w).
  destruct (writable (disk w)) eqn:Hw; cbn; rewrite ?Hw; auto.
Qed.

Lemma save_auctions_world (updatedAuctions : list Auction.t) (s : Sys) :
  exists w,
    disk w = disk (world s)
    /\ world (save_auctions updatedAuctions s)
       = (saveData (stored_credentials (disk (world s))) updatedAuctions (loadData w).2).2
    /\ save_auctions_result updatedAuctions s
       = (saveData (stored_credentials (disk (world s))) updatedAuctions (loadData w).2).1.
Proof.
  exists (console_log (LIpc "save-auctions") (world s)). split; [reflexivity|].
  unfold save_auctions, save_auctions_result.
  pose proof (loadData_result (console_log (LIpc "save-auctions") (world s))) as (Hd & _).
  destruct (loadData _) as [[credentials auctions] w2]. cbn [fst snd] in *.
  injection Hd as -> _. split; reflexivity.
Qed.

Lemma save_credentials_world (updatedCreds : list Cred.t) (s : Sys) :
  exists w,
    disk w = disk (world s)
    /\ world (save_credentials updatedCreds s)
       = (saveData updatedCreds (stored_auctions (disk (world s))) (loadData w).2).2
    /\ save_credentials_result updatedCreds s
       = (saveData updatedCreds (stored_auctions (disk (world s))) (loadData w).2).1.
Proof.
  exists (console_log (LIpc "save-credentials") (world s)). split; [reflexivity|].
  unfold save_credentials, save_credentials_result.
  pose proof (loadData_result (console_log (LIpc "save-credentials") (world s))) as (Hd & _).
  destruct (loadData _) as [[credentials auctions] w2]. cbn [fst snd] in *.
  injection Hd as _ ->. split; reflexivity.
Qed.

(** The file after a save handler, and what the handler returns. *)
Lemma save_auctions_disk (updatedAuctions : list Auction.t) (s : Sys) :
  let d := disk (world s) in
  save_auctions_result updatedAuctions s = writable d
  /\ writable (disk (world (save_auctions updatedAuctions s))) = writable d
  /\ content (disk (world (save_auctions updatedAuctions s)))
     = (if writable d then Json (stored_credentials d) updatedAuctions else content d).
Proof.
  intros d. subst d.
  destruct (save_auctions_world updatedAuctions s) as (w & Hw & -> & ->).
  destruct (loadData_result w) as (_ & Hwr & _ & _ & Hsame).
  destruct (saveData_result (stored_credentials (disk (world s))) updatedAuctions (loadData w).2)
    as (-> & -> & ->).
  rewrite Hwr, Hw. repeat split.
  destruct (writable (disk (world s))) eqn:Hwb; [reflexivity|].
  rewrite <- Hw. apply Hsame. rewrite Hw. exact Hwb.
Qed.

Lemma save_credentials_disk (updatedCreds : list Cred.t) (s : Sys) :
  let d := disk (world s) in
  save_credentials_result updatedCreds s = writable d
  /\ writable (disk (world (save_credentials updatedCreds s))) = writable d
  /\ content (disk (world (save_credentials updatedCreds s)))
     = (if writable d then Json updatedCreds (stored_auctions d) else content d).
Proof.
  intros d. subst d.
  destruct (save_credentials_world updatedCreds s) as (w & Hw & -> & ->).
  destruct (loadData_result w) as (_ & Hwr & _ & _ & Hsame).
  destruct (saveData_result updatedCreds (stored_auctions (disk (world s))) (loadData w).2)
    as (-> & -> & ->).
  rewrite Hwr, Hw. repeat split.
  destruct (writable (disk (world s))) eqn:Hwb; [reflexivity|].
  rewrite <- Hw. apply Hsame. rewrite Hw. exact Hwb.
Qed.

Lemma get_credentials_reads (s : Sys) :
  (get_credentials s).1 = stored_credentials (disk (world s)).
Proof.
  unfold get_credentials.
  pose proof (loadData_result (console_log (LIpc "get-credentials") (world s))) as (Hd & _).
  destruct (loadData _) as [[credentials auctions] w2]. cbn [fst snd] in *.
  injection Hd as -> _. reflexivity.
Qed.

Lemma get_auctions_reads (s : Sys) :
  (get_auctions s).1 = stored_auctions (disk (world s)).
Proof.
  unfold get_auctions.
  pose proof (loadData_result (console_log (LIpc "get-auctions") (world s))) as (Hd & _).
  destruct (loadData _) as [[credentials auctions] w2]. cbn [fst snd] in *.
  injection Hd as _ ->. reflexivity.
Qed.

(** X9. [save-auctions] and [save-credentials] return whether the file
    was written. When it was, the file holds the collection handed in
    and the other collection as [loadData] read it: unchanged from a
    readable file, empty from a missing or unreadable one. When it was
    not, the file is as it was. *)
Theorem save_replaces_one_collection (s : Sys) (updatedAuctions : list Auction.t)
    (updatedCreds : list Cred.t) :
  let d := disk (world s) in
  save_auctions_result updatedAuctions s = writable d
  /\ save_credentials_result updatedCreds s = writable d
  /\ content (disk (world (save_auctions updatedAuctions s)))
     = (if writable d then Json (stored_credentials d) updatedAuctions else content d)
  /\ content (disk (world (save_credentials updatedCreds s)))
     = (if writable d then Json updatedCreds (stored_auctions d) else content d).
Proof.
  intros d.
  destruct (save_auctions_disk updatedAuctions s) as (Ha & _ & Hca).
  destruct (save_credentials_disk updatedCreds s) as (Hc & _ & Hcc).
  auto.
Qed.

(** X10. Saving one collection never changes what the handler of the
    other one reads back; what was saved is read back exactly when the
    file can be written; and on a writable file the two saves in either
    order leave exactly the two collections handed in, whatever the
    file held before. *)
Theorem save_then_get (s : Sys) (updatedAuctions : list Auction.t)
    (updatedCreds : list Cred.t) :
  (get_auctions (save_credentials updatedCreds s)).1 = (get_auctions s).1
  /\ (get_credentials (save_auctions updatedAuctions s)).1 = (get_credentials s).1
  /\ (get_credentials (save_credentials updatedCreds s)).1
     = (if writable (disk (world s)) then updatedCreds else (get_credentials s).1)
  /\ (get_auctions (save_auctions updatedAuctions s)).1
     = (if writable (disk (world s)) then updatedAuctions else (get_auctions s).1)
  /\ (writable (disk (world s)) = true ->
      content (disk (world (save_auctions updatedAuctions (save_credentials updatedCreds s))))
      = Json updatedCreds updatedAuctions
      /\ content (disk (world (save_credentials updatedCreds (save_auctions updatedAuctions s))))
         = Json updatedCreds updatedAuctions).
Proof.
  rewrite !get_auctions_reads, !get_credentials_reads.
  destruct (save_auctions_disk updatedAuctions s) as (_ & Hwa & Hca).
  destruct (save_credentials_disk updatedCreds s) as (_ & Hwc & Hcc).
  cbv zeta in *. unfold stored_auctions, stored_credentials in *. rewrite Hca, Hcc.
  split; [|split; [|split; [|split]]].
  - destruct (writable (disk (world s))); reflexivity.
  - destruct (writable (disk (world s))); reflexivity.
  - destruct (writable (disk (world s))); reflexivity.
  - destruct (writable (disk (world s))); reflexivity.
  - intros Hw.
    destruct (save_auctions_disk updatedAuctions (save_credentials updatedCreds s))
      as (_ & _ & ->).
    destruct (save_credentials_disk updatedCreds (save_auctions updatedAuctions s))
      as (_ & _ & ->).
    cbv zeta. unfold stored_auctions, stored_credentials. rewrite Hwa, Hwc, Hca, Hcc, Hw.
    split; reflexivity.
Qed.

(** ** Scheduling calls *)

Lemma loadData_browserMap (w : World) : browserMap (loadData w).2 = browserMap w.
Proof.
  unfold loadData. cbn. destruct (content (disk w)); [destruct (writable (disk w))| |];
    reflexivity.
Qed.

Lemma alloc_auctions_browserMap (auctions : list Auction.t) :
  forall w, browserMap (alloc_auctions auctions w).2 = browserMap w.
Proof.
  induction auctions as [|a l IH]; intros w; cbn [alloc_auctions]; [reflexivity|].
  specialize (IH (set_heap (<[nextLoc w := a]> (heap w)) (S (nextLoc w)) w)).
  destruct (alloc_auctions l _). exact IH.
Qed.

Section Fast.
Context `{Builtins}.

(** X1. In every state the process can reach, every live bid timer is
    listed in [bidTimeouts], under an id already handed out and for an
    auction object already allocated: clearing the timers of the list
    clears every timer there is. *)
Theorem live_timers_registered (d : Disk) (now : Z) (es : list Event) (s : Sys) :
  run es (boot d now) = Some s ->
  forall id t,
    timers (world s) !! id = Some t ->
    id ∈ (BidTimeout.timeoutId <$> bidTimeouts (world s))
    /\ (id < nextTimeoutId (world s))%nat
    /\ (cb_auction t < nextLoc (world s))%nat.
Proof.
  intros Hrun id t Hid. destruct (reachable_inv d now es s Hrun) as (gs & Hcore & _).
  destruct (core_recorded _ _ Hcore id t Hid) as [Hin Hlt].
  destruct (core_timers _ _ Hcore id t Hid) as [_ Hloc]. auto.
Qed.

(** X2. [fetch-auctions-data] with no credentials or no auctions on
    file (or a file that cannot be read): the call returns at once with
    the auctions as read, starts no task and touches no session, and
    the timers armed before are cancelled all the same. *)
Theorem fetch_without_work (d : Disk) (now : Z) (es : list Event) (s : Sys)
    (credentials : list Cred.t) (auctions : list Auction.t) :
  run es (boot d now) = Some s ->
  (loadData (world s)).1 = (credentials, auctions) ->
  credentials = [] \/ auctions = [] ->
  exists s' c,
    step (Invoke FetchAuctionsData) s = Some s'
    /\ pool s' = pool s
    /\ browserMap (world s') = browserMap (world s)
    /\ timers (world s') = ∅
    /\ bidTimeouts (world s') = []
    /\ last (calls s') = Some c
    /\ children c = []
    /\ status c = Returned auctions.
Proof.
  intros Hrun Hdata Hempty.
  destruct (reachable_inv d now es s Hrun) as (gs & Hcore & _).
  pose proof (clear_bidTimeouts_timers (console_log (LIpc "fetch-auctions-data") (world s))
                (core_recorded _ _ Hcore)) as Htimers.
  destruct (clear_bidTimeouts_rest (console_log (LIpc "fetch-auctions-data") (world s)))
    as (Hbt & _ & _ & _ & Hbm & Hdisk & _).
  set (w1 := clear_bidTimeouts (console_log (LIpc "fetch-auctions-data") (world s))) in *.
  rewrite loadData_data in Hdata.
  pose proof (loadData_data w1) as Hdata1. rewrite Hdisk in Hdata1.
  change (disk (console_log (LIpc "fetch-auctions-data") (world s))) with (disk (world s))
    in Hdata1. rewrite Hdata in Hdata1.
  destruct (loadData_keeps w1) as (Ht2 & Hb2 & _).
  pose proof (loadData_browserMap w1) as Hbm2.
  destruct (alloc_auctions_spec auctions (loadData w1).2) as (_ & _ & Ht3 & Hb3 & _).
  pose proof (alloc_auctions_read auctions (loadData w1).2) as Hread.
  pose proof (alloc_auctions_browserMap auctions (loadData w1).2) as Hbm3.
  cbn [step invoke]. unfold fetch_auctions_data. fold w1.
  destruct (loadData w1) as [[credentials' auctions'] w2]. cbn [fst snd] in *.
  injection Hdata1 as -> ->.
  destruct (alloc_auctions auctions w2) as [locs w3]. cbn [fst snd] in *.
  assert (Hfast : forall s0 : Sys,
            match credentials, auctions with
            | _ :: _, _ :: _ => s0
            | _, _ =>
                {| world := console_log LNoCredsOrAuctions w3; pool := pool s;
                   calls := calls s ++ [{| children := []; result := locs; status := Pending |}];
                   history := history s |}
            end
            = {| world := console_log LNoCredsOrAuctions w3; pool := pool s;
                 calls := calls s ++ [{| children := []; result := locs; status := Pending |}];
                 history := history s |}).
  { intros s0. destruct Hempty as [-> | ->]; [reflexivity|]. destruct credentials; reflexivity. }
  eexists. eexists. split; [reflexivity|].
  rewrite Hfast. cbn [settle_calls pool world calls].
  split; [reflexivity|].
  split.
  { change (browserMap w3 = browserMap (world s)). rewrite Hbm3, Hbm2, Hbm. reflexivity. }
  split.
  { change (timers w3 = ∅). rewrite Ht3, Ht2. exact Htimers. }
  split.
  { change (bidTimeouts w3 = []). rewrite Hb3, Hb2. exact Hbt. }
  rewrite fmap_app.
  change (settle_call ?s0 <$> [?c0]) with [settle_call s0 c0].
  rewrite last_snoc. split; [reflexivity|].
  cbn. split; [reflexivity|]. f_equal. exact Hread.
Qed.

End Fast.

(** ** A pass that only arms timers *)

Section Arming.
Context `{Builtins}.

(** X17. A loop over auctions that all have a time still to come ends
    in the segment it starts in, bidding on nothing: for each auction,
    in order, it arms one timer under the next free id, with the time
    remaining as delay and the auction and the page in its callback,
    and appends one entry with the auction's [id] and the account to
    [bidTimeouts]; the timers armed before, the auctions, the sessions
    and the file are as they were. *)
Theorem bid_loop_arms_each (page : nat) (username : string) (auctionsToBid : list nat) :
  forall (w : World) (deadlines : list Z),
    Forall2 (due_later w) auctionsToBid deadlines ->
    exists w',
      run_sync (bid_loop page username auctionsToBid) w = (w', Ret)
      /\ bidTimeouts w'
         = bidTimeouts w
           ++ imap (fun i l => BidTimeout.mk (nextTimeoutId w + i)
                                 (Auction.id (heap w !!! l)) username) auctionsToBid
      /\ (forall i l deadline,
            auctionsToBid !! i = Some l -> deadlines !! i = Some deadline ->
            timers w' !! (nextTimeoutId w + i)%nat
            = Some {| delay := Some (deadline - clock w); armedAt := clock w;
                      cb_auction := l; cb_page := page |})
      /\ (forall id, (id < nextTimeoutId w)%nat -> timers w' !! id = timers w !! id)
      /\ nextTimeoutId w' = (nextTimeoutId w + length auctionsToBid)%nat
      /\ heap w' = heap w /\ clock w' = clock w
      /\ browserMap w' = browserMap w /\ disk w' = disk w.
Proof. apply bid_loop_all_later. Qed.

End Arming.

(** ** The tasks of a scheduling call *)

Section Tasks.
Context `{Builtins}.

Lemma logs_only_trans (w1 w2 w3 : World) :
  logs_only w1 w2 -> logs_only w2 w3 -> logs_only w1 w3.
Proof.
  intros [ls1 ->] [ls2 ->]. exists (ls1 ++ ls2). rewrite foldl_app. reflexivity.
Qed.

(** Up to its first [await], [handleUserBids] writes to the console and
    touches nothing else. *)
Lemma handleUserBids_logs_only (cred : Cred.t) (userAuctions : list nat) (w : World) :
  logs_only w (run_sync (handleUserBids cred userAuctions) w).1.
Proof.
  unfold handleUserBids. cbn [run_sync].
  destruct (List.filter (eligible w) userAuctions) as [|l toBid];
    [apply logs_only_one|].
  destruct (browserMap w !! Cred.username cred) as [session|] eqn:Hsession;
    [|apply logs_only_refl].
  unfold bid_with_session, ensureLoggedIn. cbn [run_sync and_then]. rewrite Hsession.
  cbn [run_sync and_then]. rewrite Hsession.
  destruct (isLoggedIn session); first [apply logs_only_one | apply logs_only_refl].
Qed.

(** The tasks of one scheduling call, in the order of the credentials. *)
Lemma push_tasks_pool (m : gmap string (list nat)) (w0 : World) (credentials : list Cred.t) :
  forall (tasks : list nat) (s : Sys),
    logs_only w0 (world s) ->
    exists progs : list Prog,
      pool (push_tasks m credentials tasks s).2 = pool s ++ progs
      /\ calls (push_tasks m credentials tasks s).2 = calls s
      /\ (push_tasks m credentials tasks s).1
         = tasks ++ seq (length (pool s)) (length (List.filter (starts m) credentials))
      /\ Forall2 (fun cred p =>
                    match slot m (Cred.username cred) with
                    | Some (Own userAuctions) =>
                        exists w, logs_only w0 w
                                  /\ p = (run_sync (handleUserBids cred userAuctions) w).2
                    | _ => p = Throw filter_error
                    end) (List.filter (starts m) credentials) progs.
Proof.
  induction credentials as [|cred rest IH]; intros tasks s Hlogs;
    cbn [push_tasks List.filter].
  { exists []. cbn. rewrite !app_nil_r. repeat split; constructor. }
  assert (Hspawn : forall p : Prog,
            starts m cred = true ->
            logs_only (world s) (run_sync p (world s)).1 ->
            match slot m (Cred.username cred) with
            | Some (Own userAuctions) =>
                exists w, logs_only w0 w
                          /\ (run_sync p (world s)).2
                             = (run_sync (handleUserBids cred userAuctions) w).2
            | _ => (run_sync p (world s)).2 = Throw filter_error
            end ->
            exists progs : list Prog,
              pool (push_tasks m rest (tasks ++ [(spawn p s).1]) (spawn p s).2).2
              = pool s ++ progs
              /\ calls (push_tasks m rest (tasks ++ [(spawn p s).1]) (spawn p s).2).2 = calls s
              /\ (push_tasks m rest (tasks ++ [(spawn p s).1]) (spawn p s).2).1
                 = tasks ++ seq (length (pool s))
                              (length (if starts m cred
                                       then cred :: List.filter (starts m) rest
                                       else List.filter (starts m) rest))
              /\ Forall2 (fun cred p =>
                            match slot m (Cred.username cred) with
                            | Some (Own userAuctions) =>
                                exists w, logs_only w0 w
                                          /\ p = (run_sync (handleUserBids cred userAuctions) w).2
                            | _ => p = Throw filter_error
                            end)
                   (if starts m cred then cred :: List.filter (starts m) rest
                    else List.filter (starts m) rest) progs).
  { intros p Hst Hp Hprog. rewrite Hst. unfold spawn.
    destruct (run_sync p (world s)) as [w p'] eqn:Hrun. cbn [fst snd] in *.
    match goal with |- context [push_tasks m rest ?t ?s1] =>
      destruct (IH t s1) as (progs & Hpool & Hcalls & Htasks & Hall) end.
    { cbn [world]. eapply logs_only_trans; eassumption. }
    exists (p' :: progs). rewrite Hpool, Hcalls, Htasks. cbn [pool calls length seq].
    rewrite length_app. cbn [length]. rewrite <- !app_assoc. cbn [app].
    replace (length (pool s) + 1)%nat with (S (length (pool s))) by lia.
    repeat split. constructor; assumption. }
  destruct (slot m (Cred.username cred)) as [[[|l ua]|[[|n]|]]|] eqn:Hslot.
  1, 3, 5, 6: (assert (Hst : starts m cred = false)
                 by (unfold starts; rewrite Hslot; reflexivity);
               rewrite Hst; apply IH; exact Hlogs).
  - pose proof (Hspawn (handleUserBids cred (l :: ua))) as Hs.
    destruct (spawn (handleUserBids cred (l :: ua)) s) as [task s1]. apply Hs; clear Hs.
    + unfold starts. rewrite Hslot. reflexivity.
    + apply handleUserBids_logs_only.
    + exists (world s). split; [exact Hlogs | reflexivity].
  - pose proof (Hspawn (Throw filter_error)) as Hs.
    destruct (spawn (Throw filter_error) s) as [task s1]. apply Hs; clear Hs.
    + unfold starts. rewrite Hslot. reflexivity.
    + apply logs_only_refl.
    + reflexivity.
Qed.

Lemma existsb_account (w : World) (locs : list nat) (u : string) :
  existsb (fun a => String.eqb (Auction.account a) u) ((fun l => heap w !!! l) <$> locs)
  = match of_account w locs u with [] => false | _ => true end.
Proof.
  unfold of_account. induction locs as [|l rest IH]; [reflexivity|].
  cbn [List.filter fmap list_fmap existsb].
  destruct (String.eqb (Auction.account (heap w !!! l)) u); [reflexivity | exact IH].
Qed.

(** The slot of a credential in the object the grouping loop has built. *)
Lemma slot_served (w : World) (locs : list nat) (m : gmap string (list nat))
    (cred : Cred.t) :
  (forall u, m !! u
             = if String.eqb u EmptyString then None
               else match of_account w locs u with [] => None | ua => Some ua end) ->
  starts m cred = served ((fun l => heap w !!! l) <$> locs) cred || method_name cred
  /\ slot m (Cred.username cred)
     = if served ((fun l => heap w !!! l) <$> locs) cred
       then Some (Own (of_account w locs (Cred.username cred)))
       else Inherited <$> inherited (Cred.username cred).
Proof.
  intros Hm. unfold starts, served, method_name, slot.
  rewrite Hm, existsb_account.
  destruct (String.eqb (Cred.username cred) EmptyString) eqn:He.
  - apply String.eqb_eq in He. rewrite He. cbn. auto.
  - cbn [negb andb].
    destruct (of_account w locs (Cred.username cred)) as [|l ua]; cbn [orb].
    + destruct (inherited (Cred.username cred)) as [[[|n]|]|]; cbn; auto.
    + auto.
Qed.

(** X18. [fetch-auctions-data] with credentials and auctions on file.
    If an auction's account is named like a member of
    [Object.prototype], the grouping loop throws: no task is started
    and the call fails. Otherwise the call starts one task for every
    entry of the credentials whose username is not empty and is the
    account of some auction, or is the name of a function of
    [Object.prototype] that takes arguments: one per entry, not one per
    username, appended to the pool in the order of the entries, and
    these are the promises the call waits for. The task of an entry
    with auctions is [handleUserBids] on the auctions of that account,
    in file order, run up to its first [await] in a state that differs
    from the one after loading by console lines only; the task of an
    entry named like a function has thrown the [TypeError]. *)
Theorem fetch_starts_one_task_per_credential (s : Sys) (credentials : list Cred.t)
    (auctions : list Auction.t) :
  (loadData (world s)).1 = (credentials, auctions) ->
  credentials <> [] -> auctions <> [] ->
  exists s' c,
    step (Invoke FetchAuctionsData) s = Some s'
    /\ last (calls s') = Some c
    /\ (Exists (fun a => inherited (Auction.account a) <> None) auctions ->
        pool s' = pool s /\ children c = [] /\ status c = Failed push_error)
    /\ (Forall (fun a => inherited (Auction.account a) = None) auctions ->
        let started :=
          List.filter (fun cred => served auctions cred || method_name cred) credentials in
        exists (w0 : World) (progs : list Prog),
          pool s' = pool s ++ progs
          /\ children c = seq (length (pool s)) (length started)
          /\ result c = seq (nextLoc (world s)) (length auctions)
          /\ (fun l => heap w0 !!! l) <$> result c = auctions
          /\ browserMap w0 = browserMap (world s)
          /\ Forall2 (fun cred p =>
                        if served auctions cred
                        then exists w,
                               logs_only w0 w
                               /\ p = (run_sync
                                         (handleUserBids cred
                                            (of_account w0 (result c) (Cred.username cred)))
                                         w).2
                        else p = Throw filter_error) started progs).
Proof.
  intros Hdata Hc Ha.
  destruct (clear_bidTimeouts_rest (console_log (LIpc "fetch-auctions-data") (world s)))
    as (_ & _ & _ & Hloc1 & Hbm1 & Hdisk & _).
  set (w1 := clear_bidTimeouts (console_log (LIpc "fetch-auctions-data") (world s))) in *.
  rewrite loadData_data in Hdata.
  pose proof (loadData_data w1) as Hdata1. rewrite Hdisk in Hdata1.
  change (disk (console_log (LIpc "fetch-auctions-data") (world s))) with (disk (world s))
    in Hdata1. rewrite Hdata in Hdata1.
  assert (Hbm2 : browserMap (loadData w1).2 = browserMap (world s)).
  { transitivity (browserMap w1); [|exact Hbm1]. apply loadData_browserMap. }
  destruct (loadData_keeps w1) as (_ & _ & _ & Hloc2 & _).
  cbn [step invoke]. unfold fetch_auctions_data. fold w1.
  destruct (loadData w1) as [[credentials' auctions'] w2]. cbn [fst snd] in Hdata1, Hbm2, Hloc2.
  injection Hdata1 as -> ->.
  pose proof (alloc_auctions_read auctions w2) as Hread.
  pose proof (alloc_auctions_browserMap auctions w2) as Hbm3.
  destruct (alloc_auctions_spec auctions w2) as (Hlocs & _).
  destruct (alloc_auctions auctions w2) as [locs w3]. cbn [fst snd] in Hread, Hbm3, Hlocs.
  rewrite Hloc2, Hloc1 in Hlocs.
  change (nextLoc (console_log (LIpc "fetch-auctions-data") (world s)))
    with (nextLoc (world s)) in Hlocs.
  destruct credentials as [|cred0 creds]; [done|]. destruct auctions as [|a0 aucs]; [done|].
  pose proof (group_by_account_cases w3 locs) as Hgroup.
  assert (Hplain : forallb (fun l => plain (Auction.account (heap w3 !!! l))) locs
                   = forallb (fun a => plain (Auction.account a)) (a0 :: aucs)).
  { rewrite <- Hread. generalize locs. intros ls.
    induction ls as [|l ls IH]; [reflexivity|]. cbn [forallb fmap list_fmap].
    rewrite IH. reflexivity. }
  rewrite Hplain in Hgroup.
  destruct (forallb (fun a => plain (Auction.account a)) (a0 :: aucs)) eqn:Hall.
  - destruct Hgroup as (m & -> & Hm).
    destruct (push_tasks_pool m w3 (cred0 :: creds) [] (set_world w3 s))
      as (progs & Hpool & Hcalls & Htasks & Hprogs); [apply logs_only_refl|].
    destruct (push_tasks m (cred0 :: creds) [] (set_world w3 s)) as [tasks s1].
    cbn [fst snd] in Hpool, Hcalls, Htasks. cbn [set_world pool calls] in Hpool, Hcalls, Htasks.
    assert (Hfilter : List.filter (starts m) (cred0 :: creds)
                      = List.filter (fun cred => served (a0 :: aucs) cred || method_name cred)
                          (cred0 :: creds)).
    { generalize (cred0 :: creds). intros l.
      induction l as [|c l IH]; [reflexivity|]. cbn [List.filter].
      destruct (slot_served w3 locs m c Hm) as [-> _]. rewrite Hread, IH. reflexivity. }
    rewrite Hfilter in Htasks, Hprogs.
    eexists. eexists. split; [reflexivity|].
    cbn [settle_calls pool calls]. rewrite fmap_app.
    change (settle_call ?s0 <$> [?c0]) with [settle_call s0 c0].
    rewrite last_snoc. split; [reflexivity|].
    destruct (settle_call_fields
                {| world := world s1; pool := pool s1;
                   calls := calls s1 ++ [{| children := tasks; result := locs;
                                            status := Pending |}];
                   history := history s1 |}
                {| children := tasks; result := locs; status := Pending |}) as [Hch Hres].
    cbn [children result] in Hch, Hres. split.
    + intros Hex. exfalso. apply Exists_exists in Hex as (a & Hin & Hinh).
      rewrite forallb_forall in Hall. apply list_elem_of_In in Hin. specialize (Hall a Hin).
      unfold plain in Hall. destruct (inherited (Auction.account a)); [discriminate | done].
    + intros _. cbv zeta. exists w3, progs. rewrite Hch, Hres.
      split; [exact Hpool|]. split; [exact Htasks|]. split; [exact Hlocs|].
      split; [exact Hread|]. split; [congruence|].
      eapply Forall2_impl; [exact Hprogs|]. cbn beta. intros cred p Hp.
      destruct (slot_served w3 locs m cred Hm) as [_ Hslot].
      rewrite Hread in Hslot. rewrite Hslot in Hp.
      destruct (served (a0 :: aucs) cred); [exact Hp|].
      destruct (inherited (Cred.username cred)) as [[[|n]|]|]; exact Hp.
  - rewrite Hgroup.
    eexists. eexists. split; [reflexivity|].
    cbn [settle_calls pool calls]. rewrite fmap_app.
    change (settle_call ?s0 <$> [?c0]) with [settle_call s0 c0].
    rewrite last_snoc. split; [reflexivity|]. split.
    + intros _. repeat split.
    + intros Hfa. exfalso. rewrite Forall_forall in Hfa.
      assert (Htrue : forallb (fun a => plain (Auction.account a)) (a0 :: aucs) = true).
      { apply forallb_forall. intros a Hin. unfold plain. rewrite (Hfa a); [reflexivity|].
        apply list_elem_of_In. exact Hin. }
      congruence.
Qed.

End Tasks.

(** ** What a bid writes *)

(** X19. What a successful bid writes to the file: the credentials are
    as they were, no auction is added, removed or moved, and a record
    differs from before only if it is the first with the auction's
    [id], and then only in its [bidPlaced], which holds the time of the
    bid; when the file can be written, that first record is stamped. *)
Theorem bid_touches_only_bidPlaced `{Builtins} (auction : nat) (w : World) :
  let nowStr := toLocaleString (clock w) in
  let d' := disk (mark_bidPlaced auction w) in
  let first (i : nat) (a : Auction.t) :=
    stored_auctions (disk w) !! i = Some a
    /\ Auction.id a = Auction.id (heap w !!! auction)
    /\ forall j b, (j < i)%nat -> stored_auctions (disk w) !! j = Some b ->
                   Auction.id b <> Auction.id (heap w !!! auction) in
  stored_credentials d' = stored_credentials (disk w)
  /\ length (stored_auctions d') = length (stored_auctions (disk w))
  /\ (forall i a, stored_auctions (disk w) !! i = Some a ->
        stored_auctions d' !! i = Some a
        \/ (first i a /\ stored_auctions d' !! i = Some (Auction.with_bidPlaced nowStr a)))
  /\ (forall i a, writable (disk w) = true -> first i a ->
        stored_auctions d' !! i = Some (Auction.with_bidPlaced nowStr a)).
Proof.
  intros nowStr d' first. subst d' first.
  pose proof (mark_bidPlaced_content auction w) as Hc. cbv zeta in Hc. fold nowStr in Hc.
  unfold stored_credentials, stored_auctions. cbn beta.
  destruct (content (disk w)) as [| |credentials auctions].
  - rewrite Hc. destruct (writable (disk w)); repeat split; try reflexivity;
      intros i a; rewrite ?lookup_nil; try discriminate;
      intros _ (Hi & _); discriminate Hi.
  - rewrite Hc. repeat split; try reflexivity;
      intros i a; rewrite ?lookup_nil; try discriminate;
      intros _ (Hi & _); discriminate Hi.
  - destruct (list_find _ auctions) as [[idx a0]|] eqn:Hfind.
    + rewrite Hc. apply list_find_Some in Hfind as (Hidx & Hid & Hfirst).
      destruct (writable (disk w)).
      * split; [reflexivity|]. split; [apply length_insert|]. split.
        -- intros i a Hi. destruct (decide (i = idx)) as [->|Hne].
           ++ right. assert (a = a0) by congruence. subst a0.
              split; [|apply list_lookup_insert_eq; eapply lookup_lt_Some; eassumption].
              split; [exact Hi|]. split; [exact Hid|].
              intros j b Hlt Hj. exact (Hfirst j b Hj Hlt).
           ++ left. rewrite list_lookup_insert_ne by auto. exact Hi.
        -- intros i a _ (Hi & Hida & Hbefore).
           assert (i = idx) as ->.
           { destruct (Nat.lt_trichotomy i idx) as [Hlt|[Heq|Hgt]]; [|exact Heq|].
             - exfalso. exact (Hfirst i a Hi Hlt Hida).
             - exfalso. exact (Hbefore idx a0 Hgt Hidx Hid). }
           assert (a = a0) by congruence. subst a0.
           apply list_lookup_insert_eq. eapply lookup_lt_Some; eassumption.
      * split; [reflexivity|]. split; [reflexivity|]. split; [auto | discriminate].
    + rewrite Hc. split; [reflexivity|]. split; [reflexivity|]. split; [auto|].
      intros i a _ (Hi & Hida & _). exfalso.
      apply list_find_None in Hfind. rewrite Forall_forall in Hfind.
      apply (Hfind a); [eapply list_elem_of_lookup_2; exact Hi | exact Hida].
Qed.

(** ** The theorems of this part at concrete inputs *)

Lemma live_timers_registered_witness :
  let s := @state_after sample_js schedule_once (boot sample_disk ten_o_clock) in
  let t := {| delay := Some 5000; armedAt := ten_o_clock;
              cb_auction := 0; cb_page := 8 |} in
  @run sample_js schedule_once (boot sample_disk ten_o_clock) = Some s
  /\ timers (world s) !! 0%nat = Some t
  /\ 0%nat ∈ (BidTimeout.timeoutId <$> bidTimeouts (world s)).
Proof.
  intros s t.
  assert (Hrun : @run sample_js schedule_once (boot sample_disk ten_o_clock) = Some s)
    by (vm_compute; reflexivity).
  assert (Hid : timers (world s) !! 0%nat = Some t) by (vm_compute; reflexivity).
  split; [exact Hrun|]. split; [exact Hid|].
  exact (proj1 (@live_timers_registered sample_js sample_disk ten_o_clock schedule_once s
                  Hrun 0%nat t Hid)).
Defined.

Lemma fetch_without_work_witness :
  let d := {| content := Json [Cred.mk 1 "alice" "pw"] []; writable := true |} in
  exists s' c,
    @step sample_js (Invoke FetchAuctionsData) (boot d ten_o_clock) = Some s'
    /\ pool s' = pool (boot d ten_o_clock)
    /\ browserMap (world s') = browserMap (world (boot d ten_o_clock))
    /\ timers (world s') = ∅
    /\ bidTimeouts (world s') = []
    /\ last (calls s') = Some c
    /\ children c = []
    /\ status c = Returned [].
Proof.
  intros d.
  exact (@fetch_without_work sample_js d ten_o_clock [] (boot d ten_o_clock)
           [Cred.mk 1 "alice" "pw"] [] eq_refl eq_refl (or_intror eq_refl)).
Defined.

Lemma ensureLoggedIn_login_witness :
  feed (replicate 7 (Resolved 0, logged_out_world) ++ [(Resolved 0, logged_out_world)])
    (ensureLoggedIn "alice" "pw" 8) logged_out_world
  = (set_browserMap
       (insert "alice" {| browser := 7; page := 8; isLoggedIn := true |})
       (console_log (LLoginSuccessful "alice") logged_out_world), Ret).
Proof.
  destruct (ensureLoggedIn_login "alice" "pw" 8
              {| browser := 7; page := 8; isLoggedIn := false |}
              (replicate 7 (Resolved 0, logged_out_world))
              logged_out_world logged_out_world 0) as [_ Hfeed].
  - reflexivity.
  - reflexivity.
  - repeat constructor; eexists; reflexivity.
  - reflexivity.
  - rewrite Hfeed. reflexivity.
Defined.

Lemma handleUserBids_pages_witness :
  Forall (fun a => on_page 8 a = true)
    (awaited (replicate 4 (Resolved 0, sample_world))
       (@handleUserBids sample_js (Cred.mk 1 "alice" "pw") [1%nat; 2%nat]) sample_world)
  /\ exists ops,
       awaited [(Resolved 7, logged_out_world); (Resolved 9, logged_out_world);
                (Resolved 0, logged_out_world)]
         (@handleUserBids sample_js (Cred.mk 1 "alice" "pw") [1%nat; 2%nat])
         (set_browserMap (fun _ => ∅) sample_world)
       = Launch HEADLESS_BIDDING :: NewPage 7 :: ops
       /\ Forall (fun a => on_page 9 a = true) ops.
Proof.
  split.
  - apply (proj1 (@handleUserBids_pages sample_js (Cred.mk 1 "alice" "pw") [1%nat; 2%nat]
                    (replicate 4 (Resolved 0, sample_world)) sample_world)
             {| browser := 7; page := 8; isLoggedIn := true |}).
    reflexivity.
  - apply (proj2 (@handleUserBids_pages sample_js (Cred.mk 1 "alice" "pw") [1%nat; 2%nat]
                    _ (set_browserMap (fun _ => ∅) sample_world))
             7%nat 9%nat logged_out_world logged_out_world
             [(Resolved 0, logged_out_world)]).
    + reflexivity.
    + vm_compute. discriminate.
    + reflexivity.
Defined.

Lemma close_all_windows_closes_all_witness :
  feed [(Resolved 0, sample_world)] close_all_windows sample_world
  = (set_browserMap (fun _ => ∅) sample_world, Ret)
  /\ awaited [(Resolved 0, sample_world)] close_all_windows sample_world
     ≡ₚ (fun us => CloseBrowser (browser us.2)) <$> map_to_list (browserMap sample_world).
Proof.
  apply (close_all_windows_closes_all [(Resolved 0, sample_world)] sample_world).
  - vm_compute. reflexivity.
  - repeat constructor. eexists; reflexivity.
Defined.

Lemma close_all_windows_failure_witness :
  feed [(Rejected "Target closed", sample_world)] close_all_windows sample_world
  = (sample_world, Throw "Target closed").
Proof.
  apply (proj1 (close_all_windows_failure [] sample_world sample_world "Target closed"
                  ltac:(vm_compute; lia) ltac:(constructor))).
Defined.

Lemma save_then_get_witness :
  content (disk (world (save_auctions sample_auctions
                          (save_credentials [Cred.mk 2 "bob" "pw"]
                             (boot sample_disk ten_o_clock)))))
  = Json [Cred.mk 2 "bob" "pw"] sample_auctions
  /\ content (disk (world (save_credentials [Cred.mk 2 "bob" "pw"]
                             (save_auctions sample_auctions
                                (boot sample_disk ten_o_clock)))))
     = Json [Cred.mk 2 "bob" "pw"] sample_auctions.
Proof.
  apply (proj2 (proj2 (proj2 (proj2
           (save_then_get (boot sample_disk ten_o_clock) sample_auctions
              [Cred.mk 2 "bob" "pw"]))))).
  reflexivity.
Defined.

Lemma extracted_id_selector_witness :
  let w := set_heap {[ 0%nat := Auction.mk 1 "" "stg/1234" "5" "4 Main St" "alice" "" ]}
             1 sample_world in
  awaited (replicate 3 (Resolved 0, w)) (@placeBid sample_js 0 8) w !! 3%nat
  = Some (WaitForSelector 8 "#STG1234-place-bid-input" 20000).
Proof.
  intros w.
  apply (@extracted_id_selector sample_js "STG1234" 0%nat 8%nat w).
  - unfold ascii_only. cbn [String.list_ascii_of_string].
    repeat (constructor; [vm_compute; lia|]). constructor.
  - vm_compute. reflexivity.
Defined.

Lemma import_ids_fresh_witness :
  Auction.id <$> imp_auctions (add_rows (fun s => s) sample_rows sample_auctions) = [4; 5]
  /\ NoDup (Auction.id <$> imp_auctions (add_rows (fun s => s) sample_rows sample_auctions)).
Proof.
  split; [vm_compute; reflexivity|].
  apply (import_ids_fresh (fun s => s) sample_rows sample_auctions).
  - vm_compute. reflexivity.
  - apply NoDup_singleton.
Defined.

Lemma import_listings_distinct_witness :
  imp_skipped (add_rows (fun s => s) sample_rows sample_auctions) = ["stg/1234"]
  /\ NoDup (Auction.idAuction
              <$> imp_auctions (add_rows (fun s => s) sample_rows sample_auctions)).
Proof.
  split; [vm_compute; reflexivity|].
  apply (import_listings_distinct (fun s => s) sample_rows sample_auctions).
  apply NoDup_singleton.
Defined.

Lemma combineDateTime_format_witness :
  combineDateTime "2030-01-02" "10:30:15" = "01/02/2030 10:30"
  /\ combineDateTime "2030-01-02" "10" = "01/02/2030 10:undefined".
Proof.
  apply (combineDateTime_format "2030" "01" "02" "10" "30" [] ["15"]); reflexivity.
Defined.

Lemma bid_loop_arms_each_witness :
  exists w',
    run_sync (@bid_loop sample_js 8 "alice" [2%nat]) sample_world = (w', Ret)
    /\ bidTimeouts w' = [BidTimeout.mk 0 3 "alice"]
    /\ timers w' !! 0%nat
       = Some {| delay := Some 5000; armedAt := ten_o_clock; cb_auction := 2; cb_page := 8 |}.
Proof.
  destruct (@bid_loop_arms_each sample_js 8 "alice" [2%nat] sample_world [1893492005000])
    as (w' & Hrun & Hbt & Htimers & _).
  - constructor; [|constructor]. split; [discriminate|]. split; [reflexivity|].
    vm_compute. reflexivity.
  - exists w'. split; [exact Hrun|]. split.
    + rewrite Hbt. reflexivity.
    + exact (Htimers 0%nat 2%nat 1893492005000 eq_refl eq_refl).
Defined.

Lemma fetch_starts_one_task_per_credential_witness :
  exists s' c,
    @step sample_js (Invoke FetchAuctionsData) (boot twin_disk ten_o_clock) = Some s'
    /\ last (calls s') = Some c
    /\ length (pool s') = 2%nat
    /\ children c = [0%nat; 1%nat]
    /\ result c = [0%nat].
Proof.
  destruct (@fetch_starts_one_task_per_credential sample_js (boot twin_disk ten_o_clock)
              [Cred.mk 1 "alice" "pw"; Cred.mk 2 "alice" "pw"]
              [Auction.mk 1 "2030-01-01T10:00:05Z" "stg/1234" "5" "1 Main St" "alice" ""]
              eq_refl ltac:(discriminate) ltac:(discriminate))
    as (s' & c & Hstep & Hlast & _ & Hok).
  destruct Hok as (w0 & progs & Hpool & Hch & Hres & _ & _ & Hall).
  { repeat constructor. }
  exists s', c. split; [exact Hstep|]. split; [exact Hlast|].
  apply Forall2_length in Hall. rewrite Hpool, length_app, <- Hall.
  split; [reflexivity|]. split; [exact Hch | exact Hres].
Defined.
